(** * CodeRecoder: the snapshot engine

    A shallow embedding of the file-level snapshot store
    ([src/fileSnapshotManager.ts]) and of the project-level snapshot store
    ([src/projectSnapshotManager.ts]), followed by the properties of the
    specification that were checked against them.

    Conventions.
    - JavaScript numbers that the code only ever uses as integers (counters,
      sizes, millisecond clocks) are [Z].
    - Strings are byte strings ([string]).
    - Asynchronous methods are run to completion one at a time: the code
      awaits every step, and the per-store lock serialises writers.  A method
      is a computation in a state-and-exception monad; a [throw] keeps the
      state reached so far, as a rejected promise does.
    - What the code obtains from its host (the clock, fresh uuids, the output
      of [git], whether [rsync] is installed) is an explicit argument. *)

From Stdlib Require Import ZArith Ascii String List Lia Bool Sorted.
From stdpp Require Import base option list sorting gmap strings pretty.

Local Open Scope string_scope.
Local Open Scope list_scope.
Local Open Scope Z_scope.


(* ===================================================================== *)
(** * JavaScript string primitives used by the code *)
(* ===================================================================== *)

Module Js.

(** [s.startsWith(p)] *)
Fixpoint startsWith (s p : string) : bool :=
  match p, s with
  | EmptyString, _ => true
  | String _ _, EmptyString => false
  | String a p', String b s' => if Ascii.eqb a b then startsWith s' p' else false
  end.

(** [s.includes(sub)] *)
Fixpoint includes (s sub : string) : bool :=
  startsWith s sub ||
  match s with
  | EmptyString => false
  | String _ s' => includes s' sub
  end.

(** [s.endsWith(p)] *)
Fixpoint endsWith (s p : string) : bool :=
  String.eqb s p ||
  match s with
  | EmptyString => false
  | String _ s' => endsWith s' p
  end.

(** [s.split(sep)] for a one-character separator. *)
Fixpoint split (sep : ascii) (s : string) : list string :=
  match s with
  | EmptyString => [EmptyString]
  | String c s' =>
      if Ascii.eqb c sep then EmptyString :: split sep s'
      else match split sep s' with
           | [] => [String c EmptyString]
           | w :: ws => String c w :: ws
           end
  end.

(** [l.join(sep)] *)
Definition join (sep : string) (l : list string) : string := String.concat sep l.

(** [s.slice(n)] for [n >= 0]. *)
Fixpoint slice_from (n : nat) (s : string) : string :=
  match n, s with
  | O, _ => s
  | S _, EmptyString => EmptyString
  | S n', String _ s' => slice_from n' s'
  end.

Definition is_white (c : ascii) : bool :=
  let n := nat_of_ascii c in
  ((9 <=? n) && (n <=? 13))%nat || (n =? 32)%nat.

(** [s.trim()] is the empty string (falsy) exactly when every character
    of [s] is white space. *)
Fixpoint trim_is_empty (s : string) : bool :=
  match s with
  | EmptyString => true
  | String c s' => is_white c && trim_is_empty s'
  end.

Definition lower_ascii (c : ascii) : ascii :=
  let n := nat_of_ascii c in
  if ((65 <=? n) && (n <=? 90))%nat then ascii_of_nat (n + 32) else c.

(** [s.toLowerCase()] on the ASCII range. *)
Fixpoint toLowerCase (s : string) : string :=
  match s with
  | EmptyString => EmptyString
  | String c s' => String (lower_ascii c) (toLowerCase s')
  end.

(** [a.slice(start, end)] on arrays, with JavaScript's treatment of
    negative and out-of-range indices. *)
Definition clamp_index (len i : Z) : Z :=
  if i <? 0 then Z.max (len + i) 0 else Z.min i len.

Definition slice {A} (l : list A) (start stop : Z) : list A :=
  let len := Z.of_nat (length l) in
  let s := clamp_index len start in
  let e := clamp_index len stop in
  take (Z.to_nat (e - s)) (drop (Z.to_nat s) l).

(** [a.slice(start)] *)
Definition slice_to_end {A} (l : list A) (start : Z) : list A :=
  drop (Z.to_nat (clamp_index (Z.of_nat (length l)) start)) l.

(** [a.sort(cmp)]: a stable sort; [cmp a b > 0] puts [b] first. *)
Fixpoint sort_insert {A} (cmp : A → A → Z) (x : A) (l : list A) : list A :=
  match l with
  | [] => [x]
  | y :: l' => if 0 <? cmp x y then y :: sort_insert cmp x l' else x :: l
  end.

Fixpoint sort {A} (cmp : A → A → Z) (l : list A) : list A :=
  match l with
  | [] => []
  | x :: l' => sort_insert cmp x (sort cmp l')
  end.

(** [a.find(p)] *)
Fixpoint find {A} (p : A → bool) (l : list A) : option A :=
  match l with
  | [] => None
  | x :: l' => if p x then Some x else find p l'
  end.

(** [a.findIndex(p)], [None] standing for [-1]. *)
Fixpoint findIndex {A} (p : A → bool) (l : list A) : option nat :=
  match l with
  | [] => None
  | x :: l' => if p x then Some O else S <$> findIndex p l'
  end.

(** [a.includes(x)] on an array of strings. *)
Definition mem (x : string) (l : list string) : bool :=
  existsb (String.eqb x) l.

End Js.

(* ===================================================================== *)
(** * Node's [path] module, POSIX flavour *)
(* ===================================================================== *)

Module Path.

Definition slash : ascii := "/"%char.

Definition isAbsolute (p : string) : bool := Js.startsWith p "/".

(** [normalizeString]: drops empty and ["."] segments and lets [".."]
    cancel the segment before it.  [acc] is the reversed result so far. *)
Fixpoint normalizeString (allowAboveRoot : bool) (parts acc : list string)
  : list string :=
  match parts with
  | [] => rev acc
  | c :: rest =>
      if String.eqb c "" || String.eqb c "." then
        normalizeString allowAboveRoot rest acc
      else if String.eqb c ".." then
        match acc with
        | top :: acc' =>
            if String.eqb top ".." then normalizeString allowAboveRoot rest (c :: acc)
            else normalizeString allowAboveRoot rest acc'
        | [] =>
            if allowAboveRoot then normalizeString allowAboveRoot rest [c]
            else normalizeString allowAboveRoot rest []
        end
      else normalizeString allowAboveRoot rest (c :: acc)
  end.

(** [path.resolve(p)] in a process whose working directory is [cwd]. *)
Definition resolve (cwd p : string) : string :=
  let full := if isAbsolute p then p else cwd +:+ "/" +:+ p in
  "/" +:+ Js.join "/" (normalizeString false (Js.split slash full) []).

(** [path.normalize(p)] *)
Definition normalize (p : string) : string :=
  if String.eqb p "" then "."
  else
    let abs := isAbsolute p in
    let trailing := Js.endsWith p "/" in
    let body := Js.join "/" (normalizeString (negb abs) (Js.split slash p) []) in
    if String.eqb body "" then
      (if abs then "/" else if trailing then "./" else ".")
    else
      (if abs then "/" else "") +:+ body +:+ (if trailing then "/" else "").

(** [path.join(a, b)] *)
Definition join (a b : string) : string :=
  if String.eqb a "" then normalize b
  else if String.eqb b "" then normalize a
  else normalize (a +:+ "/" +:+ b).

Definition segments (p : string) : list string :=
  filter (λ c, c ≠ "") (Js.split slash p).

(** [path.basename(p)] *)
Definition basename (p : string) : string := List.last (segments p) "".

(** [path.dirname(p)], up to redundant separators (every file-system
    access resolves them away). *)
Definition dirname (p : string) : string :=
  let ds := removelast (segments p) in
  if isAbsolute p then "/" +:+ Js.join "/" ds
  else match ds with [] => "." | _ => Js.join "/" ds end.

(** Position of the last ["."] of a name, counted from the left. *)
Fixpoint last_dot (s : string) (i : nat) (found : option nat) : option nat :=
  match s with
  | EmptyString => found
  | String c s' =>
      last_dot s' (S i) (if Ascii.eqb c "."%char then Some i else found)
  end.

(** [path.extname(name)] of a base name. *)
Definition extname (name : string) : string :=
  if String.eqb name ".." then ""
  else match last_dot name O None with
       | Some (S i) => Js.slice_from (S i) name
       | _ => ""
       end.

(** A path relative to a root, as the list of names to follow from the
    root; [None] when it climbs out of the root. *)
Definition components (rel : string) : option (list string) :=
  let cs := normalizeString true (Js.split slash rel) [] in
  if Js.mem ".." cs then None else Some cs.

(** The longest common prefix of two lists of segments, stripped. *)
Fixpoint strip_common (a b : list string) : list string * list string :=
  match a, b with
  | x :: a', y :: b' => if String.eqb x y then strip_common a' b' else (a, b)
  | _, _ => (a, b)
  end.

(** [path.relative(from, to)] *)
Definition relative (cwd from to : string) : string :=
  let '(up, down) := strip_common (segments (resolve cwd from)) (segments (resolve cwd to)) in
  Js.join "/" (((λ _, "..") <$> up) ++ down).

End Path.

(* ===================================================================== *)
(** * Computations with state and exceptions *)
(* ===================================================================== *)

Inductive Res (A : Type) : Type :=
| Ok (a : A)
| Throw (e : string).
Arguments Ok {A} a.
Arguments Throw {A} e.

Definition M (S A : Type) : Type := S → Res A * S.

Definition ret {S A} (a : A) : M S A := λ s, (Ok a, s).

Definition bind {S A B} (m : M S A) (k : A → M S B) : M S B :=
  λ s, match m s with
       | (Ok a, s') => k a s'
       | (Throw e, s') => (Throw e, s')
       end.

Definition throw {S A} (e : string) : M S A := λ s, (Throw e, s).

(** [try { m } catch (e) { h e }] *)
Definition try_catch {S A} (m : M S A) (h : string → M S A) : M S A :=
  λ s, match m s with
       | (Ok a, s') => (Ok a, s')
       | (Throw e, s') => h e s'
       end.

Definition gets {S A} (f : S → A) : M S A := λ s, (Ok (f s), s).

Definition modify {S} (f : S → S) : M S unit := λ s, (Ok tt, f s).

(** [for (const x of l) body x] *)
Definition for_each {S A} (l : list A) (body : A → M S unit) : M S unit :=
  (fix loop (l : list A) : M S unit :=
     match l with
     | [] => ret tt
     | x :: l' => bind (body x) (λ _, loop l')
     end) l.

(** Every run of [m] relates the state it starts from to the state it
    ends in, whether it returns or throws. *)
Definition preserves {S A} (R : S → S → Prop) (m : M S A) : Prop :=
  ∀ s r s', m s = (r, s') → R s s'.

(** [m] always returns, and relates the state it starts from to the state
    it ends in. *)
Definition returns {S A} (R : S → S → Prop) (m : M S A) : Prop :=
  ∀ s, ∃ a s', m s = (Ok a, s') ∧ R s s'.

(** [for (const x of l) out.push(await f x)] *)
Definition traverse {S A B} (f : A → M S B) (l : list A) : M S (list B) :=
  (fix loop (l : list A) : M S (list B) :=
     match l with
     | [] => ret []
     | x :: l' => bind (f x) (λ y, bind (loop l') (λ ys, ret (y :: ys)))
     end) l.

(** A loop that updates local variables: [for (const x of l) acc = await f acc x] *)
Definition fold_m {S A B} (f : B → A → M S B) (l : list A) (acc : B) : M S B :=
  (fix loop (l : list A) (acc : B) : M S B :=
     match l with
     | [] => ret acc
     | x :: l' => bind (f acc x) (λ acc', loop l' acc')
     end) l acc.

Declare Scope comp_scope.
Delimit Scope comp_scope with comp.
Notation "'do' x <- m ; k" := (bind m (λ x, k))
  (at level 10, x name, m at level 100, k at level 200,
   format "'[v' 'do'  x  <-  m ;  '/' k ']'") : comp_scope.
Notation "'do' ' p <- m ; k" := (bind m (λ x, match x with p => k end))
  (at level 10, p pattern, m at level 100, k at level 200) : comp_scope.
Notation "m ;; k" := (bind m (λ _, k))
  (at level 100, k at level 200, right associativity) : comp_scope.
Local Open Scope comp_scope.

(* ===================================================================== *)
(** * The file snapshot store ([src/fileSnapshotManager.ts]) *)
(* ===================================================================== *)

Module FileStore.

Record FileSnapshot := {
  snap_id : string;
  snap_timestamp : Z;
  snap_originalPath : string;
  snap_snapshotPath : string;
  snap_fileSize : Z;
  snap_fileHash : string;
  snap_prompt : string;
  snap_sessionId : string;
  snap_parentSnapshotId : option string;
  snap_aiSummary : option string
}.

Record SnapshotSession := {
  sess_id : string;
  sess_name : string;
  sess_created : Z;
  sess_lastModified : Z;
  sess_snapshots : list FileSnapshot;
  sess_currentSnapshotId : option string;
  sess_description : option string
}.

Record SnapshotData := {
  sessions : list SnapshotSession;
  currentSessionId : option string;
  version : string
}.

Inductive Payload :=
| NoData
| SessionCreated (sessionId sessionName : string)
| SnapshotCreated (snapshotId sessionId fileName : string) (fileSize : Z)
| SnapshotRestored (snapshotId filePath : string) (fileSize : Z)
                   (backupCreated : option string) (restoredFrom : string)
| SnapshotDeleted (deletedSnapshotId fileName sessionId : string)
                  (remainingSnapshots : nat).

Record SnapshotResponse := {
  success : bool;
  message : string;
  payload : Payload
}.

Definition failure (msg : string) : SnapshotResponse :=
  {| success := false; message := msg; payload := NoData |}.

(** What the store takes from its host process. *)
Record Host := {
  cwd : string;                              (* process.cwd() *)
  dirSize : Z;                               (* stat(dir).size *)
  sha256 : string → string;                  (* hex digest of the bytes *)
  stringify : SnapshotData → string;         (* JSON.stringify of the index *)
  parse : string → option SnapshotData;      (* JSON.parse, None: it throws *)
  stringifyMeta : FileSnapshot → string      (* JSON.stringify of metadata *)
}.

(** The manager object together with the disk it works on.  The disk maps
    the resolved absolute path of every regular file to its bytes; a
    directory exists when a file lies below it. *)
Record State := {
  cacheDirectory : string;
  snapshotsDirectory : string;
  isProjectBased : bool;
  data : SnapshotData;
  disk : gmap string string
}.

Definition set_disk (f : gmap string string → gmap string string) (st : State) : State :=
  {| cacheDirectory := cacheDirectory st; snapshotsDirectory := snapshotsDirectory st;
     isProjectBased := isProjectBased st; data := data st; disk := f (disk st) |}.

Definition set_data (f : SnapshotData → SnapshotData) (st : State) : State :=
  {| cacheDirectory := cacheDirectory st; snapshotsDirectory := snapshotsDirectory st;
     isProjectBased := isProjectBased st; data := f (data st); disk := disk st |}.

Definition set_directories (cache snaps : string) (st : State) : State :=
  {| cacheDirectory := cache; snapshotsDirectory := snaps;
     isProjectBased := true; data := data st; disk := disk st |}.

Definition set_sessions (f : list SnapshotSession → list SnapshotSession)
  (d : SnapshotData) : SnapshotData :=
  {| sessions := f (sessions d); currentSessionId := currentSessionId d;
     version := version d |}.

Definition set_currentSessionId (c : option string) (d : SnapshotData) : SnapshotData :=
  {| sessions := sessions d; currentSessionId := c; version := version d |}.

(** A JavaScript string used as a condition: [undefined] and [""] are falsy. *)
Definition truthy (o : option string) : option string :=
  match o with
  | Some s => if String.eqb s "" then None else Some s
  | None => None
  end.

Section WithHost.
Context (h : Host).

(** ** The disk *)

Definition key (p : string) : string := Path.resolve (cwd h) p.

(** [k] is the directory [d] or lies below it. *)
Definition under (d k : string) : bool :=
  String.eqb k d || Js.startsWith k (if String.eqb d "/" then "/" else d +:+ "/").

Definition is_directory (dk : gmap string string) (k : string) : bool :=
  match dk !! k with
  | Some _ => false
  | None => String.eqb k "/" || existsb (λ kv, under k kv.1) (map_to_list dk)
  end.

(** [fs.pathExists(p)] *)
Definition pathExists (p : string) : M State bool :=
  gets (λ st, bool_decide (is_Some (disk st !! key p)) || is_directory (disk st) (key p)).

(** [fs.readFile(p)] *)
Definition readFile (p : string) : M State string :=
  λ st, match disk st !! key p with
        | Some c => (Ok c, st)
        | None => (Throw (if is_directory (disk st) (key p) then "EISDIR" else "ENOENT"), st)
        end.

(** [(await fs.stat(p)).size] *)
Definition statSize (p : string) : M State Z :=
  λ st, match disk st !! key p with
        | Some c => (Ok (Z.of_nat (String.length c)), st)
        | None => if is_directory (disk st) (key p) then (Ok (dirSize h), st)
                  else (Throw "ENOENT", st)
        end.

(** [fs.ensureDir(p)]: directories are implicit, there is nothing to
    create; a regular file of that name is an error. *)
Definition ensureDir (p : string) : M State unit :=
  λ st, match disk st !! key p with
        | Some _ => (Throw "EEXIST", st)
        | None => (Ok tt, st)
        end.

(** [fs.writeFile(p, content)] *)
Definition writeFile (p content : string) : M State unit :=
  λ st, if is_directory (disk st) (key p) then (Throw "EISDIR", st)
        else (Ok tt, set_disk (insert (key p) content) st).

(** The files below directory [ks], re-rooted at [kd]. *)
Definition rebase (ks kd : string) (dk : gmap string string) : list (string * string) :=
  omap (λ kv, if under ks kv.1
              then Some (kd +:+ Js.slice_from (String.length ks) kv.1, kv.2)
              else None)
       (map_to_list dk).

(** [fs.copy(src, dst)] of fs-extra: files are overwritten, a directory
    is copied with everything below it. *)
Definition copy (src dst : string) : M State unit :=
  λ st,
    let ks := key src in
    let kd := key dst in
    if String.eqb ks kd then
      (Throw "Source and destination must not be the same.", st)
    else
      match disk st !! ks with
      | Some c =>
          if is_directory (disk st) kd then
            (Throw "Cannot overwrite directory with non-directory", st)
          else (Ok tt, set_disk (insert kd c) st)
      | None =>
          if is_directory (disk st) ks then
            if under ks kd then
              (Throw "Cannot copy to a subdirectory of itself", st)
            else if bool_decide (is_Some (disk st !! kd)) then
              (Throw "Cannot overwrite non-directory with directory", st)
            else
              (Ok tt, set_disk (λ dk, list_to_map (rebase ks kd dk) ∪ dk) st)
          else (Throw "ENOENT", st)
      end.

(** [fs.remove(p)]: the file, or the directory with everything below. *)
Definition remove (p : string) : M State unit :=
  modify (set_disk (filter (λ kv, under (key p) kv.1 = false))).

Definition join3 (a b c : string) : string := Path.join (Path.join a b) c.

(** ** [validatePath] *)

Definition sensitivePatterns : list string :=
  ["/etc/"; "/usr/"; "/bin/"; "/sbin/"; "/boot/"; "/root/"; "/sys/"; "/proc/"].

Record PathValidation := { valid : bool; verror : option string }.

Definition validatePath (targetPath : string) (allowedRoot : option string)
  : PathValidation :=
  let resolvedPath := Path.resolve (cwd h) targetPath in
  if Js.includes resolvedPath ".." then
    {| valid := false; verror := Some "parent directory reference" |}
  else
    match Js.find (λ pattern, Js.startsWith resolvedPath pattern) sensitivePatterns with
    | Some pattern =>
        {| valid := false; verror := Some ("system path " +:+ pattern) |}
    | None =>
        match truthy allowedRoot with
        | Some root =>
            if negb (Js.startsWith resolvedPath (Path.resolve (cwd h) root))
            then {| valid := false; verror := Some "outside the allowed root" |}
            else {| valid := true; verror := None |}
        | None => {| valid := true; verror := None |}
        end
    end.

(** ** Persisting the index *)

(** [saveData]: the lock runs writers one after the other, which is the
    order this model already has. *)
Definition saveData : M State unit :=
  do cache <- gets cacheDirectory;
  do d <- gets data;
  writeFile (join3 cache "snapshots" "snapshots.json") (stringify h d).

(** Where [saveData] writes: the resolved path of the index document. *)
Definition indexKey (st : State) : string :=
  key (join3 (cacheDirectory st) "snapshots" "snapshots.json").

(** [initialize]: failures are logged and swallowed. *)
Definition initialize : M State unit :=
  try_catch
    (do cache <- gets cacheDirectory;
     do snaps <- gets snapshotsDirectory;
     ensureDir cache ;;
     ensureDir snaps ;;
     let dataPath := join3 cache "snapshots" "snapshots.json" in
     do present <- pathExists dataPath;
     if present then
       do content <- readFile dataPath;
       match parse h content with
       | Some d => modify (set_data (λ _, d))
       | None => throw "SyntaxError"
       end
     else saveData)
    (λ _, ret tt).

(** [updateCacheDirectory] *)
Definition updateCacheDirectory (newCacheDirectory : string) : M State unit :=
  do d <- gets data;
  (match sessions d with [] => ret tt | _ => saveData end) ;;
  modify (set_directories newCacheDirectory (Path.join newCacheDirectory "snapshots")) ;;
  initialize.

Definition indicators : list string :=
  ["package.json"; "requirements.txt"; ".git"; "Cargo.toml"; "go.mod"; "pom.xml";
   "README.md"].

(** The loop of [inferProjectRoot]: at most [depth] directories upwards. *)
Fixpoint inferLoop (depth : nat) (currentDir : string) (dk : gmap string string)
  : option string :=
  match depth with
  | O => None
  | S depth' =>
      if existsb (λ i, let k := key (Path.join currentDir i) in
                       bool_decide (is_Some (dk !! k)) || is_directory dk k)
           indicators
      then Some currentDir
      else
        let parentDir := Path.dirname currentDir in
        if String.eqb parentDir currentDir then None
        else inferLoop depth' parentDir dk
  end.

(** [inferProjectRoot] *)
Definition inferProjectRoot (filePath : string) : M State string :=
  gets (λ st, match inferLoop 10 (Path.dirname filePath) (disk st) with
              | Some d => d
              | None => Path.dirname filePath
              end).


(** ** Sessions and snapshots *)

(** Per-call inputs: the clock and the uuids the call will draw. *)
Record Env := {
  now : Z;
  uuidSession : string;
  uuidSnapshot : string
}.

(** [createSession] *)
Definition createSession (e : Env) (name description : option string)
  : M State SnapshotResponse :=
  try_catch
    (do d <- gets data;
     let session :=
       {| sess_id := uuidSession e;
          sess_name := match truthy name with
                       | Some n => n
                       | None => "Session " +:+ pretty (length (sessions d) + 1)%nat
                       end;
          sess_created := now e;
          sess_lastModified := now e;
          sess_snapshots := [];
          sess_currentSnapshotId := None;
          sess_description := description |} in
     modify (set_data (λ d, set_currentSessionId (Some (sess_id session))
                              (set_sessions (λ l, l ++ [session]) d))) ;;
     saveData ;;
     ret {| success := true; message := "Session created successfully";
            payload := SessionCreated (sess_id session) (sess_name session) |})
    (λ _, ret (failure "Failed to create session")).

(** [snapshots.push(snapshot); lastModified = now; currentSnapshotId = id] *)
Definition push_snapshot (t : Z) (snapshot : FileSnapshot) (s : SnapshotSession)
  : SnapshotSession :=
  {| sess_id := sess_id s; sess_name := sess_name s; sess_created := sess_created s;
     sess_lastModified := t;
     sess_snapshots := sess_snapshots s ++ [snapshot];
     sess_currentSnapshotId := Some (snap_id snapshot);
     sess_description := sess_description s |}.

(** The session a new snapshot goes to: the one asked for, else the
    current one, else a fresh default session.  [inl r] is the early
    return of the code. *)
Definition resolveSession (e : Env) (sessionId : option string)
  : M State (SnapshotResponse + string) :=
  match truthy sessionId with
  | Some sid => ret (inr sid)
  | None =>
      do cur <- gets (λ st, currentSessionId (data st));
      match truthy cur with
      | Some c => ret (inr c)
      | None =>
          do createResult <- createSession e None None;
          if success createResult then
            do cur' <- gets (λ st, currentSessionId (data st));
            ret (inr (default "" cur'))
          else ret (inl createResult)
      end
  end.

(** [createSnapshot].  The background enrichment it schedules only
    rewrites enrichment fields later on and is left out. *)
Definition createSnapshot (e : Env) (filePath prompt : string)
  (sessionId parentSnapshotId : option string) : M State SnapshotResponse :=
  try_catch
    (do cache <- gets cacheDirectory;
     (if String.eqb cache "" || Js.includes cache "CodeRecoder/.CodeRecoder" then
        do projectRoot <- inferProjectRoot filePath;
        match truthy (Some projectRoot) with
        | Some root => updateCacheDirectory (Path.join root ".CodeRecoder")
        | None => ret tt
        end
      else ret tt) ;;
     do resolved <- resolveSession e sessionId;
     match resolved with
     | inl early => ret early
     | inr sid =>
         do d <- gets data;
         match Js.findIndex (λ s, String.eqb (sess_id s) sid) (sessions d) with
         | None => ret (failure "Session not found")
         | Some sessionIndex =>
             do present <- pathExists filePath;
             if negb present then ret (failure "File not found")
             else
               let snapshotId := uuidSnapshot e in
               do snaps <- gets snapshotsDirectory;
               let snapshotDir := Path.join snaps snapshotId in
               let fileName := Path.basename filePath in
               let snapshotFilePath := Path.join snapshotDir fileName in
               do size <- statSize filePath;
               do fileContent <- readFile filePath;
               let fileHash := sha256 h fileContent in
               ensureDir snapshotDir ;;
               copy filePath snapshotFilePath ;;
               let snapshot :=
                 {| snap_id := snapshotId;
                    snap_timestamp := now e;
                    snap_originalPath := filePath;
                    snap_snapshotPath := snapshotFilePath;
                    snap_fileSize := size;
                    snap_fileHash := fileHash;
                    snap_prompt := prompt;
                    snap_sessionId := sid;
                    snap_parentSnapshotId := parentSnapshotId;
                    snap_aiSummary := Some prompt |} in
               writeFile (Path.join snapshotDir "metadata.json")
                         (stringifyMeta h snapshot) ;;
               modify (set_data (set_sessions
                         (alter (push_snapshot (now e) snapshot) sessionIndex))) ;;
               saveData ;;
               ret {| success := true;
                      message := "AI-enhanced snapshot created successfully";
                      payload := SnapshotCreated snapshotId sid fileName size |}
         end
     end)
    (λ _, ret (failure "Failed to create AI-enhanced snapshot")).

(** The first session holding a snapshot with the given id, with the
    position of the snapshot in it. *)
Fixpoint locate (snapshotId : string) (ss : list SnapshotSession) (i : nat)
  : option (nat * nat * FileSnapshot) :=
  match ss with
  | [] => None
  | s :: rest =>
      match Js.findIndex (λ x, String.eqb (snap_id x) snapshotId) (sess_snapshots s) with
      | Some j =>
          match sess_snapshots s !! j with
          | Some x => Some (i, j, x)
          | None => locate snapshotId rest (S i)
          end
      | None => locate snapshotId rest (S i)
      end
  end.

Definition set_current (c : option string) (s : SnapshotSession) : SnapshotSession :=
  {| sess_id := sess_id s; sess_name := sess_name s; sess_created := sess_created s;
     sess_lastModified := sess_lastModified s;
     sess_snapshots := sess_snapshots s;
     sess_currentSnapshotId := c;
     sess_description := sess_description s |}.

(** [restoreSnapshot] *)
Definition restoreSnapshot (t : Z) (snapshotId : string) : M State SnapshotResponse :=
  try_catch
    (do d <- gets data;
     match locate snapshotId (sessions d) O with
     | None => ret (failure "Snapshot not found")
     | Some (si, _, target) =>
         do stored <- pathExists (snap_snapshotPath target);
         if negb stored then ret (failure "Snapshot file not found")
         else
           do size <- statSize (snap_snapshotPath target);
           if negb (size =? snap_fileSize target) then
             ret (failure "Snapshot file corrupted")
           else if negb (valid (validatePath (snap_originalPath target) None)) then
             ret (failure "Path validation failed")
           else
             let backupPath := snap_originalPath target +:+ ".backup." +:+ pretty t in
             do present <- pathExists (snap_originalPath target);
             (if present then copy (snap_originalPath target) backupPath else ret tt) ;;
             ensureDir (Path.dirname (snap_originalPath target)) ;;
             copy (snap_snapshotPath target) (snap_originalPath target) ;;
             modify (set_data (set_sessions (alter (set_current (Some snapshotId)) si))) ;;
             saveData ;;
             do backedUp <- pathExists backupPath;
             ret {| success := true; message := "File restored successfully";
                    payload := SnapshotRestored snapshotId (snap_originalPath target)
                                 (snap_fileSize target)
                                 (if backedUp then Some backupPath else None)
                                 (snap_snapshotPath target) |}
     end)
    (λ _, ret (failure "Failed to restore snapshot")).

(** [snapshots.splice(i, 1); lastModified = now] and the repair of the
    session's pointer. *)
Definition drop_snapshot (t : Z) (snapshotId : string) (i : nat) (s : SnapshotSession)
  : SnapshotSession :=
  let remaining := delete i (sess_snapshots s) in
  {| sess_id := sess_id s; sess_name := sess_name s; sess_created := sess_created s;
     sess_lastModified := t;
     sess_snapshots := remaining;
     sess_currentSnapshotId :=
       if bool_decide (sess_currentSnapshotId s = Some snapshotId)
       then snap_id <$> last remaining
       else sess_currentSnapshotId s;
     sess_description := sess_description s |}.

(** [deleteSnapshot] *)
Definition deleteSnapshot (t : Z) (snapshotId : string) : M State SnapshotResponse :=
  try_catch
    (do d <- gets data;
     match locate snapshotId (sessions d) O with
     | None => ret (failure "Snapshot not found")
     | Some (si, snapshotIndex, target) =>
         do cache <- gets cacheDirectory;
         let snapshotDir := join3 cache "snapshots" snapshotId in
         do present <- pathExists snapshotDir;
         (if present then remove snapshotDir else ret tt) ;;
         modify (set_data (set_sessions
                   (alter (drop_snapshot t snapshotId snapshotIndex) si))) ;;
         saveData ;;
         do d' <- gets data;
         ret {| success := true; message := "Snapshot deleted successfully";
                payload := SnapshotDeleted snapshotId
                             (Path.basename (snap_originalPath target))
                             (default "" (sess_id <$> sessions d !! si))
                             (default O ((λ s, length (sess_snapshots s))
                                           <$> sessions d' !! si)) |}
     end)
    (λ _, ret (failure "Failed to delete snapshot")).

(** ** Reading the store *)

(** The answer of a method whose [data] is of type [A]; [result] is missing
    where the code returns no [data]. *)
Record Answer (A : Type) := {
  ok : bool;
  msg : string;
  result : option A
}.
Arguments ok {A} _.
Arguments msg {A} _.
Arguments result {A} _.

(** A JavaScript number used as a condition: [undefined] and [0] are falsy. *)
Definition truthyZ (o : option Z) : option Z :=
  match o with
  | Some n => if n =? 0 then None else Some n
  | None => None
  end.

(** An entry of [listSnapshots].  The fields only the background analysis
    fills ([changeAnalysis] and what is derived from it) are left out, as
    they are in [FileSnapshot]. *)
Record ListedSnapshot := {
  ls_id : string;
  ls_timestamp : Z;
  ls_filePath : string;
  ls_fileName : string;
  ls_prompt : string;
  ls_aiSummary : string;
  ls_fileSize : Z;
  ls_sessionName : string;
  ls_sessionId : string;
  ls_snapshotExists : bool;
  ls_hasParent : bool
}.

Record Listing := {
  listed : list ListedSnapshot;
  totalSessions : nat;
  totalSnapshots : nat
}.

(** The snapshots of a session that [listSnapshots] shows: those of the
    file asked for, and of these the last [limit]. *)
Definition shown (filePath : option string) (limit : option Z) (session : SnapshotSession)
  : list FileSnapshot :=
  let snapshots := sess_snapshots session in
  let snapshots :=
    match truthy filePath with
    | Some f => List.filter (λ s, String.eqb (snap_originalPath s) f) snapshots
    | None => snapshots
    end in
  match truthyZ limit with
  | Some n => Js.slice_to_end snapshots (- n)
  | None => snapshots
  end.

Definition listEntry (session : SnapshotSession) (snapshot : FileSnapshot)
  : M State ListedSnapshot :=
  do present <- pathExists (snap_snapshotPath snapshot);
  ret {| ls_id := snap_id snapshot;
         ls_timestamp := snap_timestamp snapshot;
         ls_filePath := snap_originalPath snapshot;
         ls_fileName := Path.basename (snap_originalPath snapshot);
         ls_prompt := snap_prompt snapshot;
         ls_aiSummary := default (snap_prompt snapshot) (truthy (snap_aiSummary snapshot));
         ls_fileSize := snap_fileSize snapshot;
         ls_sessionName := sess_name session;
         ls_sessionId := sess_id session;
         ls_snapshotExists := present;
         ls_hasParent := bool_decide (is_Some (truthy (snap_parentSnapshotId snapshot))) |}.

(** [listSnapshots] *)
Definition listSnapshots (sessionId filePath : option string) (limit : option Z)
  : M State (Answer Listing) :=
  try_catch
    (do d <- gets data;
     let selected :=
       match truthy sessionId with
       | Some sid => List.filter (λ s, String.eqb (sess_id s) sid) (sessions d)
       | None => sessions d
       end in
     do perSession <-
       traverse (λ session, traverse (listEntry session) (shown filePath limit session))
                selected;
     let snapshotList := concat perSession in
     ret {| ok := true; msg := "Snapshots retrieved successfully";
            result := Some {| listed := Js.sort (λ a b, ls_timestamp b - ls_timestamp a)
                                                snapshotList;
                              totalSessions := length (sessions d);
                              totalSnapshots := length snapshotList |} |})
    (λ _, ret {| ok := false; msg := "Failed to retrieve snapshots"; result := None |}).

Record SessionInfo := {
  si_id : string;
  si_name : string;
  si_created : Z;
  si_lastModified : Z;
  si_snapshotCount : nat;
  si_currentSnapshotId : option string
}.

(** [getCurrentSession]; [Some None] is [{ currentSession: null }]. *)
Definition getCurrentSession : M State (Answer (option SessionInfo)) :=
  try_catch
    (do d <- gets data;
     match truthy (currentSessionId d) with
     | None => ret {| ok := true; msg := "No active session"; result := Some None |}
     | Some current =>
         match Js.find (λ s, String.eqb (sess_id s) current) (sessions d) with
         | None => ret {| ok := false; msg := "Current session not found"; result := None |}
         | Some session =>
             ret {| ok := true; msg := "Current session retrieved";
                    result := Some (Some {| si_id := sess_id session;
                                            si_name := sess_name session;
                                            si_created := sess_created session;
                                            si_lastModified := sess_lastModified session;
                                            si_snapshotCount := length (sess_snapshots session);
                                            si_currentSnapshotId :=
                                              sess_currentSnapshotId session |}) |}
         end
     end)
    (λ _, ret {| ok := false; msg := "Failed to get current session"; result := None |}).

(** ** Retention *)

Definition set_snapshots (l : list FileSnapshot) (s : SnapshotSession) : SnapshotSession :=
  {| sess_id := sess_id s; sess_name := sess_name s; sess_created := sess_created s;
     sess_lastModified := sess_lastModified s;
     sess_snapshots := l;
     sess_currentSnapshotId := sess_currentSnapshotId s;
     sess_description := sess_description s |}.

(** [(num / den).toFixed(2)] for [0 <= num] and [0 < den]: the nearest
    multiple of a hundredth, the larger one on a tie. *)
Definition toFixed2 (num den : Z) : string :=
  let n := (200 * num + den) / (2 * den) in
  pretty (n / 100) +:+ "." +:+ (if n mod 100 <? 10 then "0" else "") +:+ pretty (n mod 100).

(** The body of the loop over the snapshots to delete; the pair is
    [(totalCleaned, totalSizeSaved)].  An error is logged and the loop goes
    on with what the counters were when it was thrown. *)
Definition cleanupOne (acc : nat * Z) (snapshot : FileSnapshot) : M State (nat * Z) :=
  try_catch
    (let snapshotDir := Path.dirname (snap_snapshotPath snapshot) in
     do present <- pathExists snapshotDir;
     if present then
       do size <- statSize (snap_snapshotPath snapshot);
       try_catch
         (remove snapshotDir ;; ret (S acc.1, acc.2 + size))
         (λ _, ret (acc.1, acc.2 + size))
     else ret acc)
    (λ _, ret acc).

(** The body of the loop over the sessions. *)
Definition cleanupSession (keepLatest : Z) (acc : nat * Z) (i : nat) : M State (nat * Z) :=
  do d <- gets data;
  match sessions d !! i with
  | None => ret acc
  | Some session =>
      if keepLatest <? Z.of_nat (length (sess_snapshots session)) then
        let sorted :=
          Js.sort (λ a b, snap_timestamp b - snap_timestamp a) (sess_snapshots session) in
        modify (set_data (set_sessions (alter (set_snapshots sorted) i))) ;;
        do acc' <- fold_m cleanupOne (Js.slice_to_end sorted keepLatest) acc;
        modify (set_data (set_sessions
                  (alter (set_snapshots (Js.slice sorted 0 keepLatest)) i))) ;;
        ret acc'
      else ret acc
  end.

Record CleanupReport := {
  snapshotsCleaned : nat;
  spaceSaved : string;
  remainingSnapshots : nat
}.

(** [cleanupOldSnapshots(keepLatest = 100)] *)
Definition cleanupOldSnapshots (keepLatest : option Z) : M State (Answer CleanupReport) :=
  let keep := default 100 keepLatest in
  try_catch
    (do count <- gets (λ st, length (sessions (data st)));
     do acc <- fold_m (cleanupSession keep) (seq 0 count) (O, 0);
     saveData ;;
     do d <- gets data;
     ret {| ok := true; msg := "Cleanup completed successfully";
            result := Some {| snapshotsCleaned := acc.1;
                              spaceSaved := toFixed2 acc.2 (1024 * 1024) +:+ " MB";
                              remainingSnapshots :=
                                foldl (λ sum s, (sum + length (sess_snapshots s))%nat) O
                                      (sessions d) |} |})
    (λ _, ret {| ok := false; msg := "Cleanup failed"; result := None |}).

(** ** The calls that write, as one type *)

Inductive Call :=
| CreateSession (e : Env) (name description : option string)
| CreateSnapshot (e : Env) (filePath prompt : string) (sessionId parentSnapshotId : option string)
| RestoreSnapshot (t : Z) (snapshotId : string)
| DeleteSnapshot (t : Z) (snapshotId : string).

Definition perform (c : Call) : M State SnapshotResponse :=
  match c with
  | CreateSession e name description => createSession e name description
  | CreateSnapshot e filePath prompt sessionId parentSnapshotId =>
      createSnapshot e filePath prompt sessionId parentSnapshotId
  | RestoreSnapshot t snapshotId => restoreSnapshot t snapshotId
  | DeleteSnapshot t snapshotId => deleteSnapshot t snapshotId
  end.

(** The index document on disk is the manager's data. *)
Definition persisted (st : State) : Prop :=
  disk st !! indexKey st = Some (stringify h (data st)).

(** Every run of [m] that answers a success ends with the index document
    written. *)
Definition durable (m : M State SnapshotResponse) : Prop :=
  ∀ st resp st', m st = (Ok resp, st') → success resp = true → persisted st'.

(** [x] is the entry that [listSnapshots] shows for [snapshot] of [session]
    on the disk of [st]. *)
Definition shows (st : State) (x : ListedSnapshot) (session : SnapshotSession)
  (snapshot : FileSnapshot) : Prop :=
  ls_id x = snap_id snapshot ∧
  ls_timestamp x = snap_timestamp snapshot ∧
  ls_filePath x = snap_originalPath snapshot ∧
  ls_fileName x = Path.basename (snap_originalPath snapshot) ∧
  ls_prompt x = snap_prompt snapshot ∧
  ls_fileSize x = snap_fileSize snapshot ∧
  ls_sessionId x = sess_id session ∧
  ls_sessionName x = sess_name session ∧
  (ls_snapshotExists x = true ↔
   is_Some (disk st !! key (snap_snapshotPath snapshot))
   ∨ is_directory (disk st) (key (snap_snapshotPath snapshot)) = true).

(** The disk [dk'] is [dk] but for files that were removed at or below one
    of the directories [dirs]. *)
Definition removedBelow (dirs : list string) (dk dk' : gmap string string) : Prop :=
  ∀ k, dk' !! k = dk !! k ∨ (dk' !! k = None ∧ ∃ d, d ∈ dirs ∧ under d k = true).

(** The directories that hold the stored copies of the snapshots of the
    store. *)
Definition storedDirs (d : SnapshotData) : list string :=
  (λ x, key (Path.dirname (snap_snapshotPath x))) <$> (sessions d ≫= sess_snapshots).

(** What retention leaves of a session when it keeps [keep] snapshots. *)
Definition trimmed (keep : Z) (s : SnapshotSession) : SnapshotSession :=
  if keep <? Z.of_nat (length (sess_snapshots s)) then
    set_snapshots
      (Js.slice (Js.sort (λ a b, snap_timestamp b - snap_timestamp a) (sess_snapshots s))
                0 keep) s
  else s.

(** What deleting stored copies may touch: the manager is what it was, and
    of the disk only files at or below [dirs] are gone. *)
Definition deletes (dirs : list string) (s s' : State) : Prop :=
  cacheDirectory s' = cacheDirectory s ∧ snapshotsDirectory s' = snapshotsDirectory s ∧
  isProjectBased s' = isProjectBased s ∧ data s' = data s ∧
  removedBelow dirs (disk s) (disk s').

(** The manager [new FileSnapshotManager(cacheDirectory)] builds, before
    its first write. *)
Definition construct (cache : option string) (dk : gmap string string) : State :=
  let dir := match truthy cache with
             | Some c => c
             | None => Path.join (cwd h) ".CodeRecoder"
             end in
  (initialize
     {| cacheDirectory := dir;
        snapshotsDirectory := join3 dir "snapshots" "files";
        isProjectBased := bool_decide (is_Some (truthy cache));
        data := {| sessions := []; currentSessionId := None; version := "2.0.0" |};
        disk := dk |}).2.

End WithHost.

Arguments ok {A} _.
Arguments msg {A} _.
Arguments result {A} _.

End FileStore.

(* ===================================================================== *)
(** * Directory trees *)
(* ===================================================================== *)

Module Tree.

(** What [readdir] with [withFileTypes] shows of a directory: its entries
    in listing order, each a regular file (bytes and [mtimeMs]) or a
    directory. *)
#[local] Unset Elimination Schemes.
Inductive node :=
| File (content : string) (mtime : Z)
| Dir (entries : list (string * node)).
#[local] Set Elimination Schemes.

Abbreviation dir := (list (string * node)).

Fixpoint find_entry (name : string) (d : dir) : option node :=
  match d with
  | [] => None
  | (n, x) :: d' => if String.eqb n name then Some x else find_entry name d'
  end.

(** Replace the entry called [name], or add it at the end. *)
Fixpoint set_entry (name : string) (x : node) (d : dir) : dir :=
  match d with
  | [] => [(name, x)]
  | (n, y) :: d' =>
      if String.eqb n name then (n, x) :: d' else (n, y) :: set_entry name x d'
  end.

Fixpoint remove_entry (name : string) (d : dir) : dir :=
  match d with
  | [] => []
  | (n, y) :: d' =>
      if String.eqb n name then remove_entry name d' else (n, y) :: remove_entry name d'
  end.

(** The node a path leads to. *)
Fixpoint get (d : dir) (p : list string) : option node :=
  match p with
  | [] => Some (Dir d)
  | c :: p' =>
      match find_entry c d with
      | Some (Dir d') => get d' p'
      | Some (File b m) => match p' with [] => Some (File b m) | _ => None end
      | None => None
      end
  end.

(** [mkdir(p, { recursive: true })]; [None] when a regular file is in
    the way, unless [force] lets the directory take its place. *)
Fixpoint mkdir_p (force : bool) (d : dir) (p : list string) : option dir :=
  match p with
  | [] => Some d
  | c :: p' =>
      match find_entry c d with
      | Some (Dir d') => (λ d'', set_entry c (Dir d'') d) <$> mkdir_p force d' p'
      | Some (File _ _) =>
          if force then (λ d'', set_entry c (Dir d'') d) <$> mkdir_p force [] p'
          else None
      | None => (λ d'', set_entry c (Dir d'') d) <$> mkdir_p force [] p'
      end
  end.

(** Write a regular file at [p]; [None] when the parent directory is
    missing or [p] is a directory, unless [force] lets the file take the
    place of an empty directory. *)
Fixpoint write_file (force : bool) (d : dir) (p : list string) (f : node) : option dir :=
  match p with
  | [] => None
  | [c] =>
      match find_entry c d with
      | Some (Dir []) => if force then Some (set_entry c f d) else None
      | Some (Dir _) => None
      | _ => Some (set_entry c f d)
      end
  | c :: p' =>
      match find_entry c d with
      | Some (Dir d') => (λ d'', set_entry c (Dir d'') d) <$> write_file force d' p' f
      | _ => None
      end
  end.


(** [rm(p, { recursive: true, force: true })] *)
Fixpoint remove (d : dir) (p : list string) : dir :=
  match p with
  | [] => d
  | [c] => remove_entry c d
  | c :: p' =>
      match find_entry c d with
      | Some (Dir d') => set_entry c (Dir (remove d' p')) d
      | _ => d
      end
  end.

Definition is_file (o : option node) : bool :=
  match o with Some (File _ _) => true | _ => false end.

(** Relative paths of the regular files of a tree, depth first. *)
Fixpoint files_of (n : node) (prefix : list string) : list (list string) :=
  match n with
  | File _ _ => [prefix]
  | Dir es =>
      (fix go (es : dir) : list (list string) :=
         match es with
         | [] => []
         | (name, x) :: es' => files_of x (prefix ++ [name]) ++ go es'
         end) es
  end.

Definition is_dir (o : option node) : bool :=
  match o with Some (Dir _) => true | _ => false end.

(** No directory of the tree lists a name twice. *)
Fixpoint wellFormed (n : node) : bool :=
  match n with
  | File _ _ => true
  | Dir es => bool_decide (NoDup es.*1) && forallb (λ e, wellFormed e.2) es
  end.

End Tree.

(* ===================================================================== *)
(** * The project snapshot store ([src/projectSnapshotManager.ts]) *)
(* ===================================================================== *)

Module ProjectStore.
Import Tree.

Inductive SnapshotType := full | incremental.

#[global] Instance SnapshotType_eq_dec : EqDecision SnapshotType.
Proof. solve_decision. Defined.

(** A snapshot record.  Of the analysis attached to it only
    [modifiedFiles] is kept: the name, the tags and the summary of the
    analysis are presentation and no decision of the store reads them. *)
Record ProjectSnapshot := {
  ps_id : string;
  ps_timestamp : Z;
  ps_saveNumber : Z;
  ps_type : SnapshotType;
  ps_changedFiles : list string;
  ps_prompt : string;
  ps_modifiedFiles : list string;       (* serenaAnalysis.modifiedFiles *)
  ps_totalFiles : nat;                  (* metadata.totalFiles *)
  ps_projectRoot : string;              (* metadata.projectRoot *)
  ps_actualFileCount : option nat       (* metadata.actualFileCount *)
}.

Record FileBaseline := {
  bl_filePath : string;
  bl_lastModified : Z;
  bl_fileSize : Z;
  bl_contentHash : string;
  bl_lineCount : option nat
}.

(** [fileBaselines] is a JavaScript object: keys in insertion order. *)
Record ProjectSnapshotData := {
  projectRoot : string;
  currentSaveNumber : Z;
  lastFullSaveNumber : Z;
  fullSaveInterval : Z;
  snapshots : list ProjectSnapshot;
  fileBaselines : list (string * FileBaseline);
  lastScanTime : Z;
  maxSnapshots : Z;                     (* settings.maxSnapshots *)
  autoCleanup : bool                    (* settings.autoCleanup *)
}.

(** The manager and the disk it works on: the tree below the project
    root, the directories [snapshots/projects/<id>], the index document
    last written, and whether the store accepts writes at all. *)
Record State := {
  cacheDirectory : string;
  data : ProjectSnapshotData;
  project : dir;
  snapshotDirs : gmap string dir;
  indexFile : option ProjectSnapshotData;
  storeWritable : bool
}.

Record Host := {
  cwd : string;
  sha256 : string → string;
  stringifySnapshot : ProjectSnapshot → string
}.

(** Per-call inputs. *)
Record Env := {
  now : Z;                              (* Date.now() *)
  gitStatus : option string;            (* stdout of git status, None: it fails *)
  rsyncInstalled : bool;
  uuid : string                         (* crypto.randomUUID() *)
}.

Inductive Payload :=
| NoData
| Created (snapshotId : string) (saveNumber : Z) (type : SnapshotType)
          (changedFiles : list string)
| Restored (snapshotId : string) (saveNumber : Z) (type : SnapshotType)
           (restoredFiles : list string).

Record Response := {
  success : bool;
  message : string;
  payload : Payload
}.

Definition failure (msg : string) : Response :=
  {| success := false; message := msg; payload := NoData |}.

(** ** State updates *)

Definition set_data (f : ProjectSnapshotData → ProjectSnapshotData) (st : State) : State :=
  {| cacheDirectory := cacheDirectory st; data := f (data st); project := project st;
     snapshotDirs := snapshotDirs st; indexFile := indexFile st;
     storeWritable := storeWritable st |}.

Definition set_project (f : dir → dir) (st : State) : State :=
  {| cacheDirectory := cacheDirectory st; data := data st; project := f (project st);
     snapshotDirs := snapshotDirs st; indexFile := indexFile st;
     storeWritable := storeWritable st |}.

Definition set_snapshotDirs (f : gmap string dir → gmap string dir) (st : State) : State :=
  {| cacheDirectory := cacheDirectory st; data := data st; project := project st;
     snapshotDirs := f (snapshotDirs st); indexFile := indexFile st;
     storeWritable := storeWritable st |}.

Definition set_indexFile (o : option ProjectSnapshotData) (st : State) : State :=
  {| cacheDirectory := cacheDirectory st; data := data st; project := project st;
     snapshotDirs := snapshotDirs st; indexFile := o;
     storeWritable := storeWritable st |}.

Definition set_storeWritable (b : bool) (st : State) : State :=
  {| cacheDirectory := cacheDirectory st; data := data st; project := project st;
     snapshotDirs := snapshotDirs st; indexFile := indexFile st;
     storeWritable := b |}.

Definition with_projectRoot (r : string) (d : ProjectSnapshotData) : ProjectSnapshotData :=
  {| projectRoot := r; currentSaveNumber := currentSaveNumber d;
     lastFullSaveNumber := lastFullSaveNumber d; fullSaveInterval := fullSaveInterval d;
     snapshots := snapshots d; fileBaselines := fileBaselines d;
     lastScanTime := lastScanTime d; maxSnapshots := maxSnapshots d;
     autoCleanup := autoCleanup d |}.

Definition with_currentSaveNumber (n : Z) (d : ProjectSnapshotData) : ProjectSnapshotData :=
  {| projectRoot := projectRoot d; currentSaveNumber := n;
     lastFullSaveNumber := lastFullSaveNumber d; fullSaveInterval := fullSaveInterval d;
     snapshots := snapshots d; fileBaselines := fileBaselines d;
     lastScanTime := lastScanTime d; maxSnapshots := maxSnapshots d;
     autoCleanup := autoCleanup d |}.

Definition with_lastFullSaveNumber (n : Z) (d : ProjectSnapshotData) : ProjectSnapshotData :=
  {| projectRoot := projectRoot d; currentSaveNumber := currentSaveNumber d;
     lastFullSaveNumber := n; fullSaveInterval := fullSaveInterval d;
     snapshots := snapshots d; fileBaselines := fileBaselines d;
     lastScanTime := lastScanTime d; maxSnapshots := maxSnapshots d;
     autoCleanup := autoCleanup d |}.

Definition with_snapshots (l : list ProjectSnapshot) (d : ProjectSnapshotData)
  : ProjectSnapshotData :=
  {| projectRoot := projectRoot d; currentSaveNumber := currentSaveNumber d;
     lastFullSaveNumber := lastFullSaveNumber d; fullSaveInterval := fullSaveInterval d;
     snapshots := l; fileBaselines := fileBaselines d;
     lastScanTime := lastScanTime d; maxSnapshots := maxSnapshots d;
     autoCleanup := autoCleanup d |}.

Definition with_fileBaselines (b : list (string * FileBaseline)) (d : ProjectSnapshotData)
  : ProjectSnapshotData :=
  {| projectRoot := projectRoot d; currentSaveNumber := currentSaveNumber d;
     lastFullSaveNumber := lastFullSaveNumber d; fullSaveInterval := fullSaveInterval d;
     snapshots := snapshots d; fileBaselines := b;
     lastScanTime := lastScanTime d; maxSnapshots := maxSnapshots d;
     autoCleanup := autoCleanup d |}.

Definition with_lastScanTime (t : Z) (d : ProjectSnapshotData) : ProjectSnapshotData :=
  {| projectRoot := projectRoot d; currentSaveNumber := currentSaveNumber d;
     lastFullSaveNumber := lastFullSaveNumber d; fullSaveInterval := fullSaveInterval d;
     snapshots := snapshots d; fileBaselines := fileBaselines d;
     lastScanTime := t; maxSnapshots := maxSnapshots d;
     autoCleanup := autoCleanup d |}.

(** ** JavaScript objects as ordered maps *)

Fixpoint obj_get {A} (k : string) (o : list (string * A)) : option A :=
  match o with
  | [] => None
  | (k', v) :: o' => if String.eqb k' k then Some v else obj_get k o'
  end.

Fixpoint obj_set {A} (k : string) (v : A) (o : list (string * A)) : list (string * A) :=
  match o with
  | [] => [(k, v)]
  | (k', v') :: o' =>
      if String.eqb k' k then (k', v) :: o' else (k', v') :: obj_set k v o'
  end.

(** The capped store a fresh manager starts from (the constructor). *)
Definition initialData : ProjectSnapshotData :=
  {| projectRoot := ""; currentSaveNumber := 0; lastFullSaveNumber := 0;
     fullSaveInterval := 10; snapshots := []; fileBaselines := [];
     lastScanTime := 0; maxSnapshots := 100; autoCleanup := true |}.

Section WithHost.
Context (h : Host).

(** ** The disk *)

(** Where a write lands: below the project root, or below the directory
    of a snapshot. *)
Inductive Place :=
| InProject
| InSnapshot (id : string).

(** [fs.mkdir(p, { recursive: true })]; with [force], as the mirror tool
    makes a directory. *)
Definition mkdirWith (force : bool) (pl : Place) (p : list string) : M State unit :=
  λ st,
    match pl with
    | InProject =>
        match Tree.mkdir_p force (project st) p with
        | Some d => (Ok tt, set_project (λ _, d) st)
        | None => (Throw "EEXIST", st)
        end
    | InSnapshot id =>
        if negb (storeWritable st) then (Throw "EACCES", st)
        else
          match Tree.mkdir_p force (default [] (snapshotDirs st !! id)) p with
          | Some d => (Ok tt, set_snapshotDirs (insert id d) st)
          | None => (Throw "EEXIST", st)
          end
    end.

Definition mkdir : Place → list string → M State unit := mkdirWith false.

(** The write half of [fs.copyFile] and [fs.writeFile]; with [force], as
    the mirror tool writes a file. *)
Definition putFileWith (force : bool) (pl : Place) (p : list string) (f : node)
  : M State unit :=
  λ st,
    match pl with
    | InProject =>
        match Tree.write_file force (project st) p f with
        | Some d => (Ok tt, set_project (λ _, d) st)
        | None => (Throw "ENOENT", st)
        end
    | InSnapshot id =>
        if negb (storeWritable st) then (Throw "EACCES", st)
        else
          match snapshotDirs st !! id with
          | Some d0 =>
              match Tree.write_file force d0 p f with
              | Some d => (Ok tt, set_snapshotDirs (insert id d) st)
              | None => (Throw "ENOENT", st)
              end
          | None => (Throw "ENOENT", st)
          end
    end.

Definition putFile : Place → list string → node → M State unit := putFileWith false.

(** The node an absolute path denotes, when it lies below [root]. *)
Definition lookup (root filePath : string) (st : State) : option node :=
  Path.components (Path.relative (cwd h) root filePath) ≫= Tree.get (project st).

(** [path.resolve(root, p)] *)
Definition resolveIn (root p : string) : string :=
  Path.resolve (cwd h) (if Path.isAbsolute p then p else root +:+ "/" +:+ p).

(** [fs.stat(filePath)]: size and [mtimeMs].  The code only asks for
    paths the directory walk returned, which are regular files. *)
Definition stat (root filePath : string) : M State (Z * Z) :=
  λ st, match lookup root filePath st with
        | Some (File c m) => (Ok (Z.of_nat (String.length c), m), st)
        | Some (Dir _) => (Throw "EISDIR", st)
        | None => (Throw "ENOENT", st)
        end.

(** [fs.readFile(filePath)] *)
Definition readFile (root filePath : string) : M State string :=
  λ st, match lookup root filePath st with
        | Some (File c _) => (Ok c, st)
        | Some (Dir _) => (Throw "EISDIR", st)
        | None => (Throw "ENOENT", st)
        end.

(** [saveData]: rewrites the index document. *)
Definition saveData : M State unit :=
  λ st, if storeWritable st then (Ok tt, set_indexFile (Some (data st)) st)
        else (Throw "EACCES", st).

(** ** Walking the project *)

Definition excludeDirs : list string :=
  [".git"; "node_modules"; ".CodeRecoder"; "__pycache__"; "dist"; "build"; ".next"].

Definition excludeExtensions : list string := [".log"; ".tmp"; ".cache"; ".DS_Store"].

(** [walkDir] of [getAllProjectFiles]; a directory that cannot be read
    is skipped. *)
Fixpoint walkDir (n : node) (dirPath : string) : list string :=
  match n with
  | File _ _ => []
  | Dir entries =>
      (fix each (es : dir) : list string :=
         match es with
         | [] => []
         | (name, x) :: es' =>
             let fullPath := Path.join dirPath name in
             match x with
             | Dir _ =>
                 if negb (Js.mem name excludeDirs) then walkDir x fullPath else []
             | File _ _ =>
                 if negb (Js.mem (Path.extname name) excludeExtensions)
                    && negb (Js.mem name excludeExtensions)
                 then [fullPath] else []
             end ++ each es'
         end) entries
  end.

(** [getAllProjectFiles] *)
Definition getAllProjectFiles (root : string) : M State (list string) :=
  gets (λ st, walkDir (Dir (project st)) root).

(** [content.toString('utf-8').split('\n').length] *)
Definition lineCount (content : string) : nat :=
  length (Js.split "010"%char content).

Definition modify_baselines
  (f : list (string * FileBaseline) → list (string * FileBaseline)) : M State unit :=
  modify (set_data (λ d, with_fileBaselines (f (fileBaselines d)) d)).

(** [updateFileBaseline]: a failure is logged and nothing changes. *)
Definition updateFileBaseline (filePath root : string) : M State unit :=
  try_catch
    (do stats <- stat root filePath;
     do content <- readFile root filePath;
     let relativePath := Path.relative (cwd h) root filePath in
     modify_baselines
       (obj_set relativePath
          {| bl_filePath := relativePath;
             bl_lastModified := stats.2;
             bl_fileSize := stats.1;
             bl_contentHash := sha256 h content;
             bl_lineCount := Some (lineCount content) |}))
    (λ _, ret tt).

(** [updateAllFileBaselines] *)
Definition updateAllFileBaselines (root : string) : M State unit :=
  do allFiles <- getAllProjectFiles root;
  for_each allFiles (λ filePath, updateFileBaseline filePath root) ;;
  saveData.

(** A loop that pushes onto a result array the elements its body says
    yes to; a body that throws is skipped (the [try] inside the loop). *)
Fixpoint collect {A} (l : list A) (body : A → M State bool) : M State (list A) :=
  match l with
  | [] => ret []
  | x :: l' =>
      do keep <- try_catch (body x) (λ _, ret false);
      do rest <- collect l' body;
      ret (if keep then x :: rest else rest)
  end.

(** ** The four layers of change detection *)

(** [getGitModifiedFiles] *)
Definition getGitModifiedFiles (e : Env) (root : string) : M State (list string) :=
  ret match gitStatus e with
      | None => []
      | Some stdout =>
          let lines := List.filter (λ line, negb (Js.trim_is_empty line))
                         (Js.split "010"%char stdout) in
          let files := List.filter (λ file, negb (Js.startsWith file ".CodeRecoder"))
                         (Js.slice_from 3 <$> lines) in
          resolveIn root <$> files
      end.

(** [getFilesByStatsComparison] *)
Definition getFilesByStatsComparison (root : string) : M State (list string) :=
  do allFiles <- getAllProjectFiles root;
  collect allFiles
    (λ filePath,
       do stats <- stat root filePath;
       let relativePath := Path.relative (cwd h) root filePath in
       do baselines <- gets (λ st, fileBaselines (data st));
       match obj_get relativePath baselines with
       | None => updateFileBaseline filePath root ;; ret true
       | Some baseline =>
           if negb (stats.1 =? bl_fileSize baseline)
              || negb (stats.2 =? bl_lastModified baseline)
           then updateFileBaseline filePath root ;; ret true
           else ret false
       end).

Definition rehash (hash : string) (mtime : Z) (b : FileBaseline) : FileBaseline :=
  {| bl_filePath := bl_filePath b; bl_lastModified := mtime;
     bl_fileSize := bl_fileSize b; bl_contentHash := hash;
     bl_lineCount := bl_lineCount b |}.

(** [getFilesByHashComparison]: only the files the baseline knows. *)
Definition getFilesByHashComparison (root : string) : M State (list string) :=
  do baselineFiles <- gets (λ st, (fst <$> fileBaselines (data st)));
  do hits <-
    collect baselineFiles
      (λ relativePath,
         let filePath := resolveIn root relativePath in
         do baselines <- gets (λ st, fileBaselines (data st));
         do present <- gets (λ st, bool_decide (is_Some (lookup root filePath st)));
         match obj_get relativePath baselines with
         | None => throw "TypeError"
         | Some baseline =>
             if present then
               do content <- readFile root filePath;
               let currentHash := sha256 h content in
               if negb (String.eqb currentHash (bl_contentHash baseline)) then
                 do stats <- stat root filePath;
                 modify_baselines
                   (obj_set relativePath (rehash currentHash stats.2 baseline)) ;;
                 ret true
               else ret false
             else ret false
         end);
  ret (resolveIn root <$> hits).

(** [getRecentlyModifiedFiles] *)
Definition getRecentlyModifiedFiles (e : Env) (root : string) (timeRangeMs : Z)
  : M State (list string) :=
  let cutoffTime := now e - timeRangeMs in
  do allFiles <- getAllProjectFiles root;
  collect allFiles
    (λ filePath, do stats <- stat root filePath; ret (cutoffTime <? stats.2)).

Definition hour : Z := 60 * 60 * 1000.

Definition touchScanTime (e : Env) : M State unit :=
  modify (set_data (with_lastScanTime (now e))).

Definition nonempty {A} (l : list A) : bool :=
  match l with [] => false | _ => true end.

(** [getModifiedFiles]: the prioritised fallback. *)
Definition getModifiedFiles (e : Env) (root : string) : M State (list string) :=
  do gitFiles <- getGitModifiedFiles e root;
  if nonempty gitFiles then
    touchScanTime e ;; ret gitFiles
  else
    do hashFiles <- getFilesByHashComparison root;
    if nonempty hashFiles then
      touchScanTime e ;; ret hashFiles
    else
      do statsFiles <- getFilesByStatsComparison root;
      if nonempty statsFiles then
        touchScanTime e ;; ret statsFiles
      else
        do recentFiles <- getRecentlyModifiedFiles e root hour;
        touchScanTime e ;;
        if nonempty recentFiles then ret recentFiles else ret [].


(** ** Analysis of the changes *)

(** [path.isAbsolute(f) ? path.relative(projectRoot, f) : f] *)
Definition relativize (root f : string) : string :=
  if Path.isAbsolute f then Path.relative (cwd h) root f else f.

(** [analyzeChangesWithGit], reduced to its [modifiedFiles]. *)
Definition analyzeChangesWithGit (e : Env) (root : string) : M State (list string) :=
  try_catch (getModifiedFiles e root) (λ _, ret []).

(** [analyzeChangesWithSerena], reduced to its [modifiedFiles]: the
    symbol overview it asks for only feeds the summary. *)
Definition analyzeChangesWithSerena (e : Env) (root : string) : M State (list string) :=
  try_catch
    (do baselineCount <- gets (λ st, length (fileBaselines (data st)));
     (if (baselineCount =? 0)%nat then updateAllFileBaselines root else ret tt) ;;
     do gitModifiedFiles <- getModifiedFiles e root;
     ret (relativize root <$> gitModifiedFiles))
    (λ _, analyzeChangesWithGit e root).

(** [[...new Set(l)]] *)
Fixpoint dedupe (l seen : list string) : list string :=
  match l with
  | [] => []
  | x :: l' => if Js.mem x seen then dedupe l' seen else x :: dedupe l' (x :: seen)
  end.

Definition keywords : list string :=
  ["test"; "config"; "readme"; "package"; "index"; "main"; "app"].

Definition extensions : list string :=
  [".js"; ".ts"; ".py"; ".java"; ".cpp"; ".md"; ".json"].

(** [guessFilesFromPrompt] *)
Definition guessFilesFromPrompt (root prompt : string) : M State (list string) :=
  let lowerPrompt := Js.toLowerCase prompt in
  do allFiles <- getAllProjectFiles root;
  let byKeyword :=
    concat ((λ keyword,
               if Js.includes lowerPrompt keyword then
                 Js.slice (List.filter
                             (λ file, Js.includes (Js.toLowerCase (Path.basename file)) keyword)
                             allFiles) 0 3
               else []) <$> keywords) in
  let byExtension :=
    concat ((λ ext,
               if Js.includes lowerPrompt (Js.slice_from 1 ext) then
                 Js.slice (List.filter (λ file, Js.endsWith file ext) allFiles) 0 2
               else []) <$> extensions) in
  ret (dedupe (byKeyword ++ byExtension) []).

(** [findNewFiles]: the files without a baseline, which get one. *)
Definition findNewFiles (root : string) : M State (list string) :=
  do allFiles <- getAllProjectFiles root;
  collect allFiles
    (λ filePath,
       let relativePath := Path.relative (cwd h) root filePath in
       do baselines <- gets (λ st, fileBaselines (data st));
       match obj_get relativePath baselines with
       | None => updateFileBaseline filePath root ;; ret true
       | Some _ => ret false
       end).

Definition mainPatterns : list string :=
  ["package.json"; "README.md"; "index.js"; "index.ts"; "main.py";
   "app.js"; "app.ts"; "server.js"; "server.ts"].

(** [for (const x of l) out.push(await f x)] *)
Fixpoint map_m {A B} (f : A → M State B) (l : list A) : M State (list B) :=
  match l with
  | [] => ret []
  | x :: l' => do y <- f x; do ys <- map_m f l'; ret (y :: ys)
  end.

(** [findMainProjectFiles] *)
Definition findMainProjectFiles (root : string) : M State (list string) :=
  do allFiles <- getAllProjectFiles root;
  let mainFiles :=
    omap (λ pattern,
            Js.find (λ file, String.eqb (Js.toLowerCase (Path.basename file))
                                        (Js.toLowerCase pattern)) allFiles)
         mainPatterns in
  if nonempty mainFiles then ret mainFiles
  else
    try_catch
      (do withStats <- map_m (λ file, do stats <- stat root file; ret (file, stats)) allFiles;
       ret (fst <$> Js.slice (Js.sort (λ a b, b.2.2 - a.2.2) withStats) 0 3))
      (λ _, ret mainFiles).

(** [guessedFiles.forEach(f => { if (!acc.includes(f)) acc.push(f) })] *)
Definition push_missing (acc l : list string) : list string :=
  fold_left (λ acc f, if Js.mem f acc then acc else acc ++ [f]) l acc.

(** [forceFileAnalysis], reduced to its [modifiedFiles]. *)
Definition forceFileAnalysis (e : Env) (root prompt : string) : M State (list string) :=
  try_catch
    (do recentFiles <- getRecentlyModifiedFiles e root (2 * hour);
     do guessedFiles <- guessFilesFromPrompt root prompt;
     let modifiedFiles := push_missing recentFiles guessedFiles in
     do modifiedFiles <-
       (if nonempty modifiedFiles then ret modifiedFiles
        else findNewFiles root);
     do modifiedFiles <-
       (if nonempty modifiedFiles then ret modifiedFiles
        else do mainFiles <- findMainProjectFiles root;
             ret (Js.slice mainFiles 0 5));
     ret (relativize root <$> modifiedFiles))
    (λ _, ret []).

(** ** Copying trees *)

(** The copy loop shared by the in-process copy and the model of
    [rsync]: entries of [src] whose name is [excluded] are skipped,
    directories are created and entered, regular files are written with
    the time stamp [stamp] makes of the source's.  [force] says what
    happens when the destination holds a node of the other kind. *)
Fixpoint copyTree (excluded : string → bool) (stamp : Z → Z) (force : bool)
  (src : node) (pl : Place) (target : list string) : M State unit :=
  match src with
  | File _ _ => mkdirWith force pl target ;; throw "ENOTDIR"
  | Dir items =>
      mkdirWith force pl target ;;
      for_each items
        (λ item,
           match item with
           | (name, x) =>
               if excluded name then ret tt
               else
                 match x with
                 | Dir _ => copyTree excluded stamp force x pl (target ++ [name])
                 | File c m => putFileWith force pl (target ++ [name]) (File c (stamp m))
                 end
           end)
  end.

Definition is_line_terminator (c : ascii) : bool :=
  let n := nat_of_ascii c in ((n =? 10) || (n =? 13))%nat.

(** Whether a prefix of the name matches the regular expression
    [pattern.replace(/\*/g, '.*')]: a star has become [.*], a dot is any
    character but a line terminator, the rest is literal (the patterns
    the code passes hold nothing else). *)
Fixpoint regexPrefix (p : string) : string → bool :=
  match p with
  | EmptyString => λ _, true
  | String c p' =>
      if Ascii.eqb c "*"%char then
        fix star (s : string) : bool :=
          regexPrefix p' s ||
          match s with
          | EmptyString => false
          | String d s' => negb (is_line_terminator d) && star s'
          end
      else if Ascii.eqb c "."%char then
        λ s, match s with
             | EmptyString => false
             | String d s' => negb (is_line_terminator d) && regexPrefix p' s'
             end
      else
        λ s, match s with
             | EmptyString => false
             | String d s' => Ascii.eqb c d && regexPrefix p' s'
             end
  end.

(** [new RegExp(...).test(name)]: a match anywhere in the name. *)
Fixpoint regexTest (p s : string) : bool :=
  regexPrefix p s ||
  match s with
  | EmptyString => false
  | String _ s' => regexTest p s'
  end.

(** [shouldExclude] of [copyDirectoryRecursive] *)
Definition shouldExclude (excludePatterns : list string) (name : string) : bool :=
  existsb (λ pattern, if Js.includes pattern "*" then regexTest pattern name
                      else String.eqb name pattern)
          excludePatterns.

(** [copyDirectoryRecursive]: an error is logged and thrown again. *)
Definition copyDirectoryRecursive (e : Env) (src : option node) (pl : Place)
  (target : list string) (excludePatterns : list string) : M State unit :=
  match src with
  | Some n => copyTree (shouldExclude excludePatterns) (λ _, now e) false n pl target
  | None => mkdir pl target ;; throw "ENOENT"
  end.

(** *** The external mirror tool

    [rsync -av [--delete] --exclude=P ... src/ dst/] as its manual
    describes it: the tree below [src] is copied onto [dst] with its
    time stamps; a directory takes the place of a regular file of its
    name, a regular file that of an empty directory; an entry whose name
    matches an exclude pattern is neither copied nor deleted; with
    [--delete], what [dst] holds and [src] does not is removed.  When the
    tool is not installed the command fails and nothing is written. *)

Record RsyncCommand := {
  rs_delete : bool;
  rs_excludes : list string
}.

(** Shell-style match of a name: a star is any run of characters. *)
Fixpoint glob (p : string) : string → bool :=
  match p with
  | EmptyString => λ s, String.eqb s ""
  | String c p' =>
      if Ascii.eqb c "*"%char then
        fix star (s : string) : bool :=
          glob p' s ||
          match s with
          | EmptyString => false
          | String _ s' => star s'
          end
      else
        λ s, match s with
             | EmptyString => false
             | String d s' => Ascii.eqb c d && glob p' s'
             end
  end.

Definition rsyncExcluded (patterns : list string) (name : string) : bool :=
  existsb (λ p, glob p name) patterns.

(** What [--delete] leaves of the destination. *)
Fixpoint prune (protected : string → bool) (src : option node) (dst : node) : node :=
  match dst with
  | File _ _ => dst
  | Dir es =>
      Dir ((fix each (es : dir) : dir :=
              match es with
              | [] => []
              | (name, x) :: es' =>
                  if protected name then (name, x) :: each es'
                  else
                    match src with
                    | Some (Dir ses) =>
                        match find_entry name ses with
                        | Some sx => (name, prune protected (Some sx) x) :: each es'
                        | None => each es'
                        end
                    | _ => each es'
                    end
              end) es)
  end.

Definition pruneRoot (protected : string → bool) (src : dir) (pl : Place) : M State unit :=
  let pruned (d : dir) : dir :=
    match prune protected (Some (Dir src)) (Dir d) with
    | Dir d' => d'
    | File _ _ => d
    end in
  match pl with
  | InProject => modify (set_project pruned)
  | InSnapshot id => modify (set_snapshotDirs (alter pruned id))
  end.

Definition rsync (e : Env) (cmd : RsyncCommand) (src : option dir) (pl : Place)
  : M State unit :=
  if negb (rsyncInstalled e) then throw "rsync: command not found"
  else
    match src with
    | None => throw "rsync: change_dir failed"
    | Some d =>
        copyTree (rsyncExcluded (rs_excludes cmd)) (λ m, m) true (Dir d) pl [] ;;
        if rs_delete cmd then pruneRoot (rsyncExcluded (rs_excludes cmd)) d pl
        else ret tt
    end.

(** ** Writing a snapshot *)

Definition excludePatterns : list string :=
  [".git"; "node_modules"; ".CodeRecoder"; "__pycache__"; "*.pyc"; "*.log";
   ".DS_Store"; "dist"; "build"; ".vscode"; ".idea"].

(** [copyProjectFiles]: the whole project, by [rsync] or else in process. *)
Definition copyProjectFiles (e : Env) (id : string) : M State unit :=
  do source <- gets project;
  try_catch
    (rsync e {| rs_delete := false; rs_excludes := excludePatterns |}
           (Some source) (InSnapshot id))
    (λ _, copyDirectoryRecursive e (Some (Dir source)) (InSnapshot id) [] excludePatterns).

(** One [fs.copyFile(sourcePath, targetPath)] from the project into a
    snapshot, after [fs.mkdir(path.dirname(targetPath))].  A path that
    leaves the project root names nothing in this model. *)
Definition copyIn (e : Env) (id file : string) : M State unit :=
  match Path.components file with
  | None => throw "ENOENT"
  | Some p =>
      mkdir (InSnapshot id) (removelast p) ;;
      do source <- gets (λ st, Tree.get (project st) p);
      match source with
      | Some (File c _) => putFile (InSnapshot id) p (File c (now e))
      | Some (Dir _) => throw "EISDIR"
      | None => throw "ENOENT"
      end
  end.

(** [copyChangedFiles]: a file that cannot be copied is logged and
    skipped. *)
Definition copyChangedFiles (e : Env) (id : string) (changedFiles : list string)
  : M State unit :=
  for_each changedFiles (λ file, try_catch (copyIn e id file) (λ _, ret tt)).

(** [saveSnapshotFiles] *)
Definition saveSnapshotFiles (e : Env) (snapshot : ProjectSnapshot) : M State unit :=
  mkdir (InSnapshot (ps_id snapshot)) [] ;;
  (if decide (ps_type snapshot = full)
   then copyProjectFiles e (ps_id snapshot)
   else copyChangedFiles e (ps_id snapshot) (ps_changedFiles snapshot)) ;;
  putFile (InSnapshot (ps_id snapshot)) ["snapshot_metadata.json"]
          (File (stringifySnapshot h snapshot) (now e)).

(** [walkDir] of [getSnapshotFileList]: the metadata file is not
    counted. *)
Fixpoint walkSnapshot (n : node) (basePath : string) : list string :=
  match n with
  | File _ _ => []
  | Dir entries =>
      (fix each (es : dir) : list string :=
         match es with
         | [] => []
         | (name, x) :: es' =>
             if String.eqb name "snapshot_metadata.json" then each es'
             else
               match x with
               | Dir _ => walkSnapshot x (Path.join basePath name)
               | File _ _ => [Path.join basePath name]
               end ++ each es'
         end) entries
  end.

(** [getSnapshotFileList]: a directory that cannot be read counts as
    empty. *)
Definition getSnapshotFileList (id : string) : M State (list string) :=
  gets (λ st, match snapshotDirs st !! id with
              | Some d => walkSnapshot (Dir d) ""
              | None => []
              end).

(** [fs.rm(snapshotDir, { recursive: true, force: true })] *)
Definition rmSnapshotDir (id : string) : M State unit :=
  λ st, if storeWritable st then (Ok tt, set_snapshotDirs (delete id) st)
        else (Throw "EACCES", st).

(** [cleanupOldSnapshots] *)
Definition cleanupOldSnapshots : M State unit :=
  do d <- gets data;
  if Z.of_nat (length (snapshots d)) <=? maxSnapshots d then ret tt
  else
    let sortedSnapshots :=
      Js.sort (λ a b, ps_timestamp b - ps_timestamp a) (snapshots d) in
    let snapshotsToKeep := Js.slice sortedSnapshots 0 (maxSnapshots d) in
    let snapshotsToDelete := Js.slice_to_end sortedSnapshots (maxSnapshots d) in
    for_each snapshotsToDelete
      (λ snapshot, try_catch (rmSnapshotDir (ps_id snapshot)) (λ _, ret tt)) ;;
    modify (set_data (with_snapshots snapshotsToKeep)).

Definition with_actualFileCount (n : nat) (s : ProjectSnapshot) : ProjectSnapshot :=
  {| ps_id := ps_id s; ps_timestamp := ps_timestamp s; ps_saveNumber := ps_saveNumber s;
     ps_type := ps_type s; ps_changedFiles := ps_changedFiles s;
     ps_prompt := ps_prompt s; ps_modifiedFiles := ps_modifiedFiles s;
     ps_totalFiles := ps_totalFiles s; ps_projectRoot := ps_projectRoot s;
     ps_actualFileCount := Some n |}.

(** [shouldDoFullSave], read once the counter has been incremented. *)
Definition shouldDoFullSave (d : ProjectSnapshotData) : bool :=
  (fullSaveInterval d <=? currentSaveNumber d - lastFullSaveNumber d)
  || (length (snapshots d) =? 0)%nat.

(** [createProjectSnapshot] *)
Definition createProjectSnapshot (e : Env) (root prompt : string) : M State Response :=
  try_catch
    (do cache <- gets cacheDirectory;
     if String.eqb cache "" then ret (failure "manager not initialised")
     else
       modify (set_data (λ d, with_currentSaveNumber (currentSaveNumber d + 1)
                                (with_projectRoot root d))) ;;
       do detected <- analyzeChangesWithSerena e root;
       do modifiedFiles <-
         (if nonempty detected then ret detected
          else
            do forced <- forceFileAnalysis e root prompt;
            if nonempty forced then ret forced else ret ["*"]);
       do d <- gets data;
       let snapshotType := if shouldDoFullSave d then full else incremental in
       (if decide (snapshotType = full)
        then modify (set_data (with_lastFullSaveNumber (currentSaveNumber d)))
        else ret tt) ;;
       let snapshot :=
         {| ps_id := uuid e;
            ps_timestamp := now e;
            ps_saveNumber := currentSaveNumber d;
            ps_type := snapshotType;
            ps_changedFiles :=
              if decide (snapshotType = full) then ["*"] else modifiedFiles;
            ps_prompt := prompt;
            ps_modifiedFiles := modifiedFiles;
            ps_totalFiles := length modifiedFiles;
            ps_projectRoot := root;
            ps_actualFileCount := None |} in
       saveSnapshotFiles e snapshot ;;
       do actualFiles <- getSnapshotFileList (ps_id snapshot);
       let snapshot := with_actualFileCount (length actualFiles) snapshot in
       modify (set_data (λ d, with_snapshots (snapshots d ++ [snapshot]) d)) ;;
       do auto <- gets (λ st, autoCleanup (data st));
       (if auto then cleanupOldSnapshots else ret tt) ;;
       saveData ;;
       ret {| success := true; message := "project snapshot created";
              payload := Created (ps_id snapshot) (ps_saveNumber snapshot)
                           (ps_type snapshot) (ps_changedFiles snapshot) |})
    (λ _, ret (failure "project snapshot failed")).


(** ** The restore planner *)

(** [for (let i = hi; i >= 1; i--)] *)
Definition countdown (hi : Z) : list Z :=
  Z.of_nat <$> reverse (seq 1 (Z.to_nat hi)).

(** [for (let n = lo; n <= hi; n++)] *)
Definition countup (lo hi : Z) : list Z :=
  (λ k, lo + Z.of_nat k) <$> seq 0 (Z.to_nat (hi - lo + 1)).

Definition bySaveNumber (i : Z) (l : list ProjectSnapshot) : option ProjectSnapshot :=
  Js.find (λ s, ps_saveNumber s =? i) l.

Definition is_full (s : ProjectSnapshot) : bool := bool_decide (ps_type s = full).

(** The backward search for the base: the first full snapshot met whose
    directory holds a file. *)
Fixpoint searchFull (indices : list Z) : M State (option ProjectSnapshot) :=
  match indices with
  | [] => ret None
  | i :: rest =>
      do d <- gets data;
      match bySaveNumber i (snapshots d) with
      | Some snapshot =>
          if is_full snapshot then
            do files <- getSnapshotFileList (ps_id snapshot);
            if nonempty files then ret (Some snapshot) else searchFull rest
          else searchFull rest
      | None => searchFull rest
      end
  end.

(** The degraded search: the first of the given snapshots whose
    directory holds a file. *)
Fixpoint firstUsable (candidates : list ProjectSnapshot) : M State (option ProjectSnapshot) :=
  match candidates with
  | [] => ret None
  | snapshot :: rest =>
      do files <- getSnapshotFileList (ps_id snapshot);
      if nonempty files then ret (Some snapshot) else firstUsable rest
  end.

(** The forward loop: incrementals are appended, a full snapshot that
    holds a file replaces the chain built so far. *)
Fixpoint extendChain (indices : list Z) (chain : list ProjectSnapshot)
  : M State (list ProjectSnapshot) :=
  match indices with
  | [] => ret chain
  | saveNum :: rest =>
      do d <- gets data;
      match bySaveNumber saveNum (snapshots d) with
      | Some snapshot =>
          if is_full snapshot then
            do files <- getSnapshotFileList (ps_id snapshot);
            if nonempty files then extendChain rest [snapshot]
            else extendChain rest chain
          else extendChain rest (chain ++ [snapshot])
      | None => extendChain rest chain
      end
  end.

(** [buildRestoreChain] *)
Definition buildRestoreChain (targetSnapshot : ProjectSnapshot)
  : M State (list ProjectSnapshot) :=
  if is_full targetSnapshot then
    do files <- getSnapshotFileList (ps_id targetSnapshot);
    if negb (nonempty files) && nonempty (ps_changedFiles targetSnapshot)
    then throw "full snapshot damaged or incomplete"
    else ret [targetSnapshot]
  else
    let targetSaveNumber := ps_saveNumber targetSnapshot in
    do found <- searchFull (countdown (targetSaveNumber - 1));
    do lastFullSnapshot <-
      match found with
      | Some snapshot => ret snapshot
      | None =>
          do d <- gets data;
          let availableFull :=
            Js.sort (λ a b, ps_timestamp b - ps_timestamp a)
                    (List.filter is_full (snapshots d)) in
          do degraded <- firstUsable availableFull;
          match degraded with
          | Some snapshot => ret snapshot
          | None => throw "no usable full snapshot"
          end
      end;
    extendChain (countup (ps_saveNumber lastFullSnapshot + 1) targetSaveNumber)
                [lastFullSnapshot].

(** ** Restoring *)

(** [restoreProjectManually] *)
Definition restoreProjectManually (e : Env) (snapshotDir : option dir)
  (isFullRestore : bool) : M State unit :=
  (if isFullRestore then
     modify (set_project (List.filter (λ item, String.eqb item.1 ".CodeRecoder")))
   else ret tt) ;;
  copyDirectoryRecursive e (Dir <$> snapshotDir) InProject [] [].

(** The mirror of a full snapshot into the project root: [rsync]
    without [--delete], else the in-process copy without the cleaning
    pass. *)
Definition mirrorBack (e : Env) (id : string) : M State unit :=
  do snapshotDir <- gets (λ st, snapshotDirs st !! id);
  try_catch
    (rsync e {| rs_delete := false; rs_excludes := [".CodeRecoder"] |}
           snapshotDir InProject)
    (λ _, restoreProjectManually e snapshotDir false).

(** One changed file of an incremental snapshot copied back; a path
    that leaves the snapshot directory names nothing in this model. *)
Definition copyBack (e : Env) (id file : string) : M State unit :=
  try_catch
    (do snapshotDir <- gets (λ st, snapshotDirs st !! id);
     match Path.components file with
     | None => ret tt
     | Some p =>
         match snapshotDir ≫= (λ d, Tree.get d p) with
         | None => ret tt
         | Some source =>
             mkdir InProject (removelast p) ;;
             match source with
             | File c _ => putFile InProject p (File c (now e))
             | Dir _ => throw "EISDIR"
             end
         end
     end)
    (λ _, ret tt).

(** The body of the loop over the restore chain. *)
Definition restoreChainElement (e : Env) (chainSnapshot : ProjectSnapshot)
  : M State unit :=
  if is_full chainSnapshot then
    do snapshotFiles <- getSnapshotFileList (ps_id chainSnapshot);
    if negb (nonempty snapshotFiles) then throw "snapshot is empty"
    else mirrorBack e (ps_id chainSnapshot)
  else
    for_each (ps_changedFiles chainSnapshot) (copyBack e (ps_id chainSnapshot)).

(** [restoreProjectSnapshot] *)
Definition restoreProjectSnapshot (e : Env) (snapshotId : string) : M State Response :=
  try_catch
    (do d <- gets data;
     match Js.find (λ s, String.eqb (ps_id s) snapshotId) (snapshots d) with
     | None => ret (failure "snapshot does not exist")
     | Some snapshot =>
         let done :=
           {| success := true; message := "project snapshot restored";
              payload := Restored (ps_id snapshot) (ps_saveNumber snapshot)
                           (ps_type snapshot) (ps_changedFiles snapshot) |} in
         if is_full snapshot then
           do snapshotFiles <- getSnapshotFileList (ps_id snapshot);
           if negb (nonempty snapshotFiles) then ret (failure "snapshot is empty")
           else mirrorBack e (ps_id snapshot) ;; ret done
         else
           do restoreChain <- buildRestoreChain snapshot;
           for_each restoreChain (restoreChainElement e) ;;
           ret done
     end)
    (λ _, ret (failure "project snapshot restore failed")).

(** A manager bound to a cache directory, before its first snapshot. *)
Definition bound (cache : string) (tree : dir) : State :=
  let d := with_projectRoot (Path.dirname cache) initialData in
  {| cacheDirectory := cache; data := d; project := tree;
     snapshotDirs := ∅; indexFile := Some d; storeWritable := true |}.

(** ** The change detector in the words of the specification *)

(** Try the layers in order: the first that yields a non-empty set wins,
    and the layers after it are not run. *)
Fixpoint firstNonEmpty (layers : list (M State (list string))) : M State (list string) :=
  match layers with
  | [] => ret []
  | layer :: later =>
      do found <- layer;
      if nonempty found then ret found else firstNonEmpty later
  end.

(** VCS status, hash comparison against the baseline, stat comparison,
    recently-modified fallback. *)
Definition detectorLayers (e : Env) (root : string) : list (M State (list string)) :=
  [getGitModifiedFiles e root;
   getFilesByHashComparison root;
   getFilesByStatsComparison root;
   getRecentlyModifiedFiles e root hour].

(** The result of the first layer that yields something, with
    [lastScanTime] set to now whatever the outcome. *)
Definition changeDetectorSpec (e : Env) (root : string) : M State (list string) :=
  do found <- firstNonEmpty (detectorLayers e root);
  touchScanTime e ;;
  ret found.

End WithHost.

(** ** Listing the snapshots *)

(** [getTimeSince], [now] being what [Date.now()] answers. *)
Definition getTimeSince (now timestamp : Z) : string :=
  let diff := now - timestamp in
  let minutes := diff / (1000 * 60) in
  let hours := diff / (1000 * 60 * 60) in
  let days := diff / (1000 * 60 * 60 * 24) in
  if 0 <? days then pretty days +:+ "天前"
  else if 0 <? hours then pretty hours +:+ "小时前"
  else if 0 <? minutes then pretty minutes +:+ "分钟前"
  else "刚刚".

(** [getSnapshotDependencies] *)
Definition getSnapshotDependencies (d : ProjectSnapshotData) (snapshot : ProjectSnapshot)
  : list string :=
  if bool_decide (ps_type snapshot = full) then []
  else
    match head (Js.sort (λ a b, ps_saveNumber b - ps_saveNumber a)
                  (List.filter (λ s, bool_decide (ps_type s = full)
                                     && (ps_saveNumber s <? ps_saveNumber snapshot))
                               (snapshots d))) with
    | Some lastFullSnapshot =>
        let incrementalSnapshots :=
          Js.sort (λ a b, ps_saveNumber a - ps_saveNumber b)
            (List.filter (λ s, bool_decide (ps_type s = incremental)
                               && (ps_saveNumber lastFullSnapshot <? ps_saveNumber s)
                               && (ps_saveNumber s <? ps_saveNumber snapshot))
                         (snapshots d)) in
        ps_id lastFullSnapshot :: (ps_id <$> incrementalSnapshots)
    | None => []
    end.

Record SnapshotSummary := {
  sm_total : nat;
  sm_full : nat;
  sm_incremental : nat;
  sm_currentSave : Z;
  sm_lastFullSave : Z
}.

(** [getSnapshotSummary] *)
Definition getSnapshotSummary (d : ProjectSnapshotData) : SnapshotSummary :=
  {| sm_total := length (snapshots d);
     sm_full := length (List.filter (λ s, bool_decide (ps_type s = full)) (snapshots d));
     sm_incremental :=
       length (List.filter (λ s, bool_decide (ps_type s = incremental)) (snapshots d));
     sm_currentSave := currentSaveNumber d;
     sm_lastFullSave := lastFullSaveNumber d |}.

(** A snapshot as [listProjectSnapshots] shows it; [getSnapshotSizeInfo]
    answers the same two place holders for every snapshot. *)
Record ListedSnapshot := {
  ls_snapshot : ProjectSnapshot;
  ls_displayTime : string;
  ls_timeSince : string;
  ls_estimatedSize : string;
  ls_fileCount : string;
  ls_dependencies : list string
}.

Record Listing := {
  li_snapshots : list ListedSnapshot;
  li_currentSaveNumber : Z;
  li_lastFullSaveNumber : Z;
  li_projectRoot : string;
  li_summary : SnapshotSummary
}.

Record ListResponse := {
  lr_success : bool;
  lr_message : string;
  lr_data : option Listing
}.

(** [listProjectSnapshots]; [toLocaleString] stands for
    [new Date(t).toLocaleString('zh-CN')], which depends on the time zone
    of the machine. *)
Definition listProjectSnapshots (now : Z) (toLocaleString : Z → string)
  : M State ListResponse :=
  try_catch
    (do d <- gets data;
     let sortedSnapshots :=
       Js.sort (λ a b, ps_saveNumber b - ps_saveNumber a) (snapshots d) in
     let enhancedSnapshots :=
       (λ snapshot,
          {| ls_snapshot := snapshot;
             ls_displayTime := toLocaleString (ps_timestamp snapshot);
             ls_timeSince := getTimeSince now (ps_timestamp snapshot);
             ls_estimatedSize := "未知";
             ls_fileCount := "计算中...";
             ls_dependencies := getSnapshotDependencies d snapshot |})
       <$> sortedSnapshots in
     ret {| lr_success := true;
            lr_message := "找到 " +:+ pretty (length (snapshots d)) +:+ " 个项目快照";
            lr_data := Some {| li_snapshots := enhancedSnapshots;
                               li_currentSaveNumber := currentSaveNumber d;
                               li_lastFullSaveNumber := lastFullSaveNumber d;
                               li_projectRoot := projectRoot d;
                               li_summary := getSnapshotSummary d |} |})
    (λ error, ret {| lr_success := false;
                     lr_message := "获取快照列表失败: " +:+ error;
                     lr_data := None |}).

(** ** Vocabulary of the properties *)

(** Nothing but the project tree differs between two states: the manager's
    data, the index document, the snapshot directories are the same. *)
Definition sameStore (s s' : State) : Prop :=
  cacheDirectory s' = cacheDirectory s ∧
  data s' = data s ∧
  snapshotDirs s' = snapshotDirs s ∧
  indexFile s' = indexFile s ∧
  storeWritable s' = storeWritable s.

(** Two states differ at most in the file baselines, in [lastScanTime]
    and in the index document: what change detection may touch. *)
Definition detectionOnly (s s' : State) : Prop :=
  cacheDirectory s' = cacheDirectory s ∧
  project s' = project s ∧
  snapshotDirs s' = snapshotDirs s ∧
  storeWritable s' = storeWritable s ∧
  projectRoot (data s') = projectRoot (data s) ∧
  currentSaveNumber (data s') = currentSaveNumber (data s) ∧
  lastFullSaveNumber (data s') = lastFullSaveNumber (data s) ∧
  fullSaveInterval (data s') = fullSaveInterval (data s) ∧
  snapshots (data s') = snapshots (data s) ∧
  maxSnapshots (data s') = maxSnapshots (data s) ∧
  autoCleanup (data s') = autoCleanup (data s).

(** Two states differ at most in the project tree and in the snapshot
    directories: what copying files may touch. *)
Definition sameData (s s' : State) : Prop :=
  cacheDirectory s' = cacheDirectory s ∧
  data s' = data s ∧
  indexFile s' = indexFile s ∧
  storeWritable s' = storeWritable s.

(** What retention keeps of a snapshot list. *)
Definition retained (cap : Z) (l : list ProjectSnapshot) : list ProjectSnapshot :=
  if Z.of_nat (length l) <=? cap then l
  else Js.slice (Js.sort (λ a b, ps_timestamp b - ps_timestamp a) l) 0 cap.

(** The kind [createProjectSnapshot] picks when called on [st]: the test of
    [shouldDoFullSave] on the counter it has just incremented. *)
Definition kindAt (st : State) : SnapshotType :=
  if shouldDoFullSave (with_currentSaveNumber (currentSaveNumber (data st) + 1) (data st))
  then full else incremental.

(** The snapshot list of [st] once [snapshot] has been pushed and, when
    [autoCleanup] is set, retention has run. *)
Definition appended (st : State) (snapshot : ProjectSnapshot) : list ProjectSnapshot :=
  if autoCleanup (data st)
  then retained (maxSnapshots (data st)) (snapshots (data st) ++ [snapshot])
  else snapshots (data st) ++ [snapshot].

(** The directory of snapshot [s] holds a file: what the planner asks of a
    full snapshot before it builds on it. *)
Definition usable (st : State) (s : ProjectSnapshot) : bool :=
  nonempty (match snapshotDirs st !! ps_id s with
            | Some d => walkSnapshot (Dir d) ""
            | None => []
            end).

Definition usableFull (st : State) (s : ProjectSnapshot) : bool :=
  is_full s && usable st s.

(** *** Histories of a store *)

(** What happens to a store between two observations: a call of
    [createProjectSnapshot], a run of [cleanupOldSnapshots], an edit of the
    project by its user, the store directory becoming writable or not (a
    call made while it is not fails). *)
Inductive Event :=
| Create (e : Env) (root prompt : string)
| Cleanup
| Edit (tree : dir)
| Writable (b : bool).

Definition step (h : Host) (ev : Event) (st : State) : State :=
  match ev with
  | Create e root prompt => (createProjectSnapshot h e root prompt st).2
  | Cleanup => (cleanupOldSnapshots st).2
  | Edit tree => set_project (λ _, tree) st
  | Writable b => set_storeWritable b st
  end.

Fixpoint run (h : Host) (events : list Event) (st : State) : State :=
  match events with
  | [] => st
  | ev :: later => run h later (step h ev st)
  end.

(** The clock of the calls never goes back: each call reads a [now] that
    is at least the one of the call before, [t] being the last reading. *)
Fixpoint clockOrdered (t : Z) (events : list Event) : Prop :=
  match events with
  | [] => True
  | Create e _ _ :: later => t ≤ now e ∧ clockOrdered (now e) later
  | _ :: later => clockOrdered t later
  end.

(** The save numbers held by a store. *)
Definition held (st : State) : list Z := ps_saveNumber <$> snapshots (data st).

(** Snapshots numbered within [1..current], no number twice, none stamped
    after [t], and a larger number never stamped earlier. *)
Definition wellNumbered (current t : Z) (l : list ProjectSnapshot) : Prop :=
  NoDup (ps_saveNumber <$> l) ∧
  (∀ s, s ∈ l → 1 ≤ ps_saveNumber s ≤ current) ∧
  (∀ s, s ∈ l → ps_timestamp s ≤ t) ∧
  (∀ a b, a ∈ l → b ∈ l → ps_saveNumber a < ps_saveNumber b →
          ps_timestamp a ≤ ps_timestamp b).

(** [n] calls in a row, one edit before each, the clock advancing by one
    between them: call [i] is made at [t + i] and draws the uuid [pretty i]. *)
Fixpoint calls (root : string) (t : Z) (i : nat) (n : nat) : list Event :=
  match n with
  | O => []
  | S n' =>
      Edit [("a.txt", File (pretty i) (t + Z.of_nat i))]
      :: Create {| now := t + Z.of_nat i; gitStatus := None; rsyncInstalled := false;
                   uuid := pretty i |} root "edit"
      :: calls root t (S i) n'
  end.


(** The snapshots a restore of [snapshotId] applies, in order: the
    snapshot itself when it is full, else the chain the planner builds
    for it (none when the planner gives up). *)
Definition restorePlan (st : State) (snapshotId : string) : list ProjectSnapshot :=
  match Js.find (λ s, String.eqb (ps_id s) snapshotId) (snapshots (data st)) with
  | None => []
  | Some snapshot =>
      if is_full snapshot then [snapshot]
      else match buildRestoreChain snapshot st with
           | (Ok chain, _) => chain
           | (Throw _, _) => []
           end
  end.

(** From a state with the snapshot directories of [st0], a step changes
    nothing but the project tree and leaves the regular file at [p], if
    there is one, as it is. *)
Definition keepsFile (st0 : State) (p : list string) (s s' : State) : Prop :=
  snapshotDirs s = snapshotDirs st0 →
  sameStore s s' ∧
  ∀ c m, Tree.get (project s) p = Some (File c m) →
         Tree.get (project s') p = Some (File c m).

(** The tree a write to [pl] lands in. *)
Definition placeDir (pl : Place) (st : State) : option dir :=
  match pl with
  | InProject => Some (project st)
  | InSnapshot id => snapshotDirs st !! id
  end.

(** The regular file at [p] below [pl], if there is one, is left as it
    is. *)
Definition keepsAt (pl : Place) (p : list string) (s s' : State) : Prop :=
  ∀ c m, placeDir pl s ≫= (λ d, Tree.get d p) = Some (File c m) →
         placeDir pl s' ≫= (λ d, Tree.get d p) = Some (File c m).

(** Nothing but the directory of snapshot [id] differs between two
    states. *)
Definition onlySnapshot (id : string) (s s' : State) : Prop :=
  cacheDirectory s' = cacheDirectory s ∧
  data s' = data s ∧
  project s' = project s ∧
  indexFile s' = indexFile s ∧
  storeWritable s' = storeWritable s ∧
  ∀ id', id' ≠ id → snapshotDirs s' !! id' = snapshotDirs s !! id'.



(** The tree at [pl], if there is one, lists no name twice. *)
Definition wellFormedAt (pl : Place) (st : State) : Prop :=
  ∀ d, placeDir pl st = Some d → Tree.wellFormed (Dir d) = true.

Definition staysWellFormed (pl : Place) (s s' : State) : Prop :=
  wellFormedAt pl s → wellFormedAt pl s'.

(** What retention drops of a snapshot list. *)
Definition droppedBy (cap : Z) (l : list ProjectSnapshot) : list ProjectSnapshot :=
  if Z.of_nat (length l) <=? cap then []
  else Js.slice_to_end (Js.sort (λ a b, ps_timestamp b - ps_timestamp a) l) cap.

(** The snapshots [createProjectSnapshot] drops when called on [st] and
    recording [snapshot]. *)
Definition dropped (st : State) (snapshot : ProjectSnapshot) : list ProjectSnapshot :=
  if autoCleanup (data st)
  then droppedBy (maxSnapshots (data st)) (snapshots (data st) ++ [snapshot])
  else [].

(** The store is as writable as it was, and while it is not writable the
    index document stays as it is. *)
Definition indexKept (s s' : State) : Prop :=
  storeWritable s' = storeWritable s ∧
  (storeWritable s = false → indexFile s' = indexFile s).

(** A regular file cannot be written at [p]: a regular file lies on the
    way to [p], or a directory is in its place. *)
Definition blocked (d : dir) (p : list string) : Prop :=
  (∃ r, r `prefix_of` p ∧ r ≠ p ∧ is_file (get d r) = true) ∨ is_dir (get d p) = true.

(** The directory [d] of an incremental snapshot in the making holds
    nothing but copies, stamped [t], of regular files of the project [tree],
    and directories on the way to one of [paths]. *)
Definition sparse (tree : dir) (t : Z) (paths : list (list string)) (d : dir) : Prop :=
  (∀ r c m, Tree.get d r = Some (File c m) →
            m = t ∧ ∃ m0, Tree.get tree r = Some (File c m0)) ∧
  (∀ r, Tree.is_dir (Tree.get d r) = true →
        r = [] ∨ ∃ q, q ∈ paths ∧ r `prefix_of` removelast q).

End ProjectStore.

(* ===================================================================== *)
(** * Concrete stores used as inputs below *)
(* ===================================================================== *)

Module FileStoreExamples.
Import FileStore.

(** The index document, cut down to the ids it lists. *)
Definition stringifyIds (d : SnapshotData) : string :=
  "{sessions:[" +:+
  Js.join "," ((λ s, sess_id s +:+ ":[" +:+ Js.join "," (snap_id <$> sess_snapshots s) +:+ "]")
                 <$> sessions d) +:+
  "]}".

(** A host: the digest and the parser play no part in the statements
    below. *)
Definition host : Host :=
  {| cwd := "/work"; dirSize := 4096; sha256 := λ bytes, bytes;
     stringify := stringifyIds; parse := λ _, None;
     stringifyMeta := λ x, "{id:" +:+ snap_id x +:+ "}" |}.

Definition disk0 : gmap string string :=
  <["/etc/passwd" := "root:x:0:0"]> (<["/proj/a.txt" := "A"]> ∅).

(** [new FileSnapshotManager("/proj/.CodeRecoder")] *)
Definition fresh : State := construct host (Some "/proj/.CodeRecoder") disk0.

Definition env1 : Env :=
  {| now := 1000; uuidSession := "sess1"; uuidSnapshot := "snap1" |}.

(** The store after [createSnapshot("/proj/a.txt", "x")]. *)
Definition withSnapshot : State :=
  (createSnapshot host env1 "/proj/a.txt" "x" None None fresh).2.

Definition indexPath : string := "/proj/.CodeRecoder/snapshots/snapshots.json".

(** The store after a snapshot of its own index document was taken. *)
Definition withIndexSnapshot : State :=
  (createSnapshot host env1 indexPath "x" None None fresh).2.

(** The store of [withSnapshot] after the user has rewritten the file. *)
Definition edited : State := set_disk (insert "/proj/a.txt" "B") withSnapshot.

(** The record [createSnapshot] made for ["/proj/a.txt"]. *)
Definition snapA : FileSnapshot :=
  {| snap_id := "snap1"; snap_timestamp := 1000;
     snap_originalPath := "/proj/a.txt";
     snap_snapshotPath := "/proj/.CodeRecoder/snapshots/files/snap1/a.txt";
     snap_fileSize := 1; snap_fileHash := "A"; snap_prompt := "x";
     snap_sessionId := "sess1"; snap_parentSnapshotId := None;
     snap_aiSummary := Some "x" |}.

(** The record [createSnapshot] made for the index document. *)
Definition snapIndex : FileSnapshot :=
  {| snap_id := "snap1"; snap_timestamp := 1000;
     snap_originalPath := indexPath;
     snap_snapshotPath := "/proj/.CodeRecoder/snapshots/files/snap1/snapshots.json";
     snap_fileSize := 21; snap_fileHash := "{sessions:[sess1:[]]}"; snap_prompt := "x";
     snap_sessionId := "sess1"; snap_parentSnapshotId := None;
     snap_aiSummary := Some "x" |}.

(** The response of a call, a failure standing for a rejected promise. *)
Definition response (r : Res SnapshotResponse) : SnapshotResponse :=
  match r with
  | Ok resp => resp
  | Throw e => failure e
  end.

Definition env2 : Env :=
  {| now := 2000; uuidSession := "sess2"; uuidSnapshot := "snap2" |}.

(** The store after [createSnapshot("/etc/passwd", "x")]: taking the
    snapshot is not guarded. *)
Definition withSystemSnapshot : State :=
  (createSnapshot host env1 "/etc/passwd" "x" None None fresh).2.

(** The record [createSnapshot] made for ["/etc/passwd"]. *)
Definition snapPasswd : FileSnapshot :=
  {| snap_id := "snap1"; snap_timestamp := 1000;
     snap_originalPath := "/etc/passwd";
     snap_snapshotPath := "/proj/.CodeRecoder/snapshots/files/snap1/passwd";
     snap_fileSize := 10; snap_fileHash := "root:x:0:0"; snap_prompt := "x";
     snap_sessionId := "sess1"; snap_parentSnapshotId := None;
     snap_aiSummary := Some "x" |}.

(** The store of [withSnapshot] after a second snapshot of the file. *)
Definition withTwoSnapshots : State :=
  (createSnapshot host env2 "/proj/a.txt" "y" None None withSnapshot).2.


(** The store of [withSnapshot], moved to the cache directory of another
    project. *)
Definition moved : State :=
  (updateCacheDirectory host "/other/.CodeRecoder" withSnapshot).2.


End FileStoreExamples.

Module ProjectStoreExamples.
Import Tree ProjectStore.

(** A host: the digest is the identity, the metadata file is empty JSON. *)
Definition host : Host :=
  {| cwd := "/work"; sha256 := λ bytes, bytes; stringifySnapshot := λ _, "{}" |}.

(** A call at time [t] that draws the uuid [id], on a machine without [git]
    and without [rsync]. *)
Definition env (t : Z) (id : string) : Env :=
  {| now := t; gitStatus := None; rsyncInstalled := false; uuid := id |}.

Definition day : Z := 24 * hour.

(** The response of a call, a failure standing for a rejected promise. *)
Definition response (r : Res Response) : Response :=
  match r with
  | Ok resp => resp
  | Throw e => failure e
  end.

(** Scenario 1 of the specification: a project with one file, snapshot
    ["s1"], an edit, snapshot ["s2"]. *)
Definition fresh : State := bound "/proj/.CodeRecoder" [("a.txt", File "hello" 5)].

Definition afterInit : State :=
  (createProjectSnapshot host (env (10 * day) "s1") "/proj" "init" fresh).2.

Definition edited : State :=
  set_project (λ _, [("a.txt", File "world" (10 * day + 5))]) afterInit.

Definition afterEdit : State :=
  (createProjectSnapshot host (env (10 * day + 10) "s2") "/proj" "edit" edited).2.


(** A project whose only file no layer of the detector and no forced
    analysis reports (the directory walk skips [.tmp]), though a full copy
    takes it: snapshot ["s1"], then a second call without any edit. *)
Definition scratchOnly : State := bound "/proj/.CodeRecoder" [("notes.tmp", File "x" 5)].

Definition scratchInit : State :=
  (createProjectSnapshot host (env (10 * day) "s1") "/proj" "init" scratchOnly).2.

Definition forced : Res Response * State :=
  createProjectSnapshot host (env (10 * day + 1) "s2") "/proj" "again" scratchInit.

(** A history with a failing call: the store directory is not writable
    while the second call is made. *)
Definition gapHistory : list Event :=
  [Create (env (10 * day) "s1") "/proj" "init";
   Writable false;
   Create (env (10 * day + 1) "s2") "/proj" "again";
   Writable true;
   Create (env (10 * day + 2) "s3") "/proj" "more"].

(** One call more than the default retention cap of a hundred. *)
Definition longHistory : list Event := calls "/proj" (10 * day) 1 101.

(** The two snapshots of scenario 1, as the store records them. *)
Definition firstSnapshot : ProjectSnapshot :=
  {| ps_id := "s1"; ps_timestamp := 10 * day; ps_saveNumber := 1; ps_type := full;
     ps_changedFiles := ["*"]; ps_prompt := "init"; ps_modifiedFiles := ["a.txt"];
     ps_totalFiles := 1; ps_projectRoot := "/proj"; ps_actualFileCount := Some 1%nat |}.

Definition secondSnapshot : ProjectSnapshot :=
  {| ps_id := "s2"; ps_timestamp := 10 * day + 10; ps_saveNumber := 2;
     ps_type := incremental; ps_changedFiles := ["a.txt"]; ps_prompt := "edit";
     ps_modifiedFiles := ["a.txt"]; ps_totalFiles := 1; ps_projectRoot := "/proj";
     ps_actualFileCount := Some 1%nat |}.

(** A project that holds nothing but a log when its first snapshot is
    taken (a full copy leaves logs out, so the directory of snapshot 1 holds
    no file); ten more calls follow, the last of which, number 11, is full
    again. *)
Definition logsOnly : State := bound "/proj/.CodeRecoder" [("debug.log", File "boot" 5)].

Definition degradedHistory : list Event :=
  Create (env (10 * day) "1") "/proj" "init" :: calls "/proj" (10 * day) 2 10.

Definition degraded : State := run host degradedHistory logsOnly.




(** Scenario 1, later: the user has spoilt the file. *)
Definition spoilt : State :=
  set_project (λ _, [("a.txt", File "oops" (10 * day + 20))]) afterEdit.

End ProjectStoreExamples.

(* ===================================================================== *)
(** * Facts about computations *)
(* ===================================================================== *)

Section MonadFacts.
Context {S : Type}.

Lemma bind_ok_inv {A B} (m : M S A) (k : A → M S B) s b s' :
  bind m k s = (Ok b, s') → ∃ a s1, m s = (Ok a, s1) ∧ k a s1 = (Ok b, s').
Proof.
  unfold bind. destruct (m s) as [[a|e] s1]; intros H; [eauto | discriminate].
Qed.

Lemma bind_inv {A B} (m : M S A) (k : A → M S B) s r s' :
  bind m k s = (r, s') →
  (∃ a s1, m s = (Ok a, s1) ∧ k a s1 = (r, s')) ∨ (∃ e, m s = (Throw e, s') ∧ r = Throw e).
Proof.
  unfold bind. destruct (m s) as [[a|e] s1]; intros H.
  - left. eauto.
  - right. exists e. by inversion H.
Qed.

Lemma try_catch_inv {A} (m : M S A) (hd : string → M S A) s r s' :
  try_catch m hd s = (r, s') →
  (∃ a, m s = (Ok a, s') ∧ r = Ok a) ∨ (∃ e s1, m s = (Throw e, s1) ∧ hd e s1 = (r, s')).
Proof.
  unfold try_catch. destruct (m s) as [[a|e] s1]; intros H.
  - left. exists a. by inversion H.
  - right. eauto.
Qed.

Lemma for_each_cons {A} (x : A) (l : list A) (body : A → M S unit) :
  for_each (x :: l) body = bind (body x) (λ _, for_each l body).
Proof. reflexivity. Qed.

Section Preserves.
Context (R : S → S → Prop) `{!Reflexive R, !Transitive R}.

Lemma preserves_ret {A} (a : A) : preserves R (ret a).
Proof. intros s r s' [= _ <-]. reflexivity. Qed.

Lemma preserves_throw {A} e : preserves R (throw (A:=A) e).
Proof. intros s r s' [= _ <-]. reflexivity. Qed.

Lemma preserves_gets {A} (f : S → A) : preserves R (gets f).
Proof. intros s r s' [= _ <-]. reflexivity. Qed.

Lemma preserves_modify (f : S → S) : (∀ s, R s (f s)) → preserves R (modify f).
Proof. intros Hf s r s' [= _ <-]. apply Hf. Qed.

Lemma preserves_bind {A B} (m : M S A) (k : A → M S B) :
  preserves R m → (∀ a, preserves R (k a)) → preserves R (bind m k).
Proof.
  intros Hm Hk s r s' H.
  apply bind_inv in H as [(a & s1 & H1 & H2)|(e & H1 & _)].
  - etrans; [eapply Hm|eapply Hk]; eauto.
  - eapply Hm; eauto.
Qed.

Lemma preserves_try_catch {A} (m : M S A) (hd : string → M S A) :
  preserves R m → (∀ e, preserves R (hd e)) → preserves R (try_catch m hd).
Proof.
  intros Hm Hh s r s' H.
  apply try_catch_inv in H as [(a & H1 & _)|(e & s1 & H1 & H2)].
  - eapply Hm; eauto.
  - etrans; [eapply Hm|eapply Hh]; eauto.
Qed.

Lemma preserves_for_each_in {A} (l : list A) (body : A → M S unit) :
  (∀ x, x ∈ l → preserves R (body x)) → preserves R (for_each l body).
Proof.
  induction l as [|x l IH]; intros Hbody.
  - apply preserves_ret.
  - rewrite for_each_cons. apply preserves_bind.
    + apply Hbody. left.
    + intros _. apply IH. intros y Hy. apply Hbody. by right.
Qed.

Lemma preserves_for_each {A} (l : list A) (body : A → M S unit) :
  (∀ x, preserves R (body x)) → preserves R (for_each l body).
Proof. intros Hbody. apply preserves_for_each_in. auto. Qed.

End Preserves.

End MonadFacts.

#[global] Arguments bind {S A B} m k : simpl never.
#[global] Arguments ret {S A} a : simpl never.
#[global] Arguments throw {S A} e : simpl never.
#[global] Arguments gets {S A} f : simpl never.
#[global] Arguments modify {S} f : simpl never.
#[global] Arguments try_catch {S A} m h : simpl never.
#[global] Arguments for_each {S A} l body : simpl never.

(* ===================================================================== *)
(** * The file snapshot store: properties *)
(* ===================================================================== *)

Module FileStoreSpec.
Import FileStore FileStoreExamples.

(** ** C1: the guard and [createSnapshot] *)

(** C1 (code bug).  The guard rejects ["/etc/passwd"], yet
    [createSnapshot] never asks it: on a store that can read the file the
    call succeeds, the index gains an entry for it and a copy appears
    under [snapshots/files/].  [restoreSnapshot], which does ask the
    guard, later refuses this very snapshot. *)
Theorem C1_createSnapshot_does_not_ask_the_guard :
  let created := createSnapshot host env1 "/etc/passwd" "x" None None fresh in
  valid (validatePath host "/etc/passwd" None) = false ∧
  success (response created.1) = true ∧
  (snap_originalPath <$> (sessions (data created.2) ≫= sess_snapshots))
    = ["/etc/passwd"] ∧
  disk created.2 !! "/proj/.CodeRecoder/snapshots/files/snap1/passwd"
    = Some "root:x:0:0" ∧
  message (response (restoreSnapshot host 2000 "snap1" created.2).1)
    = "Path validation failed".
Proof.
  split_and!; vm_compute; reflexivity.
Qed.

(** ** C6: [deleteSnapshot] *)

(** C6 (code bug).  A manager built on a cache directory keeps snapshot
    [id] in [<cache>/snapshots/files/<id>/], but [deleteSnapshot] removes
    [<cache>/snapshots/<id>/]: the call reports success, the index entry
    is gone and the session pointer is cleared, and the stored copy and
    its metadata are still on disk. *)
Theorem C6_deleteSnapshot_leaves_the_directory :
  let deleted := deleteSnapshot host 2000 "snap1" withSnapshot in
  snapshotsDirectory withSnapshot = "/proj/.CodeRecoder/snapshots/files" ∧
  disk withSnapshot !! "/proj/.CodeRecoder/snapshots/files/snap1/a.txt" = Some "A" ∧
  success (response deleted.1) = true ∧
  (sessions (data deleted.2) ≫= sess_snapshots) = [] ∧
  (sess_currentSnapshotId <$> sessions (data deleted.2)) = [None] ∧
  disk deleted.2 !! "/proj/.CodeRecoder/snapshots/files/snap1/a.txt" = Some "A" ∧
  disk deleted.2 !! "/proj/.CodeRecoder/snapshots/files/snap1/metadata.json"
    = Some "{id:snap1}".
Proof.
  split_and!; vm_compute; reflexivity.
Qed.

(** ** C8: [restoreSnapshot] *)

Section Restore.
Context (h : Host).

Lemma copy_keeps_manager src dst st r st' :
  copy h src dst st = (r, st') →
  cacheDirectory st' = cacheDirectory st ∧ data st' = data st.
Proof.
  unfold copy. intros H. repeat case_match; by inversion H.
Qed.

Lemma copy_file_inv src dst st u st' c :
  copy h src dst st = (Ok u, st') →
  disk st !! key h src = Some c →
  key h src ≠ key h dst ∧ disk st' = <[key h dst := c]> (disk st).
Proof.
  unfold copy. intros H Hc.
  destruct (String.eqb (key h src) (key h dst)) eqn:E; [discriminate|].
  apply String.eqb_neq in E. split; [done|].
  rewrite Hc in H.
  destruct (is_directory (disk st) (key h dst)); [discriminate|]. by inversion H.
Qed.

Lemma saveData_disk st r st' k :
  saveData h st = (r, st') → k ≠ indexKey h st → disk st' !! k = disk st !! k.
Proof.
  unfold saveData, bind, gets, writeFile. simpl. intros H Hk.
  destruct (is_directory _ _); inversion H; subst; [done|].
  simpl. by rewrite lookup_insert_ne.
Qed.

(** The backup step of [restoreSnapshot], when it does not throw and
    the destination is not a directory. *)
Lemma backup_step orig backupPath st u st1 :
  is_directory (disk st) (key h orig) = false →
  (if bool_decide (is_Some (disk st !! key h orig)) || is_directory (disk st) (key h orig)
   then copy h orig backupPath else ret tt) st = (Ok u, st1) →
  cacheDirectory st1 = cacheDirectory st ∧
  match disk st !! key h orig with
  | Some prior => key h orig ≠ key h backupPath ∧
                  disk st1 = <[key h backupPath := prior]> (disk st)
  | None => st1 = st
  end.
Proof.
  intros Hdir H. rewrite Hdir in H.
  destruct (disk st !! key h orig) as [prior|] eqn:Hprior.
  - rewrite bool_decide_eq_true_2 in H by eauto. simpl in H.
    split; [by eapply copy_keeps_manager|]. by eapply copy_file_inv.
  - rewrite bool_decide_eq_false_2 in H by (by intros [? ?]). simpl in H.
    by inversion H.
Qed.

(** C8 (amended).  Take a restore call that reports success, on a snapshot
    whose stored copy is a regular file and whose destination is not a
    directory, none of the stored path, the destination and the backup path
    being the store's own index document.  Then the stored copy passed the
    size check and the destination passed the guard; if the destination
    existed, its prior bytes are in [<original_path>.backup.<now_ms>]; and
    after the call the destination holds the bytes of the stored copy. *)
Theorem C8_restoreSnapshot_backs_up_then_overwrites t id st si j snap stored resp st' :
  let ko := key h (snap_originalPath snap) in
  let ks := key h (snap_snapshotPath snap) in
  let kb := key h (snap_originalPath snap +:+ ".backup." +:+ pretty t) in
  locate id (sessions (data st)) O = Some (si, j, snap) →
  disk st !! ks = Some stored →
  is_directory (disk st) ko = false →
  indexKey h st ≠ ko → indexKey h st ≠ kb → indexKey h st ≠ ks →
  restoreSnapshot h t id st = (Ok resp, st') →
  success resp = true →
  Z.of_nat (String.length stored) = snap_fileSize snap ∧
  valid (validatePath h (snap_originalPath snap) None) = true ∧
  (∀ prior, disk st !! ko = Some prior → disk st' !! kb = Some prior) ∧
  disk st' !! ko = disk st' !! ks ∧
  is_Some (disk st' !! ko) ∧
  (kb ≠ ks → disk st' !! ko = Some stored).
Proof.
  intros ko ks kb Hloc Hstored Hdir Hio Hib His Hrun Hok.
  apply try_catch_inv in Hrun as [(a & Hrun & [= ->])|(e & s1 & _ & Hh)];
    [|inversion Hh; subst; discriminate].
  apply bind_ok_inv in Hrun as (d & s1 & [= <- <-] & Hrun).
  rewrite Hloc in Hrun.
  apply bind_ok_inv in Hrun as (b1 & s1 & [= <- <-] & Hrun).
  destruct (negb _); [inversion Hrun; subst; discriminate|].
  apply bind_ok_inv in Hrun as (size & s1 & Hsize & Hrun).
  unfold statSize in Hsize. fold ks in Hsize. rewrite Hstored in Hsize.
  injection Hsize as <- <-.
  destruct (Z.of_nat (String.length stored) =? snap_fileSize snap) eqn:Hsz;
    [|inversion Hrun; subst; discriminate].
  apply Z.eqb_eq in Hsz. simpl in Hrun.
  destruct (valid (validatePath h (snap_originalPath snap) None)) eqn:Hguard;
    [|inversion Hrun; subst; discriminate].
  simpl in Hrun.
  apply bind_ok_inv in Hrun as (present & s1 & [= <- <-] & Hrun).
  apply bind_ok_inv in Hrun as (u1 & s1 & Hbackup & Hrun).
  apply bind_ok_inv in Hrun as (u2 & s2 & Hensure & Hrun).
  assert (s2 = s1) as ->.
  { unfold ensureDir in Hensure. repeat case_match; by inversion Hensure. }
  apply bind_ok_inv in Hrun as (u3 & s3 & Hcopy & Hrun).
  apply bind_ok_inv in Hrun as (u4 & s4 & [= _ <-] & Hrun).
  apply bind_ok_inv in Hrun as (u5 & s5 & Hsave & Hrun).
  apply bind_ok_inv in Hrun as (b2 & s6 & [= _ <-] & [= _ <-]).
  apply backup_step in Hbackup as [Hc1 Hb]; [|done].
  pose proof (copy_keeps_manager _ _ _ _ _ Hcopy) as [Hc3 _].
  assert (Hidx : indexKey h (set_data (set_sessions (alter (set_current (Some id)) si)) s3)
                 = indexKey h st).
  { unfold indexKey. simpl. by rewrite Hc3, Hc1. }
  assert (Hfinal : ∀ k, k ≠ indexKey h st → disk s5 !! k = disk s3 !! k).
  { intros k Hk. erewrite (saveData_disk _ _ _ k Hsave); [done|by rewrite Hidx]. }
  split; [done|]. split; [done|].
  rewrite !Hfinal by done.
  fold ko in Hb, Hdir. fold kb in Hb.
  destruct (disk st !! ko) as [prior|] eqn:Hprior.
  - destruct Hb as [Hne Hd1].
    assert (∃ c, disk s1 !! ks = Some c ∧ (kb ≠ ks → c = stored)) as (c & Hc & Hcs).
    { rewrite Hd1. destruct (decide (kb = ks)) as [Heq|Hn].
      - rewrite Heq, lookup_insert_eq. eexists. split; [done|]. by intros [].
      - rewrite lookup_insert_ne by done. eauto. }
    eapply copy_file_inv in Hcopy as [Hne2 Hd3]; [|exact Hc].
    fold ko ks in Hne2, Hd3. rewrite Hd3, Hd1.
    split.
    { intros ? [= <-]. rewrite lookup_insert_ne by done. by rewrite lookup_insert_eq. }
    rewrite lookup_insert_eq, lookup_insert_ne by done.
    rewrite <- Hd1, Hc. split; [done|]. split; [eauto|].
    intros Hn. by rewrite Hcs.
  - subst s1.
    eapply copy_file_inv in Hcopy as [Hne2 Hd3]; [|exact Hstored].
    fold ko ks in Hne2, Hd3. rewrite Hd3.
    split; [done|].
    rewrite lookup_insert_eq, lookup_insert_ne by done.
    rewrite Hstored. eauto.
Qed.

End Restore.

(** C8, witness: restoring the snapshot of ["A"] over a file that now holds
    ["B"] leaves ["B"] in the backup and ["A"] in the file. *)
Lemma C8_restoreSnapshot_witness :
  disk (restoreSnapshot host 3000 "snap1" edited).2 !! "/proj/a.txt.backup.3000" = Some "B" ∧
  disk (restoreSnapshot host 3000 "snap1" edited).2 !! "/proj/a.txt" = Some "A".
Proof.
  destruct (C8_restoreSnapshot_backs_up_then_overwrites host 3000 "snap1" edited
              O O snapA "A"
              (response (restoreSnapshot host 3000 "snap1" edited).1)
              (restoreSnapshot host 3000 "snap1" edited).2)
    as (_ & _ & Hbackup & _ & _ & Hbytes).
  - vm_compute; reflexivity.
  - vm_compute; reflexivity.
  - vm_compute; reflexivity.
  - vm_compute; discriminate.
  - vm_compute; discriminate.
  - vm_compute; discriminate.
  - vm_compute; reflexivity.
  - vm_compute; reflexivity.
  - split.
    + apply (Hbackup "B"); vm_compute; reflexivity.
    + apply Hbytes; vm_compute; discriminate.
Defined.

(** C8, counterexample to the claim as first stated: the destination is the
    store's index document.  The stored copy passes the size check and the
    destination passes the guard, the call reports success, and yet the
    destination does not hold the stored bytes afterwards: the last step of
    the restore, [saveData], has rewritten it. *)
Lemma C8_counterexample_index_document :
  locate "snap1" (sessions (data withIndexSnapshot)) O = Some (O, O, snapIndex) ∧
  disk withIndexSnapshot !! key host (snap_snapshotPath snapIndex)
    = Some "{sessions:[sess1:[]]}" ∧
  Z.of_nat (String.length "{sessions:[sess1:[]]}") = snap_fileSize snapIndex ∧
  valid (validatePath host (snap_originalPath snapIndex) None) = true ∧
  success (response (restoreSnapshot host 3000 "snap1" withIndexSnapshot).1) = true ∧
  disk (restoreSnapshot host 3000 "snap1" withIndexSnapshot).2
    !! key host (snap_originalPath snapIndex) = Some "{sessions:[sess1:[snap1]]}" ∧
  disk (restoreSnapshot host 3000 "snap1" withIndexSnapshot).2
    !! key host (snap_snapshotPath snapIndex) = Some "{sessions:[sess1:[]]}".
Proof.
  split_and!; vm_compute; reflexivity.
Qed.

End FileStoreSpec.

(* ===================================================================== *)
(** * Directory trees: facts *)
(* ===================================================================== *)

Module TreeFacts.
Import Tree.

(** Induction over a tree and, with it, over the entries of its
    directories. *)
Lemma node_ind (P : node → Prop) :
  (∀ c m, P (File c m)) →
  (∀ es, Forall (λ e, P e.2) es → P (Dir es)) →
  ∀ n, P n.
Proof.
  intros Hfile Hdir. fix IH 1. intros [c m|es].
  - apply Hfile.
  - apply Hdir. induction es as [|[name x] es' IHes]; constructor.
    + apply IH.
    + apply IHes.
Qed.

Lemma find_entry_set_entry name k x d :
  find_entry name (set_entry k x d)
  = if String.eqb k name then Some x else find_entry name d.
Proof.
  induction d as [|[n y] d IH]; simpl.
  - done.
  - destruct (String.eqb n k) eqn:Hnk; simpl.
    + apply String.eqb_eq in Hnk as ->. by destruct (String.eqb k name).
    + rewrite IH. destruct (String.eqb n name) eqn:Hnn; [|done].
      apply String.eqb_eq in Hnn as ->.
      rewrite String.eqb_sym in Hnk. by rewrite Hnk.
Qed.


(** [mkdir] never touches a regular file, unless it is told to make a
    directory in its place. *)
Lemma mkdir_p_frame force q : ∀ d d' p c m,
  mkdir_p force d q = Some d' →
  get d p = Some (File c m) →
  (force = true → ¬ p `prefix_of` q) →
  get d' p = Some (File c m).
Proof.
  induction q as [|k q IH]; intros d d' p c m Hmk Hget Hpre.
  - by inversion Hmk; subst.
  - destruct p as [|k2 p]; [done|].
    simpl in Hmk, Hget |- *.
    destruct (find_entry k d) as [[b m0|d0]|] eqn:Hk.
    + destruct force; [|done].
      destruct (mkdir_p true [] q) as [d0'|] eqn:Hq; [|done].
      injection Hmk as <-. rewrite find_entry_set_entry.
      destruct (String.eqb k k2) eqn:Hkk.
      * apply String.eqb_eq in Hkk as <-. rewrite Hk in Hget.
        destruct p; [|done]. exfalso. apply (Hpre eq_refl). by exists q.
      * done.
    + destruct (mkdir_p force d0 q) as [d0'|] eqn:Hq; [|done].
      injection Hmk as <-. rewrite find_entry_set_entry.
      destruct (String.eqb k k2) eqn:Hkk; [|done].
      apply String.eqb_eq in Hkk as <-. rewrite Hk in Hget.
      eapply IH; [exact Hq|exact Hget|].
      intros Hf [w ->]. apply (Hpre Hf). by exists w.
    + destruct (mkdir_p force [] q) as [d0'|] eqn:Hq; [|done].
      injection Hmk as <-. rewrite find_entry_set_entry.
      destruct (String.eqb k k2) eqn:Hkk; [|done].
      apply String.eqb_eq in Hkk as <-. by rewrite Hk in Hget.
Qed.

(** Writing a file leaves the regular files at other paths alone. *)
Lemma write_file_frame force q : ∀ d d' f p c m,
  write_file force d q f = Some d' →
  get d p = Some (File c m) →
  p ≠ q →
  get d' p = Some (File c m).
Proof.
  induction q as [|k q IH]; intros d d' f p c m Hw Hget Hne; [done|].
  destruct p as [|k2 p]; [done|].
  simpl in Hget |- *.
  destruct q as [|k' q].
  - simpl in Hw.
    assert (d' = set_entry k f d ∧
                   ∀ d0, find_entry k d = Some (Dir d0) → d0 = []) as [-> Hempty].
    { destruct (find_entry k d) as [[?|[|? ?]]|]; try destruct force; try done;
        injection Hw as <-; split; try done; by intros ? [= <-]. }
    rewrite find_entry_set_entry.
    destruct (String.eqb k k2) eqn:Hkk; [|done].
    apply String.eqb_eq in Hkk as <-.
    destruct (find_entry k d) as [[b m0|d0]|] eqn:Hk; [| |done].
    + destruct p; [congruence|done].
    + rewrite (Hempty d0 eq_refl) in Hget. destruct p; [done|]. done.
  - change (write_file force d (k :: k' :: q) f)
      with (match find_entry k d with
            | Some (Dir d0) => (λ d'', set_entry k (Dir d'') d) <$> write_file force d0 (k' :: q) f
            | _ => None
            end) in Hw.
    destruct (find_entry k d) as [[b m0|d0]|] eqn:Hk; [done| |done].
    destruct (write_file force d0 (k' :: q) f) as [d0'|] eqn:Hq; [|done].
    injection Hw as <-. rewrite find_entry_set_entry.
    destruct (String.eqb k k2) eqn:Hkk; [|done].
    apply String.eqb_eq in Hkk as <-. rewrite Hk in Hget.
    eapply IH; [exact Hq|exact Hget|congruence].
Qed.





End TreeFacts.

(* ===================================================================== *)
(** * The project snapshot store: properties *)
(* ===================================================================== *)

Module ProjectStoreSpec.
Import Tree TreeFacts ProjectStore ProjectStoreExamples.

#[local] Instance sameStore_refl : Reflexive sameStore.
Proof. by intros s. Qed.

#[local] Instance sameStore_trans : Transitive sameStore.
Proof.
  intros s1 s2 s3 (? & ? & ? & ? & ?) (? & ? & ? & ? & ?).
  repeat split; congruence.
Qed.

(** ** The restore only writes below the project root *)

Lemma mkdirWith_sameStore force p : preserves sameStore (mkdirWith force InProject p).
Proof.
  intros s r s' H. unfold mkdirWith in H.
  destruct (Tree.mkdir_p _ _ _); inversion H; subst; done.
Qed.

Lemma putFileWith_sameStore force p f : preserves sameStore (putFileWith force InProject p f).
Proof.
  intros s r s' H. unfold putFileWith in H.
  destruct (Tree.write_file _ _ _ _); inversion H; subst; done.
Qed.

Lemma copyTree_sameStore excluded stamp force src target :
  preserves sameStore (copyTree excluded stamp force src InProject target).
Proof.
  revert target. induction src as [c m|es IH] using node_ind; intros target; simpl.
  - apply (preserves_bind sameStore); [apply mkdirWith_sameStore|].
    intros _. by apply (preserves_throw sameStore).
  - apply (preserves_bind sameStore); [apply mkdirWith_sameStore|].
    intros _. apply (preserves_for_each_in sameStore).
    intros [name x] Hin. destruct (excluded name); [by apply (preserves_ret sameStore)|].
    rewrite Forall_forall in IH. specialize (IH _ Hin). simpl in IH.
    destruct x; [apply putFileWith_sameStore|apply IH].
Qed.

(** ** The planner only reads *)

Lemma getSnapshotFileList_readonly id : preserves eq (getSnapshotFileList id).
Proof. by intros s r s' [= _ <-]. Qed.

Lemma getSnapshotFileList_sameStore id : preserves sameStore (getSnapshotFileList id).
Proof. by apply (preserves_gets sameStore). Qed.

Lemma searchFull_readonly indices : preserves eq (searchFull indices).
Proof.
  induction indices as [|i rest IH]; simpl; [apply (preserves_ret eq)|].
  apply (preserves_bind eq); [apply (preserves_gets eq)|]. intros d.
  destruct (bySaveNumber i (snapshots d)) as [snapshot|]; [|done].
  destruct (is_full snapshot); [|done].
  apply (preserves_bind eq); [apply getSnapshotFileList_readonly|].
  intros files. destruct (nonempty files); [apply (preserves_ret eq)|done].
Qed.

Lemma firstUsable_readonly candidates : preserves eq (firstUsable candidates).
Proof.
  induction candidates as [|c rest IH]; simpl; [apply (preserves_ret eq)|].
  apply (preserves_bind eq); [apply getSnapshotFileList_readonly|].
  intros files. destruct (nonempty files); [apply (preserves_ret eq)|done].
Qed.

Lemma extendChain_readonly indices chain : preserves eq (extendChain indices chain).
Proof.
  revert chain. induction indices as [|i rest IH]; intros chain; simpl;
    [apply (preserves_ret eq)|].
  apply (preserves_bind eq); [apply (preserves_gets eq)|]. intros d.
  destruct (bySaveNumber i (snapshots d)) as [snapshot|]; [|done].
  destruct (is_full snapshot); [|done].
  apply (preserves_bind eq); [apply getSnapshotFileList_readonly|].
  intros files. destruct (nonempty files); done.
Qed.

Lemma buildRestoreChain_readonly target : preserves eq (buildRestoreChain target).
Proof.
  unfold buildRestoreChain. destruct (is_full target).
  - apply (preserves_bind eq); [apply getSnapshotFileList_readonly|].
    intros files. destruct (_ && _); [apply (preserves_throw eq)|apply (preserves_ret eq)].
  - apply (preserves_bind eq); [apply searchFull_readonly|].
    intros found. apply (preserves_bind eq); [|intros; apply extendChain_readonly].
    destruct found; [apply (preserves_ret eq)|].
    apply (preserves_bind eq); [apply (preserves_gets eq)|]. intros d.
    apply (preserves_bind eq); [apply firstUsable_readonly|].
    intros [?|]; [apply (preserves_ret eq)|apply (preserves_throw eq)].
Qed.

Lemma buildRestoreChain_sameStore target : preserves sameStore (buildRestoreChain target).
Proof.
  intros s r s' H. by rewrite (buildRestoreChain_readonly _ _ _ _ H).
Qed.

Lemma mirrorBack_sameStore e id : preserves sameStore (mirrorBack e id).
Proof.
  unfold mirrorBack.
  apply (preserves_bind sameStore); [by apply (preserves_gets sameStore)|]. intros snapshotDir.
  apply (preserves_try_catch sameStore); [|intros _].
  - unfold rsync. destruct (negb _); [by apply (preserves_throw sameStore)|].
    destruct snapshotDir; [|by apply (preserves_throw sameStore)].
    apply (preserves_bind sameStore); [apply copyTree_sameStore|].
    intros _. by apply (preserves_ret sameStore).
  - unfold restoreProjectManually.
    apply (preserves_bind sameStore); [by apply (preserves_ret sameStore)|]. intros _.
    unfold copyDirectoryRecursive. destruct snapshotDir as [d|].
    + change (Dir <$> Some d) with (Some (Dir d)). cbv iota. apply copyTree_sameStore.
    + change (Dir <$> None) with (@None node). cbv iota.
      apply (preserves_bind sameStore); [apply mkdirWith_sameStore|].
      intros _. by apply (preserves_throw sameStore).
Qed.

Lemma copyBack_sameStore e id file : preserves sameStore (copyBack e id file).
Proof.
  unfold copyBack.
  apply (preserves_try_catch sameStore); [|intros _; by apply (preserves_ret sameStore)].
  apply (preserves_bind sameStore); [by apply (preserves_gets sameStore)|]. intros snapshotDir.
  destruct (Path.components file) as [p|]; [|by apply (preserves_ret sameStore)].
  destruct (snapshotDir ≫= _) as [source|]; [|by apply (preserves_ret sameStore)].
  apply (preserves_bind sameStore); [apply mkdirWith_sameStore|]. intros _.
  destruct source; [apply putFileWith_sameStore|by apply (preserves_throw sameStore)].
Qed.

Lemma restoreChainElement_sameStore e c : preserves sameStore (restoreChainElement e c).
Proof.
  unfold restoreChainElement. destruct (is_full c).
  - apply (preserves_bind sameStore); [apply getSnapshotFileList_sameStore|].
    intros files. destruct (negb _); [by apply (preserves_throw sameStore)|apply mirrorBack_sameStore].
  - apply (preserves_for_each sameStore); intros file. apply copyBack_sameStore.
Qed.

(** ** What each phase of a snapshot may touch *)

#[global] Instance detectionOnly_refl : Reflexive detectionOnly.
Proof. intros s. by repeat split. Qed.

#[global] Instance detectionOnly_trans : Transitive detectionOnly.
Proof.
  intros s1 s2 s3 (?&?&?&?&?&?&?&?&?&?&?) (?&?&?&?&?&?&?&?&?&?&?).
  repeat split; congruence.
Qed.

#[global] Instance sameData_refl : Reflexive sameData.
Proof. intros s. by repeat split. Qed.

#[global] Instance sameData_trans : Transitive sameData.
Proof.
  intros s1 s2 s3 (?&?&?&?) (?&?&?&?). repeat split; congruence.
Qed.

Lemma preserves_collect (R : State → State → Prop) `{!Reflexive R, !Transitive R}
    {A} (l : list A) (body : A → M State bool) :
  (∀ x, preserves R (body x)) → preserves R (collect l body).
Proof.
  intros Hbody. induction l as [|x l IH]; simpl.
  - apply (preserves_ret R).
  - apply (preserves_bind R).
    + apply (preserves_try_catch R); [done|]. intros _. apply (preserves_ret R).
    + intros keep. apply (preserves_bind R); [done|]. intros rest. apply (preserves_ret R).
Qed.

Lemma preserves_map_m (R : State → State → Prop) `{!Reflexive R, !Transitive R}
    {A B} (f : A → M State B) (l : list A) :
  (∀ x, preserves R (f x)) → preserves R (map_m f l).
Proof.
  intros Hf. induction l as [|x l IH]; simpl.
  - apply (preserves_ret R).
  - apply (preserves_bind R); [done|]. intros y.
    apply (preserves_bind R); [done|]. intros ys. apply (preserves_ret R).
Qed.

Section Detection.
Context (h : Host).

Lemma stat_readonly root filePath : preserves eq (stat h root filePath).
Proof. intros s r s' H. unfold stat in H. repeat case_match; by inversion H. Qed.

Lemma readFile_readonly root filePath : preserves eq (readFile h root filePath).
Proof. intros s r s' H. unfold readFile in H. repeat case_match; by inversion H. Qed.

Lemma preserves_readonly {A} (R : State → State → Prop) `{!Reflexive R} (m : M State A) :
  preserves eq m → preserves R m.
Proof. intros Hm s r s' H. by rewrite (Hm _ _ _ H). Qed.

Lemma modify_baselines_detectionOnly f : preserves detectionOnly (modify_baselines f).
Proof. intros s r s' [= _ <-]. by repeat split. Qed.

Lemma touchScanTime_detectionOnly e : preserves detectionOnly (touchScanTime e).
Proof. intros s r s' [= _ <-]. by repeat split. Qed.

Lemma saveData_detectionOnly : preserves detectionOnly saveData.
Proof.
  intros s r s' H. unfold saveData in H.
  destruct (storeWritable s); inversion H; subst; by repeat split.
Qed.

Lemma updateFileBaseline_detectionOnly filePath root :
  preserves detectionOnly (updateFileBaseline h filePath root).
Proof.
  unfold updateFileBaseline.
  apply (preserves_try_catch detectionOnly); [|intros _; apply (preserves_ret detectionOnly)].
  apply (preserves_bind detectionOnly); [apply preserves_readonly, stat_readonly; apply _|].
  intros stats.
  apply (preserves_bind detectionOnly); [apply preserves_readonly, readFile_readonly; apply _|].
  intros content. apply modify_baselines_detectionOnly.
Qed.

Lemma getAllProjectFiles_detectionOnly root :
  preserves detectionOnly (getAllProjectFiles root).
Proof. apply (preserves_gets detectionOnly). Qed.

Lemma updateAllFileBaselines_detectionOnly root :
  preserves detectionOnly (updateAllFileBaselines h root).
Proof.
  unfold updateAllFileBaselines.
  apply (preserves_bind detectionOnly); [apply getAllProjectFiles_detectionOnly|].
  intros allFiles. apply (preserves_bind detectionOnly).
  - apply (preserves_for_each detectionOnly). intros f. apply updateFileBaseline_detectionOnly.
  - intros _. apply saveData_detectionOnly.
Qed.

Lemma getFilesByStatsComparison_detectionOnly root :
  preserves detectionOnly (getFilesByStatsComparison h root).
Proof.
  unfold getFilesByStatsComparison.
  apply (preserves_bind detectionOnly); [apply getAllProjectFiles_detectionOnly|].
  intros allFiles. apply (preserves_collect detectionOnly). intros filePath.
  apply (preserves_bind detectionOnly); [apply preserves_readonly, stat_readonly; apply _|].
  intros stats.
  apply (preserves_bind detectionOnly); [apply (preserves_gets detectionOnly)|].
  intros baselines. destruct (obj_get _ _) as [baseline|].
  - destruct (_ || _); [|apply (preserves_ret detectionOnly)].
    apply (preserves_bind detectionOnly); [apply updateFileBaseline_detectionOnly|].
    intros _. apply (preserves_ret detectionOnly).
  - apply (preserves_bind detectionOnly); [apply updateFileBaseline_detectionOnly|].
    intros _. apply (preserves_ret detectionOnly).
Qed.

Lemma getFilesByHashComparison_detectionOnly root :
  preserves detectionOnly (getFilesByHashComparison h root).
Proof.
  unfold getFilesByHashComparison.
  apply (preserves_bind detectionOnly); [apply (preserves_gets detectionOnly)|].
  intros baselineFiles.
  apply (preserves_bind detectionOnly); [|intros; apply (preserves_ret detectionOnly)].
  apply (preserves_collect detectionOnly). intros relativePath.
  apply (preserves_bind detectionOnly); [apply (preserves_gets detectionOnly)|].
  intros baselines.
  apply (preserves_bind detectionOnly); [apply (preserves_gets detectionOnly)|].
  intros present. destruct (obj_get _ _) as [baseline|];
    [|apply (preserves_throw detectionOnly)].
  destruct present; [|apply (preserves_ret detectionOnly)].
  apply (preserves_bind detectionOnly); [apply preserves_readonly, readFile_readonly; apply _|].
  intros content. destruct (negb _); [|apply (preserves_ret detectionOnly)].
  apply (preserves_bind detectionOnly); [apply preserves_readonly, stat_readonly; apply _|].
  intros stats.
  apply (preserves_bind detectionOnly); [apply modify_baselines_detectionOnly|].
  intros _. apply (preserves_ret detectionOnly).
Qed.

Lemma getRecentlyModifiedFiles_detectionOnly e root range :
  preserves detectionOnly (getRecentlyModifiedFiles h e root range).
Proof.
  unfold getRecentlyModifiedFiles.
  apply (preserves_bind detectionOnly); [apply getAllProjectFiles_detectionOnly|].
  intros allFiles. apply (preserves_collect detectionOnly). intros filePath.
  apply (preserves_bind detectionOnly); [apply preserves_readonly, stat_readonly; apply _|].
  intros stats. apply (preserves_ret detectionOnly).
Qed.

Lemma getModifiedFiles_detectionOnly e root :
  preserves detectionOnly (getModifiedFiles h e root).
Proof.
  unfold getModifiedFiles.
  apply (preserves_bind detectionOnly); [apply (preserves_ret detectionOnly)|].
  intros gitFiles. destruct (nonempty gitFiles).
  { apply (preserves_bind detectionOnly); [apply touchScanTime_detectionOnly|].
    intros _. apply (preserves_ret detectionOnly). }
  apply (preserves_bind detectionOnly); [apply getFilesByHashComparison_detectionOnly|].
  intros hashFiles. destruct (nonempty hashFiles).
  { apply (preserves_bind detectionOnly); [apply touchScanTime_detectionOnly|].
    intros _. apply (preserves_ret detectionOnly). }
  apply (preserves_bind detectionOnly); [apply getFilesByStatsComparison_detectionOnly|].
  intros statsFiles. destruct (nonempty statsFiles).
  { apply (preserves_bind detectionOnly); [apply touchScanTime_detectionOnly|].
    intros _. apply (preserves_ret detectionOnly). }
  apply (preserves_bind detectionOnly); [apply getRecentlyModifiedFiles_detectionOnly|].
  intros recentFiles.
  apply (preserves_bind detectionOnly); [apply touchScanTime_detectionOnly|].
  intros _. destruct (nonempty recentFiles); apply (preserves_ret detectionOnly).
Qed.

Lemma analyzeChangesWithSerena_detectionOnly e root :
  preserves detectionOnly (analyzeChangesWithSerena h e root).
Proof.
  unfold analyzeChangesWithSerena, analyzeChangesWithGit.
  apply (preserves_try_catch detectionOnly).
  - apply (preserves_bind detectionOnly); [apply (preserves_gets detectionOnly)|].
    intros baselineCount. apply (preserves_bind detectionOnly).
    + destruct (_ =? _)%nat;
        [apply updateAllFileBaselines_detectionOnly|apply (preserves_ret detectionOnly)].
    + intros _. apply (preserves_bind detectionOnly); [apply getModifiedFiles_detectionOnly|].
      intros files. apply (preserves_ret detectionOnly).
  - intros _. apply (preserves_try_catch detectionOnly);
      [apply getModifiedFiles_detectionOnly|intros _; apply (preserves_ret detectionOnly)].
Qed.

Lemma forceFileAnalysis_detectionOnly e root prompt :
  preserves detectionOnly (forceFileAnalysis h e root prompt).
Proof.
  unfold forceFileAnalysis.
  apply (preserves_try_catch detectionOnly); [|intros _; apply (preserves_ret detectionOnly)].
  apply (preserves_bind detectionOnly); [apply getRecentlyModifiedFiles_detectionOnly|].
  intros recentFiles. apply (preserves_bind detectionOnly).
  { unfold guessFilesFromPrompt.
    apply (preserves_bind detectionOnly); [apply getAllProjectFiles_detectionOnly|].
    intros allFiles. apply (preserves_ret detectionOnly). }
  intros guessedFiles. apply (preserves_bind detectionOnly).
  { destruct (nonempty _); [apply (preserves_ret detectionOnly)|].
    unfold findNewFiles.
    apply (preserves_bind detectionOnly); [apply getAllProjectFiles_detectionOnly|].
    intros allFiles. apply (preserves_collect detectionOnly). intros filePath.
    apply (preserves_bind detectionOnly); [apply (preserves_gets detectionOnly)|].
    intros baselines. destruct (obj_get _ _); [apply (preserves_ret detectionOnly)|].
    apply (preserves_bind detectionOnly); [apply updateFileBaseline_detectionOnly|].
    intros _. apply (preserves_ret detectionOnly). }
  intros modifiedFiles. apply (preserves_bind detectionOnly);
    [|intros; apply (preserves_ret detectionOnly)].
  destruct (nonempty _); [apply (preserves_ret detectionOnly)|].
  apply (preserves_bind detectionOnly); [|intros; apply (preserves_ret detectionOnly)].
  unfold findMainProjectFiles.
  apply (preserves_bind detectionOnly); [apply getAllProjectFiles_detectionOnly|].
  intros allFiles. destruct (nonempty _); [apply (preserves_ret detectionOnly)|].
  apply (preserves_try_catch detectionOnly); [|intros _; apply (preserves_ret detectionOnly)].
  apply (preserves_bind detectionOnly); [|intros; apply (preserves_ret detectionOnly)].
  apply (preserves_map_m detectionOnly). intros file.
  apply (preserves_bind detectionOnly); [apply preserves_readonly, stat_readonly; apply _|].
  intros stats. apply (preserves_ret detectionOnly).
Qed.

End Detection.

(** ** What writing a snapshot and retention may touch *)

Lemma mkdirWith_sameData force pl p : preserves sameData (mkdirWith force pl p).
Proof.
  intros s r s' H. unfold mkdirWith in H.
  repeat case_match; inversion H; subst; done.
Qed.

Lemma putFileWith_sameData force pl p f : preserves sameData (putFileWith force pl p f).
Proof.
  intros s r s' H. unfold putFileWith in H.
  repeat case_match; inversion H; subst; done.
Qed.

Lemma copyTree_sameData excluded stamp force src pl target :
  preserves sameData (copyTree excluded stamp force src pl target).
Proof.
  revert target. induction src as [c m|es IH] using node_ind; intros target.
  - apply (preserves_bind sameData); [apply mkdirWith_sameData|].
    intros _. apply (preserves_throw sameData).
  - change (copyTree excluded stamp force (Dir es) pl target)
      with (bind (mkdirWith force pl target)
              (λ _, for_each es
                 (λ item, match item with
                          | (name, x) =>
                              if excluded name then ret tt
                              else match x with
                                   | Dir _ => copyTree excluded stamp force x pl
                                                (target ++ [name])
                                   | File c m => putFileWith force pl
                                                   (target ++ [name]) (File c (stamp m))
                                   end
                          end))).
    apply (preserves_bind sameData); [apply mkdirWith_sameData|].
    intros _. apply (preserves_for_each_in sameData).
    intros [name x] Hin. destruct (excluded name); [apply (preserves_ret sameData)|].
    rewrite Forall_forall in IH. specialize (IH _ Hin). simpl in IH.
    destruct x; [apply putFileWith_sameData|apply IH].
Qed.

Lemma saveSnapshotFiles_sameData h e snapshot :
  preserves sameData (saveSnapshotFiles h e snapshot).
Proof.
  unfold saveSnapshotFiles.
  apply (preserves_bind sameData); [apply mkdirWith_sameData|]. intros _.
  apply (preserves_bind sameData); [|intros _; apply putFileWith_sameData].
  destruct (decide _).
  - unfold copyProjectFiles.
    apply (preserves_bind sameData); [apply (preserves_gets sameData)|]. intros source.
    apply (preserves_try_catch sameData).
    + unfold rsync. destruct (negb _); [apply (preserves_throw sameData)|].
      apply (preserves_bind sameData); [apply copyTree_sameData|].
      intros _. apply (preserves_ret sameData).
    + intros _. apply copyTree_sameData.
  - unfold copyChangedFiles. apply (preserves_for_each sameData). intros file.
    apply (preserves_try_catch sameData); [|intros _; apply (preserves_ret sameData)].
    unfold copyIn. destruct (Path.components file); [|apply (preserves_throw sameData)].
    apply (preserves_bind sameData); [apply mkdirWith_sameData|]. intros _.
    apply (preserves_bind sameData); [apply (preserves_gets sameData)|].
    intros [[?|?]|]; [apply putFileWith_sameData|apply (preserves_throw sameData)..].
Qed.

Lemma returns_try_catch_ret {A} (R : State → State → Prop) `{!Reflexive R, !Transitive R}
    (m : M State A) (a : A) :
  preserves R m → returns R (try_catch m (λ _, ret a)).
Proof.
  intros Hm s. unfold try_catch. destruct (m s) as [[x|err] s1] eqn:H.
  - exists x, s1. split; [done|]. by eapply Hm.
  - exists a, s1. split; [done|]. by eapply Hm.
Qed.

Lemma for_each_returns (R : State → State → Prop) `{!Reflexive R, !Transitive R}
    {A} (l : list A) (body : A → M State unit) :
  (∀ x, returns R (body x)) → returns R (for_each l body).
Proof.
  intros Hbody. induction l as [|x l IH]; intros s.
  - exists tt, s. split; [done|reflexivity].
  - rewrite for_each_cons. unfold bind.
    destruct (Hbody x s) as ([] & s1 & -> & H1).
    destruct (IH s1) as ([] & s2 & -> & H2).
    exists tt, s2. split; [done|by etrans].
Qed.

Lemma with_snapshots_same d : with_snapshots (snapshots d) d = d.
Proof. by destruct d. Qed.

(** Retention always returns, and leaves of the snapshot list what
    [retained] says. *)
Lemma cleanupOldSnapshots_spec s :
  ∃ s', cleanupOldSnapshots s = (Ok tt, s') ∧
        cacheDirectory s' = cacheDirectory s ∧
        data s' = with_snapshots (retained (maxSnapshots (data s)) (snapshots (data s)))
                    (data s).
Proof.
  unfold cleanupOldSnapshots, retained. unfold bind at 1, gets at 1.
  destruct (Z.of_nat (length (snapshots (data s))) <=? maxSnapshots (data s)).
  - exists s. by rewrite with_snapshots_same.
  - unfold bind at 1.
    match goal with |- context [for_each ?l ?b s] =>
      destruct (for_each_returns sameData l b) with (s := s) as ([] & s1 & -> & Hs1) end.
    { intros x. apply (returns_try_catch_ret sameData).
      intros s0 r0 s0' H0. unfold rmSnapshotDir in H0.
      destruct (storeWritable s0); inversion H0; subst; done. }
    destruct Hs1 as (Hc & Hd & _). eexists. split; [reflexivity|].
    simpl. by rewrite Hc, Hd.
Qed.

(** ** What [createProjectSnapshot] does to the store *)

Section Create.
Context (h : Host).

Lemma analyzeChangesWithSerena_returns e root :
  returns detectionOnly (analyzeChangesWithSerena h e root).
Proof.
  intros s. destruct (analyzeChangesWithSerena h e root s) as [r s'] eqn:H.
  pose proof (analyzeChangesWithSerena_detectionOnly h e root _ _ _ H) as Hd.
  unfold analyzeChangesWithSerena in H.
  apply try_catch_inv in H as [(a & _ & ->)|(err & s1 & _ & H)]; [by eexists _, _|].
  unfold analyzeChangesWithGit in H.
  apply try_catch_inv in H as [(a & _ & ->)|(err2 & s2 & _ & [= <- <-])]; by eexists _, _.
Qed.

Lemma forceFileAnalysis_returns e root prompt :
  returns detectionOnly (forceFileAnalysis h e root prompt).
Proof.
  intros s. destruct (forceFileAnalysis h e root prompt s) as [r s'] eqn:H.
  pose proof (forceFileAnalysis_detectionOnly h e root prompt _ _ _ H) as Hd.
  unfold forceFileAnalysis in H.
  apply try_catch_inv in H as [(a & _ & ->)|(err & s1 & _ & [= <- <-])]; by eexists _, _.
Qed.

Lemma shouldDoFullSave_ext d d' :
  fullSaveInterval d' = fullSaveInterval d →
  currentSaveNumber d' = currentSaveNumber d →
  lastFullSaveNumber d' = lastFullSaveNumber d →
  snapshots d' = snapshots d →
  shouldDoFullSave d' = shouldDoFullSave d.
Proof. unfold shouldDoFullSave. by intros -> -> -> ->. Qed.

Lemma createProjectSnapshot_inv e root prompt st :
  cacheDirectory st ≠ "" →
  ∃ resp st',
    createProjectSnapshot h e root prompt st = (Ok resp, st') ∧
    cacheDirectory st' = cacheDirectory st ∧
    currentSaveNumber (data st') = currentSaveNumber (data st) + 1 ∧
    lastFullSaveNumber (data st')
    = (if decide (kindAt st = full) then currentSaveNumber (data st) + 1
       else lastFullSaveNumber (data st)) ∧
    fullSaveInterval (data st') = fullSaveInterval (data st) ∧
    maxSnapshots (data st') = maxSnapshots (data st) ∧
    autoCleanup (data st') = autoCleanup (data st) ∧
    ((success resp = false ∧ snapshots (data st') = snapshots (data st)) ∨
     (∃ snapshot,
        ps_id snapshot = uuid e ∧
        ps_timestamp snapshot = now e ∧
        ps_saveNumber snapshot = currentSaveNumber (data st) + 1 ∧
        ps_type snapshot = kindAt st ∧
        ps_changedFiles snapshot
        = (if decide (kindAt st = full) then ["*"] else ps_modifiedFiles snapshot) ∧
        snapshots (data st') = appended st snapshot ∧
        (success resp = true →
         payload resp = Created (uuid e) (currentSaveNumber (data st) + 1) (kindAt st)
                          (ps_changedFiles snapshot)))).
Proof.
  intros Hcache. apply String.eqb_neq in Hcache.
  unfold createProjectSnapshot. unfold try_catch.
  unfold bind at 1, gets at 1. rewrite Hcache.
  unfold bind at 1, modify at 1.
  set (s1 := set_data _ st).
  unfold bind at 1.
  destruct (analyzeChangesWithSerena_returns e root s1) as (detected & s2 & -> & H12).
  unfold bind at 1.
  assert (∃ modifiedFiles s3,
            (if nonempty detected then ret detected
             else do forced <- forceFileAnalysis h e root prompt;
                  if nonempty forced then ret forced else ret ["*"]) s2
            = (Ok modifiedFiles, s3) ∧ detectionOnly s2 s3)
    as (modifiedFiles & s3 & -> & H23).
  { destruct (nonempty detected); [by eexists _, _|].
    unfold bind. destruct (forceFileAnalysis_returns e root prompt s2) as (forced & s3 & -> & ?).
    destruct (nonempty forced); by eexists _, _. }
  assert (H13 : detectionOnly s1 s3) by (by etrans).
  destruct H13 as (Hc3 & _ & _ & _ & _ & Hn3 & Hl3 & Hi3 & Hs3 & Hm3 & Ha3).
  unfold bind at 1, gets at 1.
  assert (Hkind : (if shouldDoFullSave (data s3) then full else incremental) = kindAt st).
  { unfold kindAt. erewrite shouldDoFullSave_ext; [reflexivity|by rewrite ?Hi3, ?Hn3, ?Hl3, ?Hs3..]. }
  rewrite Hkind.
  unfold bind at 1.
  set (s4 := if decide (kindAt st = full)
             then set_data (with_lastFullSaveNumber (currentSaveNumber (data s3))) s3
             else s3).
  assert (Hs4 : (if decide (kindAt st = full)
                 then modify (set_data (with_lastFullSaveNumber (currentSaveNumber (data s3))))
                 else ret tt) s3 = (Ok tt, s4)).
  { subst s4. by destruct (decide _). }
  rewrite Hs4.
  assert (H4 : cacheDirectory s4 = cacheDirectory st ∧
               currentSaveNumber (data s4) = currentSaveNumber (data st) + 1 ∧
               lastFullSaveNumber (data s4)
               = (if decide (kindAt st = full) then currentSaveNumber (data st) + 1
                  else lastFullSaveNumber (data st)) ∧
               fullSaveInterval (data s4) = fullSaveInterval (data st) ∧
               maxSnapshots (data s4) = maxSnapshots (data st) ∧
               autoCleanup (data s4) = autoCleanup (data st) ∧
               snapshots (data s4) = snapshots (data st)).
  { subst s4. destruct (decide _); simpl; rewrite ?Hc3, ?Hn3, ?Hl3, ?Hi3, ?Hm3, ?Ha3, ?Hs3;
      done. }
  destruct H4 as (Hc4 & Hn4 & Hl4 & Hi4 & Hm4 & Ha4 & Hsn4).
  clearbody s4. clear Hs4.
  set (snapshot := {| ps_id := uuid e |}).
  unfold bind at 1.
  destruct (saveSnapshotFiles h e snapshot s4) as [[[]|err] s5] eqn:Hsave;
    pose proof (saveSnapshotFiles_sameData h e snapshot _ _ _ Hsave) as (Hc5 & Hd5 & _).
  2:{ eexists _, _. split; [reflexivity|]. rewrite Hc5, Hd5.
      split_and!; try done. by left. }
  unfold bind at 1, getSnapshotFileList at 1, gets at 1.
  set (final := with_actualFileCount _ snapshot).
  unfold bind at 1, modify at 1.
  set (s6 := set_data _ s5).
  unfold bind at 1, gets at 1.
  assert (∃ s7, (if autoCleanup (data s6) then cleanupOldSnapshots else ret tt) s6 = (Ok tt, s7)
                ∧ cacheDirectory s7 = cacheDirectory st
                ∧ data s7 = with_snapshots (appended st final) (data s6))
    as (s7 & Hclean & Hc7 & Hd7).
  { unfold appended.
    assert (Ha6 : autoCleanup (data s6) = autoCleanup (data st))
      by (subst s6; simpl; by rewrite Hd5).
    rewrite Ha6. destruct (autoCleanup (data st)).
    - destruct (cleanupOldSnapshots_spec s6) as (s7 & -> & Hc7 & Hd7).
      exists s7. split; [done|]. rewrite Hc7, Hd7. subst s6. simpl.
      rewrite Hd5, Hm4, Hsn4. split; [congruence|done].
    - eexists. split; [reflexivity|]. subst s6. simpl. rewrite Hd5, Hsn4.
      split; [congruence|done]. }
  unfold bind at 1. rewrite Hclean.
  assert (Hfields : currentSaveNumber (data s7) = currentSaveNumber (data st) + 1 ∧
                    lastFullSaveNumber (data s7)
                    = (if decide (kindAt st = full) then currentSaveNumber (data st) + 1
                       else lastFullSaveNumber (data st)) ∧
                    fullSaveInterval (data s7) = fullSaveInterval (data st) ∧
                    maxSnapshots (data s7) = maxSnapshots (data st) ∧
                    autoCleanup (data s7) = autoCleanup (data st) ∧
                    snapshots (data s7) = appended st final).
  { rewrite Hd7. subst s6. simpl. rewrite Hd5. done. }
  destruct Hfields as (Hn7 & Hl7 & Hi7 & Hm7 & Ha7 & Hsn7).
  assert (Hsnap : ps_id final = uuid e ∧ ps_timestamp final = now e ∧
                  ps_saveNumber final = currentSaveNumber (data st) + 1 ∧
                  ps_type final = kindAt st ∧
                  ps_changedFiles final
                  = (if decide (kindAt st = full) then ["*"] else ps_modifiedFiles final)).
  { subst final snapshot. simpl. rewrite Hn3. subst s1. simpl. done. }
  destruct Hsnap as (Hid & Hts & Hsn & Hty & Hcf).
  unfold bind at 1, saveData at 1.
  destruct (storeWritable s7).
  - eexists _, _. split; [reflexivity|]. simpl.
    split_and!; try done. right. exists final. split_and!; try done.
    intros _. subst final snapshot. simpl. rewrite Hn3. subst s1. done.
  - eexists _, _. split; [reflexivity|].
    split_and!; try done. right. exists final. split_and!; done.
Qed.

End Create.

(** ** C7: the kind of a new snapshot *)

Lemma kindAt_full st :
  kindAt st = full ↔
  fullSaveInterval (data st) ≤ currentSaveNumber (data st) + 1 - lastFullSaveNumber (data st)
  ∨ snapshots (data st) = [].
Proof.
  unfold kindAt, shouldDoFullSave. simpl.
  destruct (fullSaveInterval (data st)
            <=? currentSaveNumber (data st) + 1 - lastFullSaveNumber (data st)) eqn:Hi;
    [apply Z.leb_le in Hi | apply Z.leb_gt in Hi]; simpl.
  - split; [by left | done].
  - destruct (snapshots (data st)) as [|s l]; simpl.
    + split; [by right | done].
    + split; [done | intros [?|?]; [lia | done]].
Qed.

(** C7.  On a manager that has a cache directory, [createProjectSnapshot]
    answers, and the kind it picks is full exactly when the interval has
    elapsed on the counter it has just incremented
    ([fullSaveInterval ≤ currentSaveNumber − lastFullSaveNumber]) or the store
    holds no snapshot; otherwise the kind is incremental.  So the first
    snapshot of an empty store is full whatever [fullSaveInterval] is.
    When the kind is full, [lastFullSaveNumber] is set to the new
    [currentSaveNumber] (also when writing the snapshot fails afterwards),
    otherwise it is left alone.  The kind is the one of the snapshot that is
    recorded and the one that is answered. *)
Theorem C7_createProjectSnapshot_picks_the_kind h e root prompt st :
  cacheDirectory st ≠ "" →
  let n := currentSaveNumber (data st) + 1 in
  let due := fullSaveInterval (data st) ≤ n - lastFullSaveNumber (data st)
             ∨ snapshots (data st) = [] in
  let st' := (createProjectSnapshot h e root prompt st).2 in
  ∃ resp kind,
    (createProjectSnapshot h e root prompt st).1 = Ok resp ∧
    (kind = full ↔ due) ∧
    (kind = incremental ↔ ¬ due) ∧
    (snapshots (data st) = [] → kind = full) ∧
    currentSaveNumber (data st') = n ∧
    (kind = full → lastFullSaveNumber (data st') = currentSaveNumber (data st')) ∧
    (kind = incremental → lastFullSaveNumber (data st') = lastFullSaveNumber (data st)) ∧
    (success resp = true →
     ∃ snapshot,
       ps_type snapshot = kind ∧
       ps_saveNumber snapshot = n ∧
       snapshots (data st') = appended st snapshot ∧
       payload resp = Created (uuid e) n kind (ps_changedFiles snapshot)).
Proof.
  intros Hcache n due st'.
  destruct (createProjectSnapshot_inv h e root prompt st Hcache)
    as (resp & s' & Hrun & _ & Hn & Hl & _ & _ & _ & Hout).
  subst st'. rewrite Hrun. simpl.
  pose proof (kindAt_full st) as Hfull. fold n in Hfull. fold due in Hfull.
  exists resp, (kindAt st). split_and!.
  - done.
  - done.
  - rewrite <- Hfull. destruct (kindAt st); split; done.
  - intros Hempty. apply Hfull. by right.
  - done.
  - intros Hk. rewrite Hl, Hn. by rewrite decide_True.
  - intros Hk. rewrite Hl. rewrite decide_False; [done | by rewrite Hk].
  - intros Hok. destruct Hout as [[Hno _]|(snapshot & _ & _ & Hsn & Hty & _ & Hlist & Hpay)].
    + by rewrite Hno in Hok.
    + exists snapshot. split_and!; try done. by apply Hpay.
Qed.

(** C7, witness: the second snapshot of scenario 1 is incremental, the
    interval of ten not having elapsed; the first one was full. *)
Lemma C7_createProjectSnapshot_witness :
  ∃ resp kind,
    (createProjectSnapshot host (env (10 * day + 10) "s2") "/proj" "edit" edited).1
    = Ok resp ∧
    (kind = full ↔ fullSaveInterval (data edited)
                   ≤ currentSaveNumber (data edited) + 1 - lastFullSaveNumber (data edited)
                   ∨ snapshots (data edited) = []) ∧
    (kind = incremental ↔
     ¬ (fullSaveInterval (data edited)
        ≤ currentSaveNumber (data edited) + 1 - lastFullSaveNumber (data edited)
        ∨ snapshots (data edited) = [])) ∧
    (snapshots (data edited) = [] → kind = full) ∧
    currentSaveNumber (data afterEdit) = currentSaveNumber (data edited) + 1 ∧
    (kind = full → lastFullSaveNumber (data afterEdit) = currentSaveNumber (data afterEdit)) ∧
    (kind = incremental →
     lastFullSaveNumber (data afterEdit) = lastFullSaveNumber (data edited)) ∧
    (success resp = true →
     ∃ snapshot,
       ps_type snapshot = kind ∧
       ps_saveNumber snapshot = currentSaveNumber (data edited) + 1 ∧
       snapshots (data afterEdit) = appended edited snapshot ∧
       payload resp = Created "s2" (currentSaveNumber (data edited) + 1) kind
                        (ps_changedFiles snapshot)).
Proof.
  apply (C7_createProjectSnapshot_picks_the_kind host (env (10 * day + 10) "s2")
           "/proj" "edit" edited).
  vm_compute. discriminate.
Defined.

(** ** C5: the forced snapshot *)

(** C5 (code bug).  The store holds the full snapshot ["s1"]; the detector
    and the forced analysis report nothing for the second call.  The call
    succeeds, increments the save number and records [changedFiles = ["*"]],
    but the kind is incremental and the snapshot is written by
    [copyChangedFiles], which looks for a file named ["*"]: the directory
    of ["s2"] holds its metadata file and nothing of the project, where the
    full snapshot ["s1"] of the same tree holds [notes.tmp]. *)
Theorem C5_forced_snapshot_is_written_as_incremental :
  let e := env (10 * day + 1) "s2" in
  (ps_id <$> snapshots (data scratchInit)) = ["s1"] ∧
  (analyzeChangesWithSerena host e "/proj" scratchInit).1 = Ok [] ∧
  (forceFileAnalysis host e "/proj" "again" scratchInit).1 = Ok [] ∧
  response forced.1
  = {| success := true; message := "project snapshot created";
       payload := Created "s2" 2 incremental ["*"] |} ∧
  currentSaveNumber (data forced.2) = currentSaveNumber (data scratchInit) + 1 ∧
  ((λ s, (ps_id s, ps_type s, ps_changedFiles s, ps_actualFileCount s))
     <$> snapshots (data forced.2))
  = [("s1", full, ["*"], Some 1%nat); ("s2", incremental, ["*"], Some 0%nat)] ∧
  project forced.2 = [("notes.tmp", File "x" 5)] ∧
  (fst <$> default [] (snapshotDirs forced.2 !! "s1"))
  = ["notes.tmp"; "snapshot_metadata.json"] ∧
  (fst <$> default [] (snapshotDirs forced.2 !! "s2")) = ["snapshot_metadata.json"] ∧
  (saveSnapshotFiles host e
     {| ps_id := "s2"; ps_timestamp := now e; ps_saveNumber := 2; ps_type := full;
        ps_changedFiles := ["*"]; ps_prompt := "again"; ps_modifiedFiles := ["*"];
        ps_totalFiles := 1; ps_projectRoot := "/proj"; ps_actualFileCount := None |}
     scratchInit).2.(snapshotDirs) !! "s2"
  = Some [("notes.tmp", File "x" (now e)); ("snapshot_metadata.json", File "{}" (now e))].
Proof.
  split_and!; vm_compute; reflexivity.
Qed.

(** ** C4: the save numbers along a history *)

Lemma sort_insert_perm {A} (cmp : A → A → Z) x l : Js.sort_insert cmp x l ≡ₚ x :: l.
Proof.
  induction l as [|y l IH]; simpl; [done|].
  destruct (0 <? cmp x y); [|done]. rewrite IH. apply Permutation_swap.
Qed.

Lemma sort_perm {A} (cmp : A → A → Z) l : Js.sort cmp l ≡ₚ l.
Proof.
  induction l as [|x l IH]; simpl; [done|]. by rewrite sort_insert_perm, IH.
Qed.

Lemma slice_sublist {A} (l : list A) start stop : Js.slice l start stop `sublist_of` l.
Proof. unfold Js.slice. etrans; [apply sublist_take | apply sublist_drop]. Qed.

Lemma retained_submseteq cap l : retained cap l ⊆+ l.
Proof.
  unfold retained. destruct (Z.of_nat (length l) <=? cap); [done|].
  etrans; [apply sublist_submseteq, slice_sublist|].
  apply Permutation_submseteq, sort_perm.
Qed.

Lemma wellNumbered_submseteq current t l l' :
  l' ⊆+ l → wellNumbered current t l → wellNumbered current t l'.
Proof.
  intros Hsub (Hnd & Hin & Hts & Hord).
  assert (Hel : ∀ s, s ∈ l' → s ∈ l) by (intros s Hs; by eapply elem_of_submseteq).
  split_and!; [|by auto..].
  apply (fmap_submseteq ps_saveNumber) in Hsub.
  apply submseteq_Permutation in Hsub as [k Hk]. rewrite Hk in Hnd.
  by apply NoDup_app in Hnd as [? _].
Qed.

Lemma wellNumbered_mono current current' t t' l :
  current ≤ current' → t ≤ t' → wellNumbered current t l → wellNumbered current' t' l.
Proof.
  intros Hc Ht (Hnd & Hin & Hts & Hord). split_and!; [done| | |done].
  - intros s Hs. specialize (Hin s Hs). lia.
  - intros s Hs. specialize (Hts s Hs). lia.
Qed.

Lemma wellNumbered_snoc current t t' l s :
  0 ≤ current → t ≤ t' → ps_saveNumber s = current + 1 → ps_timestamp s = t' →
  wellNumbered current t l → wellNumbered (current + 1) t' (l ++ [s]).
Proof.
  intros Hc Ht Hsn Hst (Hnd & Hin & Hts & Hord). split_and!.
  - rewrite fmap_app. apply NoDup_app. split_and!; [done| |apply NoDup_singleton].
    intros n Hn Hn'. apply list_elem_of_singleton in Hn'. subst n.
    apply list_elem_of_fmap in Hn as (s' & Heq & Hs'). specialize (Hin s' Hs'). lia.
  - intros a [Ha|Ha]%elem_of_app; [specialize (Hin a Ha); lia|].
    apply list_elem_of_singleton in Ha. subst a. lia.
  - intros a [Ha|Ha]%elem_of_app; [specialize (Hts a Ha); lia|].
    apply list_elem_of_singleton in Ha. subst a. lia.
  - intros a b [Ha|Ha]%elem_of_app [Hb|Hb]%elem_of_app Hlt;
      try (apply list_elem_of_singleton in Ha; subst a);
      try (apply list_elem_of_singleton in Hb; subst b).
    + by apply Hord.
    + specialize (Hts a Ha). lia.
    + specialize (Hin b Hb). lia.
    + lia.
Qed.

Lemma wellNumbered_current current t l : wellNumbered current t l → l = [] ∨ 1 ≤ current.
Proof.
  intros (_ & Hin & _). destruct l as [|s l]; [by left|right].
  specialize (Hin s (list_elem_of_here _ _)). lia.
Qed.

Lemma createProjectSnapshot_uninitialised h e root prompt st :
  cacheDirectory st = "" → (createProjectSnapshot h e root prompt st).2 = st.
Proof.
  intros Hc. unfold createProjectSnapshot, try_catch, bind, gets. by rewrite Hc.
Qed.

(** The invariant of a store: its counter is not negative and its
    snapshots are well numbered below it. *)
Lemma step_wellNumbered h ev st t :
  0 ≤ currentSaveNumber (data st) →
  wellNumbered (currentSaveNumber (data st)) t (snapshots (data st)) →
  clockOrdered t [ev] →
  ∃ t', clockOrdered t' [] ∧
        (∀ later, clockOrdered t (ev :: later) → clockOrdered t' later) ∧
        0 ≤ currentSaveNumber (data (step h ev st)) ∧
        wellNumbered (currentSaveNumber (data (step h ev st))) t'
                     (snapshots (data (step h ev st))).
Proof.
  intros Hpos Hwn Hclock. destruct ev as [e root prompt| |tree|b]; simpl.
  - destruct Hclock as [Hle _]. exists (now e). split; [done|]. split; [by intros later [_ ?]|].
    destruct (decide (cacheDirectory st = "")) as [Hc|Hc].
    + rewrite createProjectSnapshot_uninitialised by done.
      split; [done|]. eapply wellNumbered_mono; [| |done]; lia.
    + destruct (createProjectSnapshot_inv h e root prompt st Hc)
        as (resp & st' & -> & _ & Hn & _ & _ & _ & _ & Hout). simpl.
      rewrite Hn. split; [lia|].
      destruct Hout as [[_ ->]|(snapshot & _ & Hts & Hsn & _ & _ & -> & _)].
      * eapply wellNumbered_mono; [| |done]; lia.
      * assert (wellNumbered (currentSaveNumber (data st) + 1) (now e)
                             (snapshots (data st) ++ [snapshot]))
          by (by apply (wellNumbered_snoc _ t)).
        unfold appended. destruct (autoCleanup (data st)); [|done].
        eapply wellNumbered_submseteq; [apply retained_submseteq|done].
  - exists t. split; [done|]. split; [done|].
    destruct (cleanupOldSnapshots_spec st) as (s' & Hrun & _ & Hd).
    rewrite Hrun. simpl. rewrite Hd. simpl.
    split; [done|]. eapply wellNumbered_submseteq; [apply retained_submseteq|done].
  - exists t. by split_and!.
  - exists t. by split_and!.
Qed.

Lemma run_wellNumbered h events : ∀ st t,
  0 ≤ currentSaveNumber (data st) →
  wellNumbered (currentSaveNumber (data st)) t (snapshots (data st)) →
  clockOrdered t events →
  ∃ t', 0 ≤ currentSaveNumber (data (run h events st)) ∧
        wellNumbered (currentSaveNumber (data (run h events st))) t'
                     (snapshots (data (run h events st))).
Proof.
  induction events as [|ev later IH]; intros st t Hpos Hwn Hclock; simpl.
  - by exists t.
  - destruct (step_wellNumbered h ev st t Hpos Hwn) as (t' & _ & Hlater & Hpos' & Hwn').
    { destruct ev; simpl in *; tauto. }
    by apply (IH _ t'); [..|apply Hlater].
Qed.

(** C4, as the code has it.  Take a store that starts empty and any
    history of calls of [createProjectSnapshot] (failing ones included),
    runs of retention, edits of the project and changes of the store's
    permissions, made under a clock that never goes back.  The save numbers
    held by the store are pairwise distinct and lie within
    [1..currentSaveNumber]; of two snapshots held the one with the larger
    save number is never stamped earlier, and the one stamped later has the
    larger save number.  The numbers need not be all of
    [1..currentSaveNumber]: they are exactly when the store holds as many
    snapshots as the counter says. *)
Theorem C4_save_numbers_of_a_history h cache tree t0 events :
  clockOrdered t0 events →
  let st := run h events (bound cache tree) in
  NoDup (held st) ∧
  (∀ n, n ∈ held st → 1 ≤ n ≤ currentSaveNumber (data st)) ∧
  (∀ a b, a ∈ snapshots (data st) → b ∈ snapshots (data st) →
          (ps_saveNumber a < ps_saveNumber b → ps_timestamp a ≤ ps_timestamp b) ∧
          (ps_timestamp a < ps_timestamp b → ps_saveNumber a < ps_saveNumber b)) ∧
  (Z.of_nat (length (held st)) = currentSaveNumber (data st) ↔
   held st ≡ₚ seqZ 1 (currentSaveNumber (data st))).
Proof.
  intros Hclock st.
  destruct (run_wellNumbered h events (bound cache tree) t0)
    as (t' & Hpos & Hnd & Hin & Hts & Hord).
  { simpl. lia. }
  { simpl. split_and!; [apply NoDup_nil_2| intros ? []%elem_of_nil..
                        | intros ? ? []%elem_of_nil]. }
  { done. }
  fold st in Hpos, Hnd, Hin, Hts, Hord.
  assert (Hbound : ∀ n, n ∈ held st → 1 ≤ n ≤ currentSaveNumber (data st)).
  { intros n (s & -> & Hs)%list_elem_of_fmap. by apply Hin. }
  split_and!; [done|done| |].
  - intros a b Ha Hb. split; [by apply Hord|]. intros Hlt.
    destruct (Z.lt_trichotomy (ps_saveNumber a) (ps_saveNumber b)) as [?|[Heq|Hgt]]; [done| |].
    + assert (a = b); [|subst; lia].
      apply list_elem_of_lookup in Ha as [i Hi]. apply list_elem_of_lookup in Hb as [j Hj].
      assert (i = j); [|congruence].
      eapply NoDup_lookup; [exact Hnd| |]; rewrite list_lookup_fmap.
      * by rewrite Hi.
      * by rewrite Hj, Heq.
    + specialize (Hord b a Hb Ha Hgt). lia.
  - split.
    + intros Hlen. apply submseteq_length_Permutation.
      * apply NoDup_submseteq; [done|]. intros n Hn. apply elem_of_seqZ.
        specialize (Hbound n Hn). lia.
      * rewrite length_seqZ. lia.
    + intros Hperm. rewrite Hperm, length_seqZ. lia.
Qed.

(** C4, witness: the history with a failing call. *)
Lemma C4_save_numbers_witness :
  NoDup (held (run host gapHistory fresh)) ∧
  (∀ n, n ∈ held (run host gapHistory fresh) →
        1 ≤ n ≤ currentSaveNumber (data (run host gapHistory fresh))) ∧
  (∀ a b, a ∈ snapshots (data (run host gapHistory fresh)) →
          b ∈ snapshots (data (run host gapHistory fresh)) →
          (ps_saveNumber a < ps_saveNumber b → ps_timestamp a ≤ ps_timestamp b) ∧
          (ps_timestamp a < ps_timestamp b → ps_saveNumber a < ps_saveNumber b)) ∧
  (Z.of_nat (length (held (run host gapHistory fresh)))
   = currentSaveNumber (data (run host gapHistory fresh)) ↔
   held (run host gapHistory fresh)
   ≡ₚ seqZ 1 (currentSaveNumber (data (run host gapHistory fresh)))).
Proof.
  apply (C4_save_numbers_of_a_history host "/proj/.CodeRecoder"
           [("a.txt", File "hello" 5)] 0 gapHistory).
  vm_compute. repeat split; discriminate.
Defined.

(** C4, counterexample: a hundred and one successful calls on a fresh
    store, each at a later time than the one before.  Retention (cap
    [maxSnapshots = 100]) removes the oldest snapshot: the counter is 101
    and the store holds the save numbers 2 to 101, without number 1. *)
Lemma C4_counterexample_retention :
  clockOrdered 0 longHistory ∧
  currentSaveNumber (data (run host longHistory fresh)) = 101 ∧
  length (held (run host longHistory fresh)) = 100%nat ∧
  (1 ∉ held (run host longHistory fresh)) ∧
  ¬ (held (run host longHistory fresh) ≡ₚ seqZ 1 101).
Proof.
  assert (Hheld : held (run host longHistory fresh) = reverse (seqZ 2 100))
    by (vm_compute; reflexivity).
  assert (Hno : 1 ∉ held (run host longHistory fresh)).
  { rewrite Hheld. intros H%elem_of_reverse%elem_of_seqZ. lia. }
  split_and!.
  - vm_compute. repeat split; discriminate.
  - vm_compute; reflexivity.
  - vm_compute; reflexivity.
  - done.
  - intros Hperm. apply Hno. rewrite Hperm. apply elem_of_seqZ. lia.
Qed.

(** A call that fails after the counter was incremented leaves a gap: the
    second call finds the store directory not writable and answers a
    failure; the store then holds the save numbers 1 and 3 under a counter
    of 3. *)
Lemma failed_call_leaves_a_gap :
  success (response (createProjectSnapshot host (env (10 * day + 1) "s2") "/proj" "again"
                       (run host (take 2 gapHistory) fresh)).1) = false ∧
  held (run host gapHistory fresh) = [1; 3] ∧
  currentSaveNumber (data (run host gapHistory fresh)) = 3.
Proof.
  split_and!; vm_compute; reflexivity.
Qed.

(** ** C3: the restore planner *)

Lemma same_number l a b :
  NoDup (ps_saveNumber <$> l) → a ∈ l → b ∈ l → ps_saveNumber a = ps_saveNumber b → a = b.
Proof.
  intros Hnd [i Hi]%list_elem_of_lookup [j Hj]%list_elem_of_lookup Heq.
  assert (i = j); [|congruence].
  eapply NoDup_lookup; [exact Hnd| |]; rewrite list_lookup_fmap.
  - by rewrite Hi.
  - by rewrite Hj, Heq.
Qed.

Lemma bySaveNumber_Some i l s : bySaveNumber i l = Some s → s ∈ l ∧ ps_saveNumber s = i.
Proof.
  unfold bySaveNumber. induction l as [|x l IH]; simpl; [done|].
  destruct (ps_saveNumber x =? i) eqn:Hx.
  - intros [= ->]. split; [apply list_elem_of_here | by apply Z.eqb_eq].
  - intros [? ?]%IH. split; [by apply list_elem_of_further | done].
Qed.

Lemma bySaveNumber_None i l s : bySaveNumber i l = None → s ∈ l → ps_saveNumber s ≠ i.
Proof.
  unfold bySaveNumber. induction l as [|x l IH]; simpl; [by intros _ ?%elem_of_nil|].
  destruct (ps_saveNumber x =? i) eqn:Hx; [done|]. apply Z.eqb_neq in Hx.
  intros Hnone [->|Hs]%elem_of_cons; [done | by apply IH].
Qed.

Lemma bySaveNumber_held l s :
  NoDup (ps_saveNumber <$> l) → s ∈ l → bySaveNumber (ps_saveNumber s) l = Some s.
Proof.
  intros Hnd Hs. destruct (bySaveNumber (ps_saveNumber s) l) as [s'|] eqn:Hfind.
  - apply bySaveNumber_Some in Hfind as [Hs' Heq]. f_equal. by eapply same_number.
  - by eapply bySaveNumber_None in Hfind.
Qed.

Lemma is_full_false s : is_full s = false ↔ ps_type s = incremental.
Proof.
  unfold is_full. rewrite bool_decide_eq_false. by destruct (ps_type s).
Qed.

Lemma is_full_true s : is_full s = true ↔ ps_type s = full.
Proof. unfold is_full. by rewrite bool_decide_eq_true. Qed.

Lemma countdown_S (n : nat) :
  countdown (Z.of_nat (S n)) = Z.of_nat (S n) :: countdown (Z.of_nat n).
Proof.
  unfold countdown. rewrite !Nat2Z.id, seq_S, reverse_app. reflexivity.
Qed.

Lemma countup_seqZ lo hi : countup lo hi = seqZ lo (hi - lo + 1).
Proof.
  unfold countup, seqZ. apply list_fmap_ext. intros _ k _. lia.
Qed.

(** The backward search finds the nearest full snapshot below the target
    that holds a file, if there is one. *)
Lemma searchFull_countdown st (n : nat) :
  NoDup (held st) →
  ∃ r, searchFull (countdown (Z.of_nat n)) st = (Ok r, st) ∧
       match r with
       | Some B =>
           B ∈ snapshots (data st) ∧ usableFull st B = true ∧ 1 ≤ ps_saveNumber B ≤ Z.of_nat n ∧
           ∀ F, F ∈ snapshots (data st) → usableFull st F = true →
                1 ≤ ps_saveNumber F ≤ Z.of_nat n → ps_saveNumber F ≤ ps_saveNumber B
       | None =>
           ∀ F, F ∈ snapshots (data st) → usableFull st F = true →
                ¬ (1 ≤ ps_saveNumber F ≤ Z.of_nat n)
       end.
Proof.
  intros Hnd. induction n as [|n (r & Hrun & Hr)].
  - exists None. split; [done|]. intros F _ _. lia.
  - rewrite countdown_S.
    change (searchFull (?i :: ?rest)) with
      (do d <- gets data;
       match bySaveNumber i (snapshots d) with
       | Some snapshot =>
           if is_full snapshot then
             do files <- getSnapshotFileList (ps_id snapshot);
             if nonempty files then ret (Some snapshot) else searchFull rest
           else searchFull rest
       | None => searchFull rest
       end).
    unfold bind at 1, gets at 1.
    assert (Hskip : (∀ F, F ∈ snapshots (data st) → usableFull st F = true →
                          ps_saveNumber F ≠ Z.of_nat (S n)) →
                    ∃ r, searchFull (countdown (Z.of_nat n)) st = (Ok r, st) ∧
                         match r with
                         | Some B =>
                             B ∈ snapshots (data st) ∧ usableFull st B = true ∧
                             1 ≤ ps_saveNumber B ≤ Z.of_nat (S n) ∧
                             ∀ F, F ∈ snapshots (data st) → usableFull st F = true →
                                  1 ≤ ps_saveNumber F ≤ Z.of_nat (S n) → ps_saveNumber F ≤ ps_saveNumber B
                         | None =>
                             ∀ F, F ∈ snapshots (data st) → usableFull st F = true →
                                  ¬ (1 ≤ ps_saveNumber F ≤ Z.of_nat (S n))
                         end).
    { intros Hnot. exists r. split; [done|]. destruct r as [B|].
      - destruct Hr as (HB & HuB & Hrange & Hmax).
        split; [done|]. split; [done|]. split; [lia|].
        intros F HF HuF HrF. specialize (Hnot F HF HuF). apply Hmax; [done|done|lia].
      - intros F HF HuF HrF. specialize (Hnot F HF HuF).
        apply (Hr F HF HuF). lia. }
    destruct (bySaveNumber (Z.of_nat (S n)) (snapshots (data st))) as [s|] eqn:Hfind.
    + apply bySaveNumber_Some in Hfind as [Hs Hsn].
      destruct (is_full s) eqn:Hfull.
      * unfold bind at 1, getSnapshotFileList at 1, gets at 1.
        fold (usable st s). destruct (usable st s) eqn:Hus.
        -- exists (Some s). split; [done|]. split; [done|].
           split; [unfold usableFull; by rewrite Hfull, Hus|].
           split; [lia|]. intros F _ _ ?. lia.
        -- apply Hskip. intros F HF HuF HnF.
           assert (F = s) by (eapply same_number; [exact Hnd|done|done|lia]). subst F.
           unfold usableFull in HuF. by rewrite Hfull, Hus in HuF.
      * apply Hskip. intros F HF HuF HnF.
        assert (F = s) by (eapply same_number; [exact Hnd|done|done|lia]). subst F.
        unfold usableFull in HuF. by rewrite Hfull in HuF.
    + apply Hskip. intros F HF _. by eapply bySaveNumber_None.
Qed.

(** The forward loop over a range without a usable full snapshot appends
    the incremental snapshots of the range, in the order of their save
    numbers. *)
Lemma extendChain_range st (k : nat) : ∀ lo chain,
  NoDup (held st) →
  (∀ F, F ∈ snapshots (data st) → usableFull st F = true →
        ¬ (lo ≤ ps_saveNumber F < lo + Z.of_nat k)) →
  ∃ incs,
    extendChain (seqZ lo (Z.of_nat k)) chain st = (Ok (chain ++ incs), st) ∧
    StronglySorted Z.lt (ps_saveNumber <$> incs) ∧
    (∀ s, s ∈ incs ↔
          s ∈ snapshots (data st) ∧ ps_type s = incremental ∧ lo ≤ ps_saveNumber s < lo + Z.of_nat k) ∧
    ((∀ n, lo ≤ n < lo + Z.of_nat k →
           ∃ s, s ∈ snapshots (data st) ∧ ps_saveNumber s = n ∧ ps_type s = incremental) →
     ps_saveNumber <$> incs = seqZ lo (Z.of_nat k)).
Proof.
  induction k as [|k IH]; intros lo chain Hnd Hnone.
  - exists []. rewrite app_nil_r. split_and!; [done|constructor| |done].
    intros s. split; [by intros ?%elem_of_nil | lia].
  - rewrite seqZ_cons by lia.
    replace (Z.pred (Z.of_nat (S k))) with (Z.of_nat k) by lia.
    change (extendChain (?i :: ?rest) ?c) with
      (do d <- gets data;
       match bySaveNumber i (snapshots d) with
       | Some snapshot =>
           if is_full snapshot then
             do files <- getSnapshotFileList (ps_id snapshot);
             if nonempty files then extendChain rest [snapshot]
             else extendChain rest c
           else extendChain rest (c ++ [snapshot])
       | None => extendChain rest c
       end).
    unfold bind at 1, gets at 1.
    assert (Hnone' : ∀ F, F ∈ snapshots (data st) → usableFull st F = true →
                          ¬ (Z.succ lo ≤ ps_saveNumber F < Z.succ lo + Z.of_nat k)).
    { intros F HF HuF ?. apply (Hnone F HF HuF). lia. }
    assert (Hskip : (∀ s, s ∈ snapshots (data st) → ps_type s = incremental → ps_saveNumber s ≠ lo) →
                    ∃ incs,
                      extendChain (seqZ (Z.succ lo) (Z.of_nat k)) chain st
                      = (Ok (chain ++ incs), st) ∧
                      StronglySorted Z.lt (ps_saveNumber <$> incs) ∧
                      (∀ s, s ∈ incs ↔
                            s ∈ snapshots (data st) ∧ ps_type s = incremental ∧
                            lo ≤ ps_saveNumber s < lo + Z.of_nat (S k)) ∧
                      ((∀ n, lo ≤ n < lo + Z.of_nat (S k) →
                             ∃ s, s ∈ snapshots (data st) ∧ ps_saveNumber s = n ∧
                                  ps_type s = incremental) →
                       ps_saveNumber <$> incs = lo :: seqZ (Z.succ lo) (Z.of_nat k))).
    { intros Hno. destruct (IH (Z.succ lo) chain Hnd Hnone') as (incs & Hrun & Hsorted & Hmem & _).
      exists incs. split_and!; [done|done| |].
      - intros s. rewrite Hmem. split.
        + intros (? & ? & ?). split_and!; [done|done|lia|lia].
        + intros (Hs & Hinc & ?). split_and!; [done|done| |lia].
          specialize (Hno s Hs Hinc). lia.
      - intros Hall. destruct (Hall lo) as (s & Hs & Hsn & Hinc); [lia|].
        by destruct (Hno s Hs Hinc). }
    destruct (bySaveNumber lo (snapshots (data st))) as [s|] eqn:Hfind.
    + apply bySaveNumber_Some in Hfind as [Hs Hsn].
      destruct (is_full s) eqn:Hfull.
      * assert (Hus : usable st s = false).
        { destruct (usable st s) eqn:Hus; [|done].
          destruct (Hnone s Hs); [|lia]. unfold usableFull. by rewrite Hfull, Hus. }
        unfold bind at 1, getSnapshotFileList at 1, gets at 1.
        fold (usable st s). rewrite Hus.
        apply Hskip. intros s' Hs' Hinc' Hsn'.
        assert (s' = s) by (eapply same_number; [exact Hnd|done|done|lia]). subst s'.
        apply is_full_true in Hfull. congruence.
      * apply is_full_false in Hfull.
        destruct (IH (Z.succ lo) (chain ++ [s]) Hnd Hnone')
          as (incs & Hrun & Hsorted & Hmem & Hcontig).
        exists (s :: incs). split_and!.
        -- rewrite Hrun. by rewrite <- app_assoc.
        -- rewrite fmap_cons. constructor; [done|].
           apply Forall_forall. intros n (s' & -> & Hs')%list_elem_of_fmap.
           apply Hmem in Hs'. lia.
        -- intros s'. rewrite elem_of_cons, Hmem. split.
           ++ intros [->|(? & ? & ?)]; split_and!; try done; lia.
           ++ intros (Hs' & Hinc' & ?).
              destruct (decide (ps_saveNumber s' = lo)) as [Heq|Hne].
              ** left. eapply same_number; [exact Hnd|done|done|lia].
              ** right. split_and!; [done|done|lia|lia].
        -- intros Hall. rewrite fmap_cons, Hsn. f_equal. apply Hcontig.
           intros n Hn. apply Hall. lia.
    + apply Hskip. intros s Hs _. by eapply bySaveNumber_None.
Qed.

Lemma last_of_sorted (l : list ProjectSnapshot) x :
  StronglySorted Z.lt (ps_saveNumber <$> l) → x ∈ l → (∀ y, y ∈ l → ps_saveNumber y ≤ ps_saveNumber x) → last l = Some x.
Proof.
  induction l as [|a l IH]; [by intros _ ?%elem_of_nil|].
  rewrite fmap_cons. intros [Hsorted Hall]%StronglySorted_inv Hx Hmax.
  destruct l as [|b l]; [apply list_elem_of_singleton in Hx; by subst|].
  rewrite last_cons_cons. apply elem_of_cons in Hx as [->|Hx].
  - rewrite fmap_cons in Hall. apply Forall_cons_1 in Hall as [Hlt _].
    specialize (Hmax b (list_elem_of_further _ _ _ (list_elem_of_here _ _))). lia.
  - apply IH; [done|done|]. intros y Hy. apply Hmax. by apply list_elem_of_further.
Qed.




(** The plan across a gap: after the failing call of [gapHistory] the
    store holds the snapshots 1 and 3, and the plan for snapshot 3 is
    1, 3. *)
Lemma plan_across_a_gap :
  (ps_saveNumber <$> restorePlan (run host gapHistory fresh) "s3") = [1; 3].
Proof. vm_compute; reflexivity. Qed.

(** ** C9: the change detector *)

Section Detector.
Context (h : Host).

(** A loop whose body is wrapped in [try] returns. *)
Lemma collect_returns {A} (l : list A) (body : A → M State bool) s :
  ∃ kept s', collect l body s = (Ok kept, s').
Proof.
  revert s. induction l as [|x l IH]; intros s; simpl.
  - by eexists _, _.
  - unfold bind at 1. unfold try_catch.
    destruct (body x s) as [[keep|err] s1].
    + unfold bind at 1. destruct (IH s1) as (rest & s2 & ->). by eexists _, _.
    + unfold ret at 1. unfold bind at 1. destruct (IH s1) as (rest & s2 & ->).
      by eexists _, _.
Qed.

Lemma getFilesByHashComparison_returns root s :
  ∃ files s', getFilesByHashComparison h root s = (Ok files, s').
Proof.
  unfold getFilesByHashComparison. unfold bind at 1, gets at 1.
  unfold bind at 1.
  match goal with |- context [collect ?l ?b s] =>
    destruct (collect_returns l b s) as (hits & s' & ->) end.
  by eexists _, _.
Qed.

Lemma getFilesByStatsComparison_returns root s :
  ∃ files s', getFilesByStatsComparison h root s = (Ok files, s').
Proof.
  unfold getFilesByStatsComparison, getAllProjectFiles. unfold bind at 1, gets at 1.
  match goal with |- context [collect ?l ?b s] =>
    destruct (collect_returns l b s) as (hits & s' & ->) end.
  by eexists _, _.
Qed.

Lemma getRecentlyModifiedFiles_returns e root range s :
  ∃ files s', getRecentlyModifiedFiles h e root range s = (Ok files, s').
Proof.
  unfold getRecentlyModifiedFiles, getAllProjectFiles. unfold bind at 1, gets at 1.
  match goal with |- context [collect ?l ?b s] =>
    destruct (collect_returns l b s) as (hits & s' & ->) end.
  by eexists _, _.
Qed.

(** C9.  [getModifiedFiles] is the detector of the specification: it runs
    the VCS status, the hash comparison, the stat comparison and the
    recently-modified fallback in this order, answers with the result of
    the first layer that yields a non-empty set without running the layers
    after it, and sets [lastScanTime] to now.  It always returns, and when
    the VCS layer yields something the state is the one before the call
    but for [lastScanTime]: no baseline has been touched. *)
Theorem C9_getModifiedFiles_is_the_prioritised_fallback e root st :
  getModifiedFiles h e root st = changeDetectorSpec h e root st ∧
  (∃ files st', getModifiedFiles h e root st = (Ok files, st')
                ∧ lastScanTime (data st') = now e) ∧
  (∀ gitFiles, (getGitModifiedFiles h e root st).1 = Ok gitFiles →
               nonempty gitFiles = true →
               getModifiedFiles h e root st
               = (Ok gitFiles, set_data (with_lastScanTime (now e)) st)).
Proof.
  split; [|split].
  - unfold getModifiedFiles, changeDetectorSpec, detectorLayers, firstNonEmpty.
    unfold bind, ret, touchScanTime, modify.
    destruct (getGitModifiedFiles h e root st) as [[gitFiles|?] s1]; [|done].
    destruct (nonempty gitFiles); [done|].
    destruct (getFilesByHashComparison h root s1) as [[hashFiles|?] s2]; [|done].
    destruct (nonempty hashFiles); [done|].
    destruct (getFilesByStatsComparison h root s2) as [[statsFiles|?] s3]; [|done].
    destruct (nonempty statsFiles); [done|].
    destruct (getRecentlyModifiedFiles h e root hour s3) as [[recentFiles|?] s4]; [|done].
    by destruct recentFiles.
  - unfold getModifiedFiles.
    unfold bind at 1. unfold getGitModifiedFiles at 1. unfold ret at 1.
    destruct (nonempty _); [by eexists _, _|].
    unfold bind at 1.
    destruct (getFilesByHashComparison_returns root st) as (hashFiles & s2 & ->).
    destruct (nonempty hashFiles); [by eexists _, _|].
    unfold bind at 1.
    destruct (getFilesByStatsComparison_returns root s2) as (statsFiles & s3 & ->).
    destruct (nonempty statsFiles); [by eexists _, _|].
    unfold bind at 1.
    destruct (getRecentlyModifiedFiles_returns e root hour s3) as (recentFiles & s4 & ->).
    destruct (nonempty recentFiles); by eexists _, _.
  - intros gitFiles Hgit Hne. unfold getModifiedFiles.
    unfold bind at 1.
    destruct (getGitModifiedFiles h e root st) as [rg sg] eqn:Hg.
    cbn [fst] in Hgit. subst rg.
    assert (sg = st) as -> by (unfold getGitModifiedFiles, ret in Hg; congruence).
    by rewrite Hne.
Qed.

End Detector.

(** ** The restore deletes nothing *)

Section KeepsFile.
Context (st0 : State) (p : list string).

#[global] Instance keepsFile_refl : Reflexive (keepsFile st0 p).
Proof. intros s _. split; [reflexivity|done]. Qed.

#[global] Instance keepsFile_trans : Transitive (keepsFile st0 p).
Proof.
  intros s1 s2 s3 H12 H23 Hs1.
  destruct (H12 Hs1) as [Hsame12 Hf12].
  destruct H23 as [Hsame23 Hf23].
  { destruct Hsame12 as (_ & _ & -> & _). done. }
  split; [by etrans|]. intros c m Hget. eauto.
Qed.







End KeepsFile.



(** C10.  Whatever [restoreProjectSnapshot] answers, the manager's data
    (snapshot list, file baselines, [currentSaveNumber],
    [lastFullSaveNumber], all of it) and the index document are what they
    were before the call, and so are the snapshot directories: the call
    only writes below the project root, and the baselines are not
    refreshed. *)
Theorem C10_restoreProjectSnapshot_keeps_the_store e snapshotId st :
  let st' := (restoreProjectSnapshot e snapshotId st).2 in
  data st' = data st ∧
  snapshots (data st') = snapshots (data st) ∧
  fileBaselines (data st') = fileBaselines (data st) ∧
  currentSaveNumber (data st') = currentSaveNumber (data st) ∧
  lastFullSaveNumber (data st') = lastFullSaveNumber (data st) ∧
  indexFile st' = indexFile st ∧
  snapshotDirs st' = snapshotDirs st.
Proof.
  assert (Hsame : preserves sameStore (restoreProjectSnapshot e snapshotId)).
  { unfold restoreProjectSnapshot.
    apply (preserves_try_catch sameStore); [|intros _; by apply (preserves_ret sameStore)].
    apply (preserves_bind sameStore); [by apply (preserves_gets sameStore)|]. intros d.
    destruct (Js.find _ _) as [snapshot|]; [|by apply (preserves_ret sameStore)].
    destruct (is_full snapshot).
    - apply (preserves_bind sameStore); [apply getSnapshotFileList_sameStore|].
      intros files. destruct (negb _); [by apply (preserves_ret sameStore)|].
      apply (preserves_bind sameStore); [apply mirrorBack_sameStore|].
      intros _. by apply (preserves_ret sameStore).
    - apply (preserves_bind sameStore); [apply buildRestoreChain_sameStore|].
      intros chain.
      apply (preserves_bind sameStore); [|intros _; by apply (preserves_ret sameStore)].
      apply (preserves_for_each sameStore); intros c.
      apply restoreChainElement_sameStore. }
  destruct (restoreProjectSnapshot e snapshotId st) as [r st'] eqn:Hrun. simpl.
  destruct (Hsame _ _ _ Hrun) as (_ & Hd & Hs & Hi & _).
  rewrite Hd. done.
Qed.

End ProjectStoreSpec.

(* ===================================================================== *)
(** * Lists and loops: facts *)
(* ===================================================================== *)

Module ListFacts.

Lemma find_Some {A} (p : A → bool) l x : Js.find p l = Some x → x ∈ l ∧ p x = true.
Proof.
  induction l as [|y l IH]; simpl; [done|].
  destruct (p y) eqn:Hy.
  - intros [= ->]. split; [apply list_elem_of_here | done].
  - intros [? ?]%IH. split; [by apply list_elem_of_further | done].
Qed.

Lemma find_None {A} (p : A → bool) l x : Js.find p l = None → x ∈ l → p x = false.
Proof.
  induction l as [|y l IH]; simpl; [by intros _ ?%elem_of_nil|].
  destruct (p y) eqn:Hy; [done|].
  intros Hnone [->|Hx]%elem_of_cons; [done | by apply IH].
Qed.

Lemma find_is_Some {A} (p : A → bool) l x : x ∈ l → p x = true → is_Some (Js.find p l).
Proof.
  intros Hx Hp. destruct (Js.find p l) eqn:Hfind; [eauto|].
  rewrite (find_None p l x Hfind Hx) in Hp. discriminate.
Qed.

Lemma find_app_fresh {A} (p : A → bool) l x :
  (∀ y, y ∈ l → p y = false) → p x = true → Js.find p (l ++ [x]) = Some x.
Proof.
  induction l as [|y l IH]; simpl; intros Hl Hx; [by rewrite Hx|].
  rewrite (Hl y) by apply list_elem_of_here.
  apply IH; [|done]. intros z Hz. apply Hl. by apply list_elem_of_further.
Qed.

Section Sorting.
Context {A : Type} (cmp : A → A → Z).

(** [x] may stand before [y]. *)
Let before (x y : A) : Prop := cmp x y ≤ 0.

Hypothesis total : ∀ x y, 0 < cmp x y → cmp y x ≤ 0.
Hypothesis trans : ∀ x y z, cmp x y ≤ 0 → cmp y z ≤ 0 → cmp x z ≤ 0.

Lemma sort_insert_elem_of x y l : y ∈ Js.sort_insert cmp x l ↔ y = x ∨ y ∈ l.
Proof.
  induction l as [|z l IH]; simpl.
  - rewrite list_elem_of_singleton. split; [auto | intros [?|?%elem_of_nil]; done].
  - destruct (0 <? cmp x z); rewrite !elem_of_cons; [rewrite IH|]; tauto.
Qed.

Lemma sort_insert_sorted x l :
  StronglySorted before l → StronglySorted before (Js.sort_insert cmp x l).
Proof.
  induction l as [|y l IH]; simpl; intros Hs.
  - repeat constructor.
  - apply StronglySorted_inv in Hs as [Hs Hall].
    destruct (0 <? cmp x y) eqn:Hxy.
    + apply Z.ltb_lt in Hxy. constructor; [by apply IH|].
      apply Forall_forall. intros z [->|Hz]%sort_insert_elem_of.
      * by apply total.
      * by eapply Forall_forall in Hall.
    + apply Z.ltb_ge in Hxy. constructor; [by constructor|].
      constructor; [done|].
      eapply Forall_impl; [exact Hall|]. intros z Hz. by eapply trans.
Qed.

Lemma sort_sorted l : StronglySorted before (Js.sort cmp l).
Proof.
  induction l as [|x l IH]; simpl; [constructor | by apply sort_insert_sorted].
Qed.

End Sorting.

Lemma sorted_impl {A} (R R' : A → A → Prop) l :
  (∀ x y, R x y → R' x y) → StronglySorted R l → StronglySorted R' l.
Proof.
  intros HR. induction 1 as [|x l Hs IH Hall]; constructor; [done|].
  eapply Forall_impl; [exact Hall | auto].
Qed.

Lemma sort_descending {A} (rank : A → Z) l :
  StronglySorted (λ a b, rank b ≤ rank a) (Js.sort (λ a b, rank b - rank a) l).
Proof.
  eapply sorted_impl; [|apply sort_sorted]; simpl; intros; lia.
Qed.

Lemma sort_ascending {A} (rank : A → Z) l :
  StronglySorted (λ a b, rank a ≤ rank b) (Js.sort (λ a b, rank a - rank b) l).
Proof.
  eapply sorted_impl; [|apply sort_sorted]; simpl; intros; lia.
Qed.

Lemma sort_permutation {A} (cmp : A → A → Z) l : Js.sort cmp l ≡ₚ l.
Proof.
  induction l as [|x l IH]; simpl; [done|].
  assert (Hins : ∀ k, Js.sort_insert cmp x k ≡ₚ x :: k).
  { induction k as [|y k IHk]; simpl; [done|].
    destruct (0 <? cmp x y); [|done]. rewrite IHk. apply Permutation_swap. }
  by rewrite Hins, IH.
Qed.

Lemma slice_to_end_length {A} (l : list A) n :
  0 < n → Z.of_nat (length (Js.slice_to_end l (- n))) ≤ n.
Proof.
  intros Hn. unfold Js.slice_to_end, Js.clamp_index.
  rewrite length_drop. destruct (- n <? 0) eqn:E; [|apply Z.ltb_ge in E; lia]. lia.
Qed.

Lemma slice_to_end_sublist {A} (l : list A) n : Js.slice_to_end l n `sublist_of` l.
Proof. apply sublist_drop. Qed.

Lemma slice_0_take {A} (l : list A) k :
  Js.slice l 0 k = take (Z.to_nat (Js.clamp_index (Z.of_nat (length l)) k)) l.
Proof.
  unfold Js.slice. cbv zeta.
  replace (Js.clamp_index (Z.of_nat (length l)) 0) with 0
    by (unfold Js.clamp_index; simpl; lia).
  simpl. by rewrite Z.sub_0_r.
Qed.

Lemma slice_split {A} (l : list A) k : Js.slice l 0 k ++ Js.slice_to_end l k = l.
Proof. rewrite slice_0_take. unfold Js.slice_to_end. apply take_drop. Qed.

Lemma elem_of_concat {A} (x : A) (ls : list (list A)) :
  x ∈ concat ls ↔ ∃ l, x ∈ l ∧ l ∈ ls.
Proof.
  induction ls as [|l ls IH]; simpl.
  - split; [by intros ?%elem_of_nil | by intros (? & _ & ?%elem_of_nil)].
  - rewrite elem_of_app, IH. split.
    + intros [?|(k & ? & ?)]; [exists l | exists k]; split; try done;
        [apply list_elem_of_here | by apply list_elem_of_further].
    + intros (k & Hx & [->|Hk]%elem_of_cons); [by left | right; by exists k].
Qed.

Lemma concat_length_bound {A} (ls : list (list A)) n :
  0 ≤ n → Forall (λ l, Z.of_nat (length l) ≤ n) ls →
  Z.of_nat (length (concat ls)) ≤ n * Z.of_nat (length ls).
Proof.
  intros Hn. induction 1 as [|l ls Hl _ IH]; simpl; [lia|].
  rewrite length_app. lia.
Qed.

End ListFacts.

Module LoopFacts.

Section Loops.
Context {S : Type}.

Lemma traverse_cons {A B} (f : A → M S B) x l :
  traverse f (x :: l) = bind (f x) (λ y, bind (traverse f l) (λ ys, ret (y :: ys))).
Proof. reflexivity. Qed.

Lemma fold_m_cons {A B} (f : B → A → M S B) x l acc :
  fold_m f (x :: l) acc = bind (f acc x) (λ acc', fold_m f l acc').
Proof. reflexivity. Qed.

(** A loop whose body only reads returns one result per element. *)
Lemma traverse_reads {A B} (f : A → M S B) (P : A → B → Prop) l s :
  (∀ x, x ∈ l → ∃ y, f x s = (Ok y, s) ∧ P x y) →
  ∃ ys, traverse f l s = (Ok ys, s) ∧ Forall2 P l ys.
Proof.
  induction l as [|x l IH]; intros Hf.
  - exists []. split; [done | constructor].
  - destruct (Hf x) as (y & Hy & HP); [apply list_elem_of_here|].
    destruct IH as (ys & Hys & Hall); [intros z Hz; apply Hf; by apply list_elem_of_further|].
    exists (y :: ys). rewrite traverse_cons. unfold bind. rewrite Hy, Hys.
    split; [done | by constructor].
Qed.

Lemma preserves_fold_m (R : S → S → Prop) `{!Reflexive R, !Transitive R}
  {A B} (f : B → A → M S B) l acc :
  (∀ b x, x ∈ l → preserves R (f b x)) → preserves R (fold_m f l acc).
Proof.
  revert acc. induction l as [|x l IH]; intros acc Hf.
  - apply (preserves_ret R).
  - rewrite fold_m_cons. apply (preserves_bind R); [apply Hf; apply list_elem_of_here|].
    intros b. apply IH. intros b' y Hy. apply Hf. by apply list_elem_of_further.
Qed.

End Loops.

Lemma fold_m_returns {S A B} (R : S → S → Prop) `{!Reflexive R, !Transitive R}
  (f : B → A → M S B) l acc :
  (∀ b x, x ∈ l → returns R (f b x)) → returns R (fold_m f l acc).
Proof.
  revert acc. induction l as [|x l IH]; intros acc Hf s.
  - by exists acc, s.
  - destruct (Hf acc x (list_elem_of_here _ _) s) as (b & s1 & H1 & HR1).
    destruct (IH b (λ b' y Hy, Hf b' y (list_elem_of_further _ _ _ Hy)) s1)
      as (b' & s2 & H2 & HR2).
    exists b', s2. rewrite fold_m_cons. unfold bind. rewrite H1.
    split; [done | by etrans].
Qed.

End LoopFacts.

(* ===================================================================== *)
(** * The file snapshot store: further properties *)
(* ===================================================================== *)

Module FileStoreFacts.
Import FileStore FileStoreExamples FileStoreSpec ListFacts LoopFacts.

Section Guard.
Context (h : Host).


(** ** The guard *)

Lemma validatePath_system targetPath allowedRoot pattern :
  pattern ∈ sensitivePatterns →
  Js.startsWith (key h targetPath) pattern = true →
  valid (validatePath h targetPath allowedRoot) = false.
Proof.
  intros Hin Hstart. unfold validatePath. fold (key h targetPath).
  destruct (Js.includes _ ".."); [done|].
  destruct (find_is_Some (λ p, Js.startsWith (key h targetPath) p) sensitivePatterns pattern)
    as [found ->]; done.
Qed.

Lemma statSize_readonly p st r st' : statSize h p st = (r, st') → st' = st.
Proof. unfold statSize. intros H. repeat case_match; by inversion H. Qed.

(** Whatever the store holds, [restoreSnapshot] does not write to a
    destination that resolves below a system directory: the call answers
    a failure and the manager and the disk are what they were. *)
Theorem restoreSnapshot_refuses_system_paths t id st si j snap pattern :
  locate id (sessions (data st)) O = Some (si, j, snap) →
  pattern ∈ sensitivePatterns →
  Js.startsWith (key h (snap_originalPath snap)) pattern = true →
  ∃ resp, restoreSnapshot h t id st = (Ok resp, st) ∧ success resp = false.
Proof.
  intros Hloc Hin Hstart.
  pose proof (validatePath_system (snap_originalPath snap) None pattern Hin Hstart) as Hguard.
  unfold restoreSnapshot, try_catch.
  unfold bind at 1, gets at 1. rewrite Hloc.
  unfold bind at 1, pathExists at 1, gets at 1.
  destruct (negb _); [by eexists|].
  unfold bind at 1.
  destruct (statSize h (snap_snapshotPath snap) st) as [[size|err] s1] eqn:Hstat;
    apply statSize_readonly in Hstat as ->; [|by eexists].
  destruct (negb (size =? snap_fileSize snap)); [by eexists|].
  rewrite Hguard. by eexists.
Qed.

End Guard.

Section Durable.
Context (h : Host).


(** ** A reported success is on disk *)

Lemma saveData_persists st u st' :
  saveData h st = (Ok u, st') →
  persisted h st' ∧ data st' = data st ∧ cacheDirectory st' = cacheDirectory st ∧
  snapshotsDirectory st' = snapshotsDirectory st.
Proof.
  unfold saveData, bind, gets, writeFile, persisted, indexKey. simpl.
  destruct (is_directory _ _); intros H; inversion H; subst; clear H. simpl.
  by rewrite lookup_insert_eq.
Qed.

Lemma durable_ret_failure r : success r = false → durable h (ret r).
Proof. intros Hr st resp st' [= <- <-] Hok. congruence. Qed.

Lemma durable_bind_post {A} (Q : A → Prop) (m : M State A) k :
  (∀ s a s1, m s = (Ok a, s1) → Q a) →
  (∀ a, Q a → durable h (k a)) → durable h (bind m k).
Proof.
  intros Hm Hk st resp st' Hrun Hok.
  apply bind_ok_inv in Hrun as (a & s1 & H1 & H2).
  eapply Hk; eauto.
Qed.

Lemma durable_bind {A} (m : M State A) k :
  (∀ a, durable h (k a)) → durable h (bind m k).
Proof. intros Hk. apply (durable_bind_post (λ _, True)); auto. Qed.

Lemma durable_try_catch m hd :
  durable h m → (∀ e, durable h (hd e)) → durable h (try_catch m hd).
Proof.
  intros Hm Hh st resp st' Hrun Hok.
  apply try_catch_inv in Hrun as [(a & H1 & [= <-])|(e & s1 & H1 & H2)].
  - eapply Hm; eauto.
  - eapply Hh; eauto.
Qed.

Lemma durable_save k :
  (∀ u, preserves eq (k u)) → durable h (bind (saveData h) k).
Proof.
  intros Hk st resp st' Hrun Hok.
  apply bind_ok_inv in Hrun as (u & s1 & H1 & H2).
  apply Hk in H2 as ->. by apply saveData_persists in H1 as [? _].
Qed.

Ltac durable_fail := apply durable_ret_failure; reflexivity.

Lemma createSession_durable e name description :
  durable h (createSession h e name description).
Proof.
  unfold createSession. apply durable_try_catch; [|intros; durable_fail].
  apply durable_bind; intros d. cbv zeta.
  apply durable_bind; intros _.
  apply durable_save. intros _. apply (preserves_ret eq).
Qed.

Lemma restoreSnapshot_durable t id : durable h (restoreSnapshot h t id).
Proof.
  unfold restoreSnapshot. apply durable_try_catch; [|intros; durable_fail].
  apply durable_bind; intros d.
  destruct (locate id (sessions d) 0) as [[[si j] target]|]; [|durable_fail].
  apply durable_bind; intros stored. destruct (negb stored); [durable_fail|].
  apply durable_bind; intros size. destruct (negb _); [durable_fail|].
  destruct (negb _); [durable_fail|]. cbv zeta.
  apply durable_bind; intros present.
  do 4 (apply durable_bind; intros ?).
  apply durable_save. intros _.
  apply (preserves_bind eq); [apply (preserves_gets eq) | intros; apply (preserves_ret eq)].
Qed.

Lemma deleteSnapshot_durable t id : durable h (deleteSnapshot h t id).
Proof.
  unfold deleteSnapshot. apply durable_try_catch; [|intros; durable_fail].
  apply durable_bind; intros d.
  destruct (locate id (sessions d) 0) as [[[si j] target]|]; [|durable_fail].
  apply durable_bind; intros cache. cbv zeta.
  do 3 (apply durable_bind; intros ?).
  apply durable_save. intros _.
  apply (preserves_bind eq); [apply (preserves_gets eq) | intros; apply (preserves_ret eq)].
Qed.

Lemma resolveSession_early e sessionId s r s1 :
  resolveSession h e sessionId s = (Ok r, s1) →
  match r with inl early => success early = false | inr _ => True end.
Proof.
  unfold resolveSession. destruct (truthy sessionId); [by intros [= <- _]|].
  intros H. apply bind_ok_inv in H as (cur & s2 & _ & H).
  destruct (truthy cur); [by injection H as <- _|].
  apply bind_ok_inv in H as (createResult & s3 & _ & H).
  destruct (success createResult) eqn:Hok.
  - apply bind_ok_inv in H as (cur' & s4 & _ & [= <- _]). done.
  - by injection H as <- _.
Qed.

Lemma createSnapshot_durable e filePath prompt sessionId parentSnapshotId :
  durable h (createSnapshot h e filePath prompt sessionId parentSnapshotId).
Proof.
  unfold createSnapshot. apply durable_try_catch; [|intros; durable_fail].
  apply durable_bind; intros cache.
  apply durable_bind; intros _.
  eapply durable_bind_post; [apply resolveSession_early|].
  intros [early|sid] Hq; [by apply durable_ret_failure|].
  apply durable_bind; intros d.
  destruct (Js.findIndex _ _) as [sessionIndex|]; [|durable_fail].
  apply durable_bind; intros present. destruct (negb present); [durable_fail|].
  cbv zeta.
  do 7 (apply durable_bind; intros ?).
  apply durable_save. intros _. apply (preserves_ret eq).
Qed.

(** Whichever of the writing calls is made and whatever it finds, if it
    answers a success then the index document on disk is the data the
    manager holds. *)
Theorem success_means_persisted c st resp st' :
  perform h c st = (Ok resp, st') → success resp = true → persisted h st'.
Proof.
  destruct c; simpl.
  - apply createSession_durable.
  - apply createSnapshot_durable.
  - apply restoreSnapshot_durable.
  - apply deleteSnapshot_durable.
Qed.

End Durable.

Section Listing.
Context (h : Host).


(** ** [listSnapshots] *)

Lemma listEntry_reads session snapshot st :
  ∃ x, listEntry h session snapshot st = (Ok x, st) ∧ shows h st x session snapshot.
Proof.
  eexists. split; [reflexivity|]. unfold shows. simpl. split_and!; try done.
  rewrite orb_true_iff, bool_decide_eq_true. done.
Qed.

Lemma shown_elem_of filePath limit session snapshot :
  snapshot ∈ shown filePath limit session →
  snapshot ∈ sess_snapshots session ∧
  ∀ f, truthy filePath = Some f → snap_originalPath snapshot = f.
Proof.
  unfold shown. intros Hin.
  assert (Hin' : snapshot ∈ match truthy filePath with
                            | Some f => List.filter (λ s, String.eqb (snap_originalPath s) f)
                                                    (sess_snapshots session)
                            | None => sess_snapshots session
                            end).
  { destruct (truthyZ limit); [|done].
    eapply elem_of_submseteq; [exact Hin | apply sublist_submseteq, slice_to_end_sublist]. }
  destruct (truthy filePath) as [f|]; [|done].
  apply list_elem_of_In, filter_In in Hin' as [Hin' Heq]. apply list_elem_of_In in Hin'.
  split; [done|]. intros ? [= <-]. by apply String.eqb_eq.
Qed.

Lemma shown_all filePath session snapshot :
  snapshot ∈ sess_snapshots session →
  (∀ f, truthy filePath = Some f → snap_originalPath snapshot = f) →
  snapshot ∈ shown filePath None session.
Proof.
  unfold shown. simpl. intros Hin Hfile.
  destruct (truthy filePath) as [f|]; [|done].
  apply list_elem_of_In, filter_In. split; [by apply list_elem_of_In|].
  apply String.eqb_eq. by apply Hfile.
Qed.

Lemma shown_length filePath limit session n :
  truthyZ limit = Some n → 0 < n → Z.of_nat (length (shown filePath limit session)) ≤ n.
Proof. unfold shown. intros -> Hn. by apply slice_to_end_length. Qed.

(** [listSnapshots] only reads and always answers.  The listing is in the
    order of the time stamps, newest first; each entry shows a snapshot the
    store holds, of a session and of a file that were asked for; without a
    limit every such snapshot is listed; and a limit [n] bounds what each
    session contributes, not the listing: it holds at most [n] entries per
    session of the store. *)
Theorem listSnapshots_lists sessionId filePath limit st :
  ∃ l,
    listSnapshots h sessionId filePath limit st
    = (Ok {| ok := true; msg := "Snapshots retrieved successfully";
             result := Some {| listed := l;
                               totalSessions := length (sessions (data st));
                               totalSnapshots := length l |} |}, st) ∧
    StronglySorted (λ a b, ls_timestamp b ≤ ls_timestamp a) l ∧
    (∀ x, x ∈ l →
       ∃ session snapshot,
         session ∈ sessions (data st) ∧ snapshot ∈ sess_snapshots session ∧
         shows h st x session snapshot ∧
         (∀ sid, truthy sessionId = Some sid → sess_id session = sid) ∧
         (∀ f, truthy filePath = Some f → snap_originalPath snapshot = f)) ∧
    (truthyZ limit = None →
     ∀ session snapshot,
       session ∈ sessions (data st) → snapshot ∈ sess_snapshots session →
       (∀ sid, truthy sessionId = Some sid → sess_id session = sid) →
       (∀ f, truthy filePath = Some f → snap_originalPath snapshot = f) →
       ∃ x, x ∈ l ∧ shows h st x session snapshot) ∧
    (∀ n, truthyZ limit = Some n → 0 < n →
          Z.of_nat (length l) ≤ n * Z.of_nat (length (sessions (data st)))).
Proof.
  set (selected := match truthy sessionId with
                   | Some sid => List.filter (λ s, String.eqb (sess_id s) sid)
                                             (sessions (data st))
                   | None => sessions (data st)
                   end).
  assert (Hsel : ∀ session, session ∈ selected ↔
                   session ∈ sessions (data st) ∧
                   ∀ sid, truthy sessionId = Some sid → sess_id session = sid).
  { intros session. subst selected. destruct (truthy sessionId) as [sid|].
    - rewrite list_elem_of_In, filter_In, <- list_elem_of_In, String.eqb_eq. split.
      + intros [? ?]. split; [done|]. by intros ? [= <-].
      + intros [? Hs]. split; [done|]. by apply Hs.
    - split; [intros ?; by split | by intros [? _]]. }
  destruct (traverse_reads
              (λ session, traverse (listEntry h session) (shown filePath limit session))
              (λ session ys, Forall2 (λ snapshot x, shows h st x session snapshot)
                                     (shown filePath limit session) ys)
              selected st) as (perSession & Hrun & Hall).
  { intros session _. apply traverse_reads. intros snapshot _. apply listEntry_reads. }
  exists (Js.sort (λ a b, ls_timestamp b - ls_timestamp a) (concat perSession)).
  split.
  { unfold listSnapshots, try_catch. unfold bind at 1, gets at 1. fold selected.
    unfold bind at 1. rewrite Hrun. unfold ret.
    by rewrite (Permutation_length (sort_permutation _ (concat perSession))). }
  split; [apply sort_descending|].
  split; [|split].
  - intros x Hx. rewrite sort_permutation in Hx.
    apply elem_of_concat in Hx as (ys & Hx & Hys).
    apply list_elem_of_lookup in Hys as [i Hi].
    destruct (Forall2_lookup_r _ _ _ _ _ Hall Hi) as (session & Hsession & Hentries).
    apply list_elem_of_lookup in Hx as [j Hj].
    destruct (Forall2_lookup_r _ _ _ _ _ Hentries Hj) as (snapshot & Hsnapshot & Hshows).
    apply list_elem_of_lookup_2 in Hsession, Hsnapshot.
    apply Hsel in Hsession as [? ?]. apply shown_elem_of in Hsnapshot as [? ?].
    by exists session, snapshot.
  - intros Hlimit session snapshot Hsession Hsnapshot Hsid Hfile.
    assert (Hshown : snapshot ∈ shown filePath limit session).
    { unfold shown. rewrite Hlimit. by apply (shown_all filePath). }
    assert (Hin : session ∈ selected) by (by apply Hsel).
    apply list_elem_of_lookup in Hin as [i Hi].
    destruct (Forall2_lookup_l _ _ _ _ _ Hall Hi) as (ys & Hys & Hentries).
    apply list_elem_of_lookup in Hshown as [j Hj].
    destruct (Forall2_lookup_l _ _ _ _ _ Hentries Hj) as (x & Hx & Hshows).
    exists x. split; [|done]. rewrite sort_permutation.
    apply elem_of_concat. exists ys.
    split; by eapply list_elem_of_lookup_2.
  - intros n Hlimit Hn. rewrite (Permutation_length (sort_permutation _ _)).
    etrans; [apply (concat_length_bound _ n); [lia|]|].
    + apply Forall_forall. intros ys Hys.
      apply list_elem_of_lookup in Hys as [i Hi].
      destruct (Forall2_lookup_r _ _ _ _ _ Hall Hi) as (session & _ & Hentries).
      rewrite <- (Forall2_length _ _ _ Hentries). by eapply shown_length.
    + rewrite <- (Forall2_length _ _ _ Hall).
      assert (length selected ≤ length (sessions (data st)))%nat; [|nia].
      subst selected. destruct (truthy sessionId); [|done].
      apply filter_length_le.
Qed.

End Listing.

Section Sessions.
Context (h : Host).


(** ** Sessions *)

(** A session that was just created is the current one: [getCurrentSession]
    answers with it, empty and without a current snapshot, under the name
    that was given or else ["Session n"], [n] counting the sessions of the
    store. *)
Theorem getCurrentSession_after_createSession e name description st resp st' :
  createSession h e name description st = (Ok resp, st') →
  success resp = true →
  uuidSession e ≠ "" →
  (∀ s, s ∈ sessions (data st) → sess_id s ≠ uuidSession e) →
  ∃ info,
    getCurrentSession st'
    = (Ok {| ok := true; msg := "Current session retrieved";
             result := Some (Some info) |}, st') ∧
    si_id info = uuidSession e ∧
    si_name info
    = default ("Session " +:+ pretty (length (sessions (data st)) + 1)%nat) (truthy name) ∧
    si_created info = now e ∧ si_lastModified info = now e ∧
    si_snapshotCount info = O ∧ si_currentSnapshotId info = None ∧
    payload resp = SessionCreated (si_id info) (si_name info) ∧
    length (sessions (data st')) = S (length (sessions (data st))).
Proof.
  intros Hrun Hok Hid Hfresh.
  unfold createSession in Hrun.
  apply try_catch_inv in Hrun as [(a & Hrun & [= <-])|(err & s1 & _ & [= <- _])];
    [|discriminate].
  apply bind_ok_inv in Hrun as (d & s1 & [= <- <-] & Hrun). cbv zeta in Hrun.
  apply bind_ok_inv in Hrun as (u1 & s1 & [= _ <-] & Hrun).
  apply bind_ok_inv in Hrun as (u2 & s2 & Hsave & [= <- <-]).
  apply saveData_persists in Hsave as (_ & Hdata & _).
  unfold getCurrentSession, try_catch. unfold bind at 1, gets at 1.
  rewrite Hdata. simpl.
  destruct (String.eqb (uuidSession e) "") eqn:E; [by apply String.eqb_eq in E|].
  erewrite find_app_fresh; [|intros y Hy; apply String.eqb_neq; by apply Hfresh
                              |apply String.eqb_refl].
  eexists. split; [reflexivity|]. simpl.
  split_and!; try done.
  rewrite length_app. simpl. lia.
Qed.

(** ** [deleteSnapshot] *)

Lemma findIndex_Some {A} (p : A → bool) l j :
  Js.findIndex p l = Some j →
  (∃ x, l !! j = Some x ∧ p x = true) ∧ ∀ i y, (i < j)%nat → l !! i = Some y → p y = false.
Proof.
  revert j. induction l as [|x l IH]; simpl; intros j; [done|].
  destruct (p x) eqn:Hx.
  - intros [= <-]. split; [by exists x|]. intros; lia.
  - destruct (Js.findIndex p l) as [j'|]; [|done]. intros [= <-].
    destruct (IH j' eq_refl) as [Hj Hbefore]. split; [done|].
    intros [|i] y Hi Hy; simpl in Hy; [by injection Hy as <-|].
    eapply Hbefore; [|done]. lia.
Qed.

Lemma findIndex_None {A} (p : A → bool) l x :
  Js.findIndex p l = None → x ∈ l → p x = false.
Proof.
  induction l as [|y l IH]; simpl; [by intros _ ?%elem_of_nil|].
  destruct (p y) eqn:Hy; [done|].
  destruct (Js.findIndex p l); [done|].
  intros _ [->|Hx]%elem_of_cons; [done | by apply IH].
Qed.

Lemma locate_Some id ss k si j x :
  locate id ss k = Some (si, j, x) →
  ∃ s, (k ≤ si)%nat ∧ ss !! (si - k)%nat = Some s ∧ sess_snapshots s !! j = Some x ∧
       snap_id x = id.
Proof.
  revert k. induction ss as [|s ss IH]; simpl; intros k; [done|].
  destruct (Js.findIndex _ (sess_snapshots s)) as [j'|] eqn:Hfind.
  - destruct (sess_snapshots s !! j') as [x'|] eqn:Hx.
    + intros [= <- <- <-]. exists s. rewrite Nat.sub_diag. split_and!; try done.
      apply findIndex_Some in Hfind as [(y & Hy & Hp) _].
      rewrite Hx in Hy. injection Hy as <-. by apply String.eqb_eq.
    + apply findIndex_Some in Hfind as [(y & Hy & _) _]. congruence.
  - intros (s' & Hle & Hs' & Hj & Hid)%IH. exists s'. split_and!; try done; [lia|].
    replace (si - k)%nat with (S (si - S k)) by lia. done.
Qed.

Lemma locate_None id ss k s x :
  locate id ss k = None → s ∈ ss → x ∈ sess_snapshots s → snap_id x ≠ id.
Proof.
  revert k. induction ss as [|s' ss IH]; simpl; intros k; [by intros _ ?%elem_of_nil|].
  destruct (Js.findIndex _ (sess_snapshots s')) as [j'|] eqn:Hfind.
  - destruct (sess_snapshots s' !! j') as [x'|] eqn:Hx; [done|].
    apply findIndex_Some in Hfind as [(y & Hy & _) _]. congruence.
  - intros Hnone [->|Hs]%elem_of_cons Hx; [|by eapply IH].
    apply (findIndex_None _ _ x) in Hfind; [|done]. by apply String.eqb_neq.
Qed.

Lemma locate_fresh id ss k :
  (∀ s x, s ∈ ss → x ∈ sess_snapshots s → snap_id x ≠ id) → locate id ss k = None.
Proof.
  intros Hfresh. destruct (locate id ss k) as [[[si j] x]|] eqn:Hloc; [|done].
  apply locate_Some in Hloc as (s & _ & Hs & Hx & Hid).
  destruct (Hfresh s x); [by eapply list_elem_of_lookup_2..|done].
Qed.

Lemma ids_positions (ss : list SnapshotSession) i i' j j' s s' x y :
  NoDup (snap_id <$> (ss ≫= sess_snapshots)) →
  ss !! i = Some s → ss !! i' = Some s' →
  sess_snapshots s !! j = Some x → sess_snapshots s' !! j' = Some y →
  snap_id x = snap_id y → i = i' ∧ j = j'.
Proof.
  revert i i'. induction ss as [|s0 ss IH]; intros i i'; [done|].
  change ((s0 :: ss) ≫= sess_snapshots) with (sess_snapshots s0 ++ (ss ≫= sess_snapshots)).
  rewrite fmap_app. intros (Hhead & Hdisj & Htail)%NoDup_app Hs Hs' Hx Hy Hid.
  assert (Hrest : ∀ k t z n, ss !! k = Some t → sess_snapshots t !! n = Some z →
                             snap_id z ∈ snap_id <$> (ss ≫= sess_snapshots)).
  { intros k t z n Ht Hz. apply list_elem_of_fmap. exists z. split; [done|].
    apply list_elem_of_bind. exists t. split; by eapply list_elem_of_lookup_2. }
  destruct i as [|i], i' as [|i']; simpl in Hs, Hs'.
  - injection Hs as <-. injection Hs' as <-. split; [done|].
    eapply NoDup_lookup; [exact Hhead| |]; rewrite list_lookup_fmap.
    + by rewrite Hx.
    + by rewrite Hy, Hid.
  - injection Hs as <-. destruct (Hdisj (snap_id x)).
    + apply list_elem_of_fmap. exists x. split; [done|]. by eapply list_elem_of_lookup_2.
    + rewrite Hid. by eapply Hrest.
  - injection Hs' as <-. destruct (Hdisj (snap_id y)).
    + apply list_elem_of_fmap. exists y. split; [done|]. by eapply list_elem_of_lookup_2.
    + rewrite <- Hid. by eapply Hrest.
  - destruct (IH i i' Htail Hs Hs' Hx Hy Hid) as [-> ->]. done.
Qed.

Lemma pathExists_false p st k c :
  bool_decide (is_Some (disk st !! key h p)) || is_directory (disk st) (key h p) = false →
  disk st !! k = Some c → under (key h p) k = false.
Proof.
  intros [Hfile Hdir]%orb_false_iff Hk.
  apply bool_decide_eq_false in Hfile.
  unfold is_directory in Hdir.
  destruct (disk st !! key h p) eqn:E; [destruct Hfile; eauto|].
  apply orb_false_iff in Hdir as [_ Hdir].
  destruct (under (key h p) k) eqn:Hu; [|done].
  rewrite <- Hdir. symmetry. apply existsb_exists. exists (k, c).
  split; [|done]. apply list_elem_of_In. by apply elem_of_map_to_list.
Qed.

Lemma remove_lookup p st k :
  disk (remove h p st).2 !! k = if under (key h p) k then None else disk st !! k.
Proof.
  unfold remove, modify. simpl. rewrite map_lookup_filter. simpl.
  destruct (disk st !! k) as [c|]; simpl; [|by destruct (under _ _)].
  destruct (under (key h p) k); by case_guard.
Qed.

(** A successful [deleteSnapshot] takes the first snapshot of that id out
    of its session, stamps the session and repairs its pointer, leaves the
    other sessions alone, and removes from the disk what lies below
    [<cache>/snapshots/<id>] and nothing else (the index document apart,
    which it rewrites).  When the ids of the store are pairwise distinct
    the snapshot is gone for good: a later restore of it is answered with
    "Snapshot not found". *)
Theorem deleteSnapshot_removes_the_entry t id st resp st' :
  deleteSnapshot h t id st = (Ok resp, st') →
  success resp = true →
  ∃ si j target session,
    locate id (sessions (data st)) O = Some (si, j, target) ∧
    sessions (data st) !! si = Some session ∧
    sess_snapshots session !! j = Some target ∧
    (∀ i, i ≠ si → sessions (data st') !! i = sessions (data st) !! i) ∧
    (∃ session',
        sessions (data st') !! si = Some session' ∧
        sess_snapshots session' = delete j (sess_snapshots session) ∧
        sess_id session' = sess_id session ∧
        sess_lastModified session' = t ∧
        sess_currentSnapshotId session'
        = (if bool_decide (sess_currentSnapshotId session = Some id)
           then snap_id <$> last (delete j (sess_snapshots session))
           else sess_currentSnapshotId session)) ∧
    (∀ k, k ≠ indexKey h st →
          disk st' !! k
          = if under (key h (join3 (cacheDirectory st) "snapshots" id)) k then None
            else disk st !! k) ∧
    (NoDup (snap_id <$> (sessions (data st) ≫= sess_snapshots)) →
     locate id (sessions (data st')) O = None ∧
     ∀ t', restoreSnapshot h t' id st' = (Ok (failure "Snapshot not found"), st')).
Proof.
  intros Hrun Hok. unfold deleteSnapshot in Hrun.
  apply try_catch_inv in Hrun as [(a & Hrun & [= <-])|(err & s1 & _ & [= <- _])];
    [|discriminate].
  apply bind_ok_inv in Hrun as (d & s0 & [= <- <-] & Hrun).
  destruct (locate id (sessions (data st)) 0) as [[[si j] target]|] eqn:Hloc;
    [|injection Hrun as <- _; discriminate].
  apply bind_ok_inv in Hrun as (cache & s0 & [= <- <-] & Hrun). cbv zeta in Hrun.
  apply bind_ok_inv in Hrun as (present & s0 & [= <- <-] & Hrun).
  apply bind_ok_inv in Hrun as (u1 & s1 & Hremove & Hrun).
  apply bind_ok_inv in Hrun as (u2 & s2 & [= _ <-] & Hrun).
  apply bind_ok_inv in Hrun as (u3 & s3 & Hsave & Hrun).
  apply bind_ok_inv in Hrun as (d' & s4 & [= <- <-] & [= <- <-]).
  set (dir := join3 (cacheDirectory st) "snapshots" id) in *.
  assert (Hs1 : cacheDirectory s1 = cacheDirectory st ∧ data s1 = data st ∧
                ∀ k, disk s1 !! k = if under (key h dir) k then None else disk st !! k).
  { destruct (bool_decide _ || _) eqn:Hpresent.
    - replace s1 with (remove h dir st).2 by (by inversion Hremove).
      split_and!; try done. intros k. apply remove_lookup.
    - injection Hremove as _ <-. split_and!; try done. intros k.
      destruct (disk st !! k) as [c|] eqn:Hk; [|by destruct (under _ _)].
      by rewrite (pathExists_false _ _ _ _ Hpresent Hk). }
  destruct Hs1 as (Hcache1 & Hdata1 & Hdisk1).
  pose proof (saveData_persists h _ _ _ Hsave) as (_ & Hdata3 & _).
  apply locate_Some in Hloc as (session & _ & Hsession & Htarget & Hid).
  rewrite Nat.sub_0_r in Hsession.
  exists si, j, target, session. split; [done|]. split; [done|]. split; [done|].
  rewrite Hdata3. simpl. rewrite Hdata1.
  split; [intros i Hi; by rewrite list_lookup_alter_ne|].
  split.
  { eexists. rewrite list_lookup_alter_eq, Hsession. split; [reflexivity|]. done. }
  split.
  { intros k Hk. erewrite (saveData_disk h _ _ _ k Hsave).
    - simpl. apply Hdisk1.
    - unfold indexKey in *. simpl. by rewrite Hcache1. }
  intros Hnodup.
  assert (Hgone : locate id (alter (drop_snapshot t id j) si (sessions (data st))) 0 = None).
  { apply locate_fresh. intros s x Hs Hx Hidx.
    apply list_elem_of_lookup in Hs as [i Hi].
    apply list_elem_of_lookup in Hx as [n Hn].
    destruct (decide (i = si)) as [->|Hne].
    - rewrite list_lookup_alter_eq, Hsession in Hi. injection Hi as <-.
      simpl in Hn. rewrite list_lookup_delete in Hn.
      destruct (ids_positions _ si si _ j _ _ _ _ Hnodup Hsession Hsession Hn Htarget)
        as [_ Hpos]; [congruence|].
      destruct (decide (n < j)%nat); lia.
    - rewrite list_lookup_alter_ne in Hi by done.
      destruct (ids_positions _ i si _ j _ _ _ _ Hnodup Hi Hsession Hn Htarget)
        as [? _]; [congruence|done]. }
  split; [done|]. intros t'.
  unfold restoreSnapshot, try_catch. unfold bind at 1, gets at 1.
  rewrite Hdata3. simpl. rewrite Hdata1, Hgone. done.
Qed.

End Sessions.

Section Create.
Context (h : Host).


(** ** What [createSnapshot] records *)

Lemma resolveSession_known e sessionId st sid :
  truthy sessionId = Some sid
  ∨ (truthy sessionId = None ∧ truthy (currentSessionId (data st)) = Some sid) →
  resolveSession h e sessionId st = (Ok (inr sid), st).
Proof.
  unfold resolveSession. intros [->|[-> Hcur]]; [done|].
  unfold bind, gets. by rewrite Hcur.
Qed.

Lemma ensureDir_readonly p st r st' : ensureDir h p st = (r, st') → st' = st.
Proof. unfold ensureDir. intros H. repeat case_match; by inversion H. Qed.

Lemma readFile_inv p st c st' :
  readFile h p st = (Ok c, st') → st' = st ∧ disk st !! key h p = Some c.
Proof. unfold readFile. intros H. repeat case_match; by inversion H. Qed.

Lemma writeFile_inv p c st u st' :
  writeFile h p c st = (Ok u, st') → st' = set_disk (insert (key h p) c) st.
Proof. unfold writeFile. intros H. repeat case_match; by inversion H. Qed.

Lemma createSnapshot_inv e filePath prompt sessionId parent st resp st' sid :
  String.eqb (cacheDirectory st) "" || Js.includes (cacheDirectory st) "CodeRecoder/.CodeRecoder"
  = false →
  truthy sessionId = Some sid
  ∨ (truthy sessionId = None ∧ truthy (currentSessionId (data st)) = Some sid) →
  createSnapshot h e filePath prompt sessionId parent st = (Ok resp, st') →
  success resp = true →
  ∃ content sessionIndex,
    let stored := Path.join (Path.join (snapshotsDirectory st) (uuidSnapshot e))
                            (Path.basename filePath) in
    let metadata := Path.join (Path.join (snapshotsDirectory st) (uuidSnapshot e))
                              "metadata.json" in
    let snapshot :=
      {| snap_id := uuidSnapshot e; snap_timestamp := now e;
         snap_originalPath := filePath; snap_snapshotPath := stored;
         snap_fileSize := Z.of_nat (String.length content);
         snap_fileHash := sha256 h content; snap_prompt := prompt;
         snap_sessionId := sid; snap_parentSnapshotId := parent;
         snap_aiSummary := Some prompt |} in
    disk st !! key h filePath = Some content ∧
    key h filePath ≠ key h stored ∧
    Js.findIndex (λ s, String.eqb (sess_id s) sid) (sessions (data st)) = Some sessionIndex ∧
    resp = {| success := true; message := "AI-enhanced snapshot created successfully";
              payload := SnapshotCreated (uuidSnapshot e) sid (Path.basename filePath)
                           (Z.of_nat (String.length content)) |} ∧
    cacheDirectory st' = cacheDirectory st ∧
    snapshotsDirectory st' = snapshotsDirectory st ∧
    data st' = set_sessions (alter (push_snapshot (now e) snapshot) sessionIndex) (data st) ∧
    disk st' = <[indexKey h st := stringify h (data st')]>
                 (<[key h metadata := stringifyMeta h snapshot]>
                    (<[key h stored := content]> (disk st))).
Proof.
  intros Hcache Hsess Hrun Hok. unfold createSnapshot in Hrun.
  apply try_catch_inv in Hrun as [(a & Hrun & [= <-])|(err & s1 & _ & [= <- _])];
    [|discriminate].
  apply bind_ok_inv in Hrun as (cache & s0 & [= <- <-] & Hrun).
  rewrite Hcache in Hrun.
  apply bind_ok_inv in Hrun as (u0 & s0 & [= _ <-] & Hrun).
  apply bind_ok_inv in Hrun as (resolved & s0 & Hres & Hrun).
  rewrite (resolveSession_known _ _ _ _ Hsess) in Hres. injection Hres as <- <-.
  apply bind_ok_inv in Hrun as (d & s0 & [= <- <-] & Hrun).
  destruct (Js.findIndex _ _) as [sessionIndex|] eqn:Hfind;
    [|injection Hrun as <- _; discriminate].
  apply bind_ok_inv in Hrun as (present & s0 & [= _ <-] & Hrun).
  destruct (negb present); [injection Hrun as <- _; discriminate|].
  cbv zeta in Hrun.
  apply bind_ok_inv in Hrun as (snaps & s0 & [= <- <-] & Hrun).
  apply bind_ok_inv in Hrun as (size & s0 & Hsize & Hrun).
  pose proof (statSize_readonly h _ _ _ _ Hsize) as ->.
  apply bind_ok_inv in Hrun as (content & s0 & Hread & Hrun).
  apply readFile_inv in Hread as [-> Hcontent].
  unfold statSize in Hsize. rewrite Hcontent in Hsize. injection Hsize as <-.
  apply bind_ok_inv in Hrun as (u1 & s0 & Hensure & Hrun).
  apply ensureDir_readonly in Hensure as ->.
  apply bind_ok_inv in Hrun as (u2 & s1 & Hcopy & Hrun).
  pose proof (copy_keeps_manager h _ _ _ _ _ Hcopy) as [Hc1 Hd1].
  assert (Hsn1 : snapshotsDirectory s1 = snapshotsDirectory st).
  { unfold copy in Hcopy. repeat case_match; by inversion Hcopy. }
  eapply copy_file_inv in Hcopy as [Hne Hdisk1]; [|exact Hcontent].
  apply bind_ok_inv in Hrun as (u3 & s2 & Hwrite & Hrun).
  apply writeFile_inv in Hwrite as ->.
  apply bind_ok_inv in Hrun as (u4 & s3 & [= _ <-] & Hrun).
  apply bind_ok_inv in Hrun as (u5 & s4 & Hsave & [= <- <-]).
  exists content, sessionIndex. cbv zeta.
  split; [done|]. split; [done|]. split; [done|]. split; [done|].
  unfold saveData, bind, gets, writeFile in Hsave. simpl in Hsave.
  destruct (is_directory _ _); [discriminate|]. injection Hsave as Hs4. subst s4. simpl.
  rewrite Hc1, Hsn1, Hd1, Hdisk1. unfold indexKey. done.
Qed.

(** When the manager has its cache directory and a session to write to,
    a successful [createSnapshot] has read the bytes of the file, recorded
    their length and their digest, and appended the record to the session,
    whose current snapshot it becomes.  The stored copy holds those bytes,
    unless the file is called [metadata.json] (the metadata file of the
    snapshot then takes its place) or the copy is the index document.  No
    other file of the disk is changed. *)
Theorem createSnapshot_records_the_content e filePath prompt sessionId parent st resp st' sid :
  String.eqb (cacheDirectory st) "" || Js.includes (cacheDirectory st) "CodeRecoder/.CodeRecoder"
  = false →
  truthy sessionId = Some sid
  ∨ (truthy sessionId = None ∧ truthy (currentSessionId (data st)) = Some sid) →
  createSnapshot h e filePath prompt sessionId parent st = (Ok resp, st') →
  success resp = true →
  ∃ content sessionIndex session session' snapshot,
    let stored := Path.join (Path.join (snapshotsDirectory st) (uuidSnapshot e))
                            (Path.basename filePath) in
    let metadata := Path.join (Path.join (snapshotsDirectory st) (uuidSnapshot e))
                              "metadata.json" in
    disk st !! key h filePath = Some content ∧
    snap_id snapshot = uuidSnapshot e ∧
    snap_originalPath snapshot = filePath ∧
    snap_snapshotPath snapshot = stored ∧
    snap_fileSize snapshot = Z.of_nat (String.length content) ∧
    snap_fileHash snapshot = sha256 h content ∧
    snap_timestamp snapshot = now e ∧
    sessions (data st) !! sessionIndex = Some session ∧
    sess_id session = sid ∧
    sessions (data st') !! sessionIndex = Some session' ∧
    sess_snapshots session' = sess_snapshots session ++ [snapshot] ∧
    sess_currentSnapshotId session' = Some (uuidSnapshot e) ∧
    (∀ i, i ≠ sessionIndex → sessions (data st') !! i = sessions (data st) !! i) ∧
    payload resp = SnapshotCreated (uuidSnapshot e) sid (Path.basename filePath)
                     (snap_fileSize snapshot) ∧
    (key h stored ≠ key h metadata → key h stored ≠ indexKey h st →
     disk st' !! key h stored = Some content) ∧
    (∀ k, k ≠ key h stored → k ≠ key h metadata → k ≠ indexKey h st →
          disk st' !! k = disk st !! k).
Proof.
  intros Hcache Hsess Hrun Hok.
  destruct (createSnapshot_inv _ _ _ _ _ _ _ _ _ Hcache Hsess Hrun Hok)
    as (content & sessionIndex & Hcontent & Hne & Hfind & -> & _ & _ & Hdata & Hdisk).
  cbv zeta in *.
  apply findIndex_Some in Hfind as [(session & Hsession & Hsid) _].
  apply String.eqb_eq in Hsid.
  match type of Hdata with
  | _ = set_sessions (alter (push_snapshot _ ?x) _) _ => set (snapshot := x) in *
  end.
  exists content, sessionIndex, session, (push_snapshot (now e) snapshot session), snapshot.
  cbv zeta.
  split; [done|]. do 6 (split; [reflexivity|]).
  split; [done|]. split; [done|].
  rewrite Hdata. simpl.
  split; [by rewrite list_lookup_alter_eq, Hsession|].
  split; [done|]. split; [done|].
  split; [intros i Hi; by rewrite list_lookup_alter_ne|].
  split; [done|].
  rewrite Hdisk. split.
  - intros Hm Hi. rewrite !lookup_insert_ne by done. by rewrite lookup_insert_eq.
  - intros k H1 H2 H3. by rewrite !lookup_insert_ne.
Qed.

End Create.

Section RoundTrip.
Context (h : Host).


(** ** Snapshot, then restore *)







End RoundTrip.

Section Retention.
Context (h : Host).


(** ** Retention *)

#[local] Instance removedBelow_refl dirs : Reflexive (removedBelow dirs).
Proof. intros dk k. by left. Qed.

#[local] Instance removedBelow_trans dirs : Transitive (removedBelow dirs).
Proof.
  intros dk1 dk2 dk3 H12 H23 k. destruct (H23 k) as [->|[-> Hd]]; [apply H12 | by right].
Qed.

#[local] Instance deletes_refl dirs : Reflexive (deletes dirs).
Proof. intros s. by split_and!. Qed.

#[local] Instance deletes_trans dirs : Transitive (deletes dirs).
Proof.
  intros s1 s2 s3 (? & ? & ? & ? & ?) (? & ? & ? & ? & ?).
  split_and!; try congruence. by etrans.
Qed.

Lemma filter_under_lookup d (dk : gmap string string) k :
  filter (λ kv, under d kv.1 = false) dk !! k = if under d k then None else dk !! k.
Proof.
  rewrite map_lookup_filter. simpl.
  destruct (dk !! k) as [c|]; simpl; [|by destruct (under _ _)].
  destruct (under d k); by case_guard.
Qed.

Lemma cleanupOne_returns dirs acc x :
  key h (Path.dirname (snap_snapshotPath x)) ∈ dirs →
  returns (deletes dirs) (cleanupOne h acc x).
Proof.
  intros Hin s. unfold cleanupOne, try_catch. cbv zeta.
  unfold bind at 1, pathExists at 1, gets at 1.
  destruct (bool_decide _ || _); [|by eexists _, _].
  unfold bind at 1.
  destruct (statSize h (snap_snapshotPath x) s) as [[size|err] s1] eqn:Hsize;
    apply statSize_readonly in Hsize as ->; [|by eexists _, _].
  unfold try_catch, bind, remove, modify, ret.
  eexists _, _. split; [reflexivity|]. split_and!; try done.
  intros k. simpl. rewrite filter_under_lookup.
  destruct (under _ k) eqn:Hu; [right|by left]. split; [done|]. eauto.
Qed.

Lemma trimmed_snapshots keep s x :
  x ∈ sess_snapshots (trimmed keep s) → x ∈ sess_snapshots s.
Proof.
  unfold trimmed. destruct (keep <? _); [|done]. simpl.
  rewrite slice_0_take. intros Hx.
  eapply elem_of_submseteq in Hx; [|apply sublist_submseteq, sublist_take].
  by rewrite sort_permutation in Hx.
Qed.

Lemma storedDirs_alter keep i d dir :
  dir ∈ storedDirs h (set_sessions (alter (trimmed keep) i) d) → dir ∈ storedDirs h d.
Proof.
  unfold storedDirs. simpl.
  intros (x & -> & (s' & Hx & Hs')%list_elem_of_bind)%list_elem_of_fmap.
  apply list_elem_of_fmap. exists x. split; [done|].
  apply list_elem_of_lookup in Hs' as [n Hn].
  destruct (decide (n = i)) as [->|Hne].
  - rewrite list_lookup_alter_eq in Hn.
    destruct (sessions d !! i) as [s|] eqn:Hs; [|done]. injection Hn as <-.
    apply list_elem_of_bind. exists s.
    split; [by eapply trimmed_snapshots | by eapply list_elem_of_lookup_2].
  - rewrite list_lookup_alter_ne in Hn by done.
    apply list_elem_of_bind. exists s'. split; [done | by eapply list_elem_of_lookup_2].
Qed.

(** One turn of the loop over the sessions. *)
Lemma cleanupSession_returns keep acc i st :
  ∃ acc' st',
    cleanupSession h keep acc i st = (Ok acc', st') ∧
    cacheDirectory st' = cacheDirectory st ∧
    data st' = set_sessions (alter (trimmed keep) i) (data st) ∧
    removedBelow (storedDirs h (data st)) (disk st) (disk st').
Proof.
  unfold cleanupSession. unfold bind at 1, gets at 1.
  assert (Hsame : ∀ s, sessions (data st) !! i = Some s → trimmed keep s = s →
                       data st = set_sessions (alter (trimmed keep) i) (data st)).
  { intros s Hs Ht. destruct (data st) as [ss cur ver]. unfold set_sessions. simpl in *.
    f_equal. symmetry. apply list_eq. intros n. rewrite list_lookup_alter.
    destruct (decide (i = n)) as [<-|]; [|done]. by rewrite Hs; simpl; rewrite Ht. }
  destruct (sessions (data st) !! i) as [session|] eqn:Hsession.
  - destruct (keep <? Z.of_nat (length (sess_snapshots session))) eqn:Hkeep.
    + cbv zeta. set (sorted := Js.sort _ (sess_snapshots session)).
      unfold bind at 1, modify at 1.
      set (s1 := set_data _ st).
      unfold bind at 1.
      destruct (fold_m_returns (deletes (storedDirs h (data st)))
                  (cleanupOne h) (Js.slice_to_end sorted keep) acc) with (s := s1)
        as (acc' & s2 & -> & Hc2 & _ & _ & Hd2 & Hdisk2).
      { intros b x Hx. apply cleanupOne_returns.
        apply list_elem_of_fmap. exists x. split; [done|].
        apply list_elem_of_bind. exists session. split; [|by eapply list_elem_of_lookup_2].
        eapply elem_of_submseteq in Hx; [|apply sublist_submseteq, sublist_drop].
        subst sorted. by rewrite sort_permutation in Hx. }
      unfold bind at 1, modify at 1. unfold ret.
      eexists _, _. split; [reflexivity|]. simpl.
      split; [done|]. split; [|done].
      rewrite Hd2. subst s1. simpl. destruct (data st) as [ss cur ver].
      unfold set_sessions. simpl in *. f_equal.
      apply list_eq. intros n. rewrite !list_lookup_alter.
      destruct (decide (i = n)) as [<-|]; [|done].
      rewrite decide_True by done. rewrite Hsession. simpl.
      unfold trimmed. by rewrite Hkeep.
    + eexists _, _. split; [reflexivity|]. split; [done|].
      split; [|reflexivity]. apply (Hsame session); [done|].
      unfold trimmed. by rewrite Hkeep.
  - eexists _, _. split; [reflexivity|]. split; [done|]. split; [|reflexivity].
    destruct (data st) as [ss cur ver]. unfold set_sessions. simpl in *. f_equal.
    symmetry. apply list_eq. intros n. rewrite list_lookup_alter.
    destruct (decide (i = n)) as [<-|]; [|done]. by rewrite Hsession.
Qed.

Lemma removedBelow_mono dirs dirs' dk dk' :
  (∀ d, d ∈ dirs → d ∈ dirs') → removedBelow dirs dk dk' → removedBelow dirs' dk dk'.
Proof.
  intros Hsub H k. destruct (H k) as [?|[? (d & Hd & ?)]]; [by left|right].
  split; [done|]. exists d. auto.
Qed.

Lemma cleanupSessions_returns keep l : ∀ acc st,
  ∃ acc' st',
    fold_m (cleanupSession h keep) l acc st = (Ok acc', st') ∧
    cacheDirectory st' = cacheDirectory st ∧
    data st' = set_sessions (λ ss, foldl (λ ss i, alter (trimmed keep) i ss) ss l) (data st) ∧
    removedBelow (storedDirs h (data st)) (disk st) (disk st').
Proof.
  induction l as [|i l IH]; intros acc st.
  - exists acc, st. split; [done|]. split; [done|]. split; [by destruct (data st)|reflexivity].
  - destruct (cleanupSession_returns keep acc i st) as (acc1 & s1 & H1 & Hc1 & Hd1 & Hk1).
    destruct (IH acc1 s1) as (acc2 & s2 & H2 & Hc2 & Hd2 & Hk2).
    exists acc2, s2. rewrite fold_m_cons. unfold bind. rewrite H1.
    split; [done|]. split; [congruence|]. split.
    + rewrite Hd2, Hd1. by destruct (data st).
    + etrans; [exact Hk1|]. eapply removedBelow_mono; [|exact Hk2].
      intros d. rewrite Hd1. apply storedDirs_alter.
Qed.

Lemma foldl_alter_seq {A} (f : A → A) k : ∀ (l : list A) a j,
  foldl (λ ss i, alter f i ss) l (seq a k) !! j
  = if decide (a ≤ j < a + k)%nat then f <$> l !! j else l !! j.
Proof.
  induction k as [|k IH]; intros l a j; simpl.
  - rewrite decide_False by lia. done.
  - rewrite IH. rewrite list_lookup_alter.
    destruct (decide (a = j)) as [->|Hne].
    + rewrite decide_False by lia. by rewrite decide_True by lia.
    + destruct (decide (S a ≤ j < S a + k)%nat).
      * by rewrite decide_True by lia.
      * by rewrite decide_False by lia.
Qed.

Lemma foldl_alter_all {A} (f : A → A) (l : list A) :
  foldl (λ ss i, alter f i ss) l (seq 0 (length l)) = f <$> l.
Proof.
  apply list_eq. intros j. rewrite foldl_alter_seq, list_lookup_fmap.
  destruct (decide _) as [?|Hout]; [done|].
  rewrite lookup_ge_None_2 by lia. done.
Qed.

Lemma trimmed_newest keep s x y :
  x ∈ sess_snapshots (trimmed keep s) → y ∈ sess_snapshots s →
  snap_timestamp x < snap_timestamp y → y ∈ sess_snapshots (trimmed keep s).
Proof.
  unfold trimmed. destruct (keep <? _); [|done]. simpl.
  set (sorted := Js.sort _ (sess_snapshots s)). rewrite slice_0_take.
  set (n := Z.to_nat _). intros Hx Hy Hlt.
  assert (Hsorted : StronglySorted (λ a b, snap_timestamp b ≤ snap_timestamp a)
                                   (take n sorted ++ drop n sorted)).
  { rewrite take_drop. apply sort_descending. }
  assert (Hy' : y ∈ take n sorted ++ drop n sorted).
  { rewrite take_drop. subst sorted. by rewrite sort_permutation. }
  apply elem_of_app in Hy' as [?|Hdrop]; [done|].
  pose proof (StronglySorted_app_1_elem_of _ _ _ _ _ Hsorted Hx Hdrop). simpl in *. lia.
Qed.

Lemma trimmed_length keep s :
  0 ≤ keep →
  Z.of_nat (length (sess_snapshots (trimmed keep s)))
  = Z.min keep (Z.of_nat (length (sess_snapshots s))).
Proof.
  intros Hkeep. unfold trimmed.
  destruct (keep <? _) eqn:E; [apply Z.ltb_lt in E | apply Z.ltb_ge in E; lia].
  simpl. rewrite slice_0_take, length_take.
  rewrite (Permutation_length (sort_permutation _ _)).
  unfold Js.clamp_index. destruct (keep <? 0) eqn:E0; [apply Z.ltb_lt in E0; lia|]. lia.
Qed.

Lemma trimmed_submseteq keep s : sess_snapshots (trimmed keep s) ⊆+ sess_snapshots s.
Proof.
  unfold trimmed. destruct (keep <? _); [|done]. simpl. rewrite slice_0_take.
  etrans; [apply sublist_submseteq, sublist_take|].
  apply Permutation_submseteq, sort_permutation.
Qed.

(** [cleanupOldSnapshots] always answers.  Session by session: a session
    that holds no more than [keepLatest] snapshots is left as it is; of any
    other the newest [keepLatest] are kept (every snapshot newer than a kept
    one is kept) and nothing is added.  The session's name, time stamp and
    current-snapshot pointer are not touched, so the pointer is left as it
    was also when the snapshot it names was dropped.  On the disk, the
    index document apart, files are only removed, and only at or below the
    directory of the stored copy of a snapshot of the store.  When the
    answer is a success the index document holds the new data. *)
Theorem cleanupOldSnapshots_keeps_the_newest keepLatest st :
  ∃ answer st',
    cleanupOldSnapshots h keepLatest st = (Ok answer, st') ∧
    cacheDirectory st' = cacheDirectory st ∧
    currentSessionId (data st') = currentSessionId (data st) ∧
    Forall2 (λ s s',
               sess_id s' = sess_id s ∧ sess_name s' = sess_name s ∧
               sess_lastModified s' = sess_lastModified s ∧
               sess_currentSnapshotId s' = sess_currentSnapshotId s ∧
               sess_snapshots s' ⊆+ sess_snapshots s ∧
               (Z.of_nat (length (sess_snapshots s)) ≤ default 100 keepLatest → s' = s) ∧
               (0 ≤ default 100 keepLatest →
                Z.of_nat (length (sess_snapshots s'))
                = Z.min (default 100 keepLatest) (Z.of_nat (length (sess_snapshots s)))) ∧
               (∀ x y, x ∈ sess_snapshots s' → y ∈ sess_snapshots s →
                       snap_timestamp x < snap_timestamp y → y ∈ sess_snapshots s'))
            (sessions (data st)) (sessions (data st')) ∧
    (∀ k, k ≠ indexKey h st →
          disk st' !! k = disk st !! k
          ∨ (disk st' !! k = None ∧
             ∃ s x, s ∈ sessions (data st) ∧ x ∈ sess_snapshots s ∧
                    under (key h (Path.dirname (snap_snapshotPath x))) k = true)) ∧
    (ok answer = true → persisted h st').
Proof.
  set (keep := default 100 keepLatest).
  destruct (cleanupSessions_returns keep (seq 0 (length (sessions (data st)))) (O, 0) st)
    as (acc & s1 & Hloop & Hc1 & Hd1 & Hk1).
  assert (Hd1' : data s1 = set_sessions (λ _, trimmed keep <$> sessions (data st)) (data st)).
  { rewrite Hd1. unfold set_sessions. by rewrite foldl_alter_all. }
  clear Hd1. rename Hd1' into Hd1.
  assert (Hsessions : Forall2 (λ s s', s' = trimmed keep s)
                              (sessions (data st)) (trimmed keep <$> sessions (data st))).
  { apply Forall2_fmap_r, Forall_Forall2_diag, Forall_forall. done. }
  assert (Hper : Forall2 (λ s s',
               sess_id s' = sess_id s ∧ sess_name s' = sess_name s ∧
               sess_lastModified s' = sess_lastModified s ∧
               sess_currentSnapshotId s' = sess_currentSnapshotId s ∧
               sess_snapshots s' ⊆+ sess_snapshots s ∧
               (Z.of_nat (length (sess_snapshots s)) ≤ keep → s' = s) ∧
               (0 ≤ keep →
                Z.of_nat (length (sess_snapshots s'))
                = Z.min keep (Z.of_nat (length (sess_snapshots s)))) ∧
               (∀ x y, x ∈ sess_snapshots s' → y ∈ sess_snapshots s →
                       snap_timestamp x < snap_timestamp y → y ∈ sess_snapshots s'))
            (sessions (data st)) (trimmed keep <$> sessions (data st))).
  { eapply Forall2_impl; [exact Hsessions|]. intros s s' ->.
    split_and!.
    - unfold trimmed. by destruct (keep <? _).
    - unfold trimmed. by destruct (keep <? _).
    - unfold trimmed. by destruct (keep <? _).
    - unfold trimmed. by destruct (keep <? _).
    - apply trimmed_submseteq.
    - intros Hle. unfold trimmed.
      destruct (keep <? _) eqn:E; [apply Z.ltb_lt in E; lia | done].
    - apply trimmed_length.
    - apply trimmed_newest. }
  assert (Hdisk1 : ∀ k, disk s1 !! k = disk st !! k
                        ∨ (disk s1 !! k = None ∧
                           ∃ s x, s ∈ sessions (data st) ∧ x ∈ sess_snapshots s ∧
                                  under (key h (Path.dirname (snap_snapshotPath x))) k = true)).
  { intros k. destruct (Hk1 k) as [?|[? (d & Hd & Hu)]]; [by left|right].
    split; [done|]. unfold storedDirs in Hd.
    apply list_elem_of_fmap in Hd as (x & -> & (s & ? & ?)%list_elem_of_bind).
    by exists s, x. }
  unfold cleanupOldSnapshots. fold keep. unfold try_catch.
  unfold bind at 1, gets at 1. unfold bind at 1. rewrite Hloop.
  unfold bind at 1.
  destruct (saveData h s1) as [[[]|err] s2] eqn:Hsave.
  - pose proof (saveData_persists h _ _ _ Hsave) as (Hpers & Hd2 & Hc2 & _).
    unfold bind, gets, ret. eexists _, _. split; [reflexivity|].
    rewrite Hc2, Hd2, Hd1. simpl.
    split; [done|]. split; [done|]. split; [done|]. split; [|done].
    intros k Hk. rewrite (saveData_disk h _ _ _ k Hsave); [apply Hdisk1|].
    unfold indexKey in *. by rewrite Hc1.
  - assert (s2 = s1) as ->.
    { unfold saveData, bind, gets, writeFile in Hsave. simpl in Hsave.
      repeat case_match; by inversion Hsave. }
    unfold ret. eexists _, _. split; [reflexivity|]. rewrite Hd1. simpl.
    split; [done|]. split; [done|]. split; [done|]. split; [|done].
    intros k _. apply Hdisk1.
Qed.

End Retention.

Section Relocate.
Context (h : Host).


(** ** Switching to another cache directory *)

Lemma saveData_inv st r st' :
  saveData h st = (r, st') →
  (r = Ok tt ∧ st' = set_disk (insert (indexKey h st) (stringify h (data st))) st)
  ∨ (st' = st ∧ ∃ err, r = Throw err).
Proof.
  unfold saveData, bind, gets, writeFile, indexKey. simpl.
  destruct (is_directory _ _); intros H; inversion H; subst; [right|left]; eauto.
Qed.

(** The three ways [initialize] can end: nothing done (a failure was
    swallowed), the index document written for the first time, the index
    document read. *)
Lemma initialize_inv st r st' :
  initialize h st = (r, st') →
  r = Ok tt ∧
  (st' = st
   ∨ (disk st !! indexKey h st = None ∧
      st' = set_disk (insert (indexKey h st) (stringify h (data st))) st)
   ∨ (∃ content d, disk st !! indexKey h st = Some content ∧
                   parse h content = Some d ∧ st' = set_data (λ _, d) st)).
Proof.
  unfold initialize. intros Hrun.
  apply try_catch_inv in Hrun as [(a & Hrun & ->)|(err & s1 & Hrun & [= <- <-])].
  - destruct a. split; [done|].
    apply bind_ok_inv in Hrun as (cache & s4 & [= <- <-] & Hrun).
    apply bind_ok_inv in Hrun as (snaps & s4 & [= <- <-] & Hrun).
    apply bind_ok_inv in Hrun as (v1 & s4 & H1 & Hrun).
    apply ensureDir_readonly in H1 as ->.
    apply bind_ok_inv in Hrun as (v2 & s4 & H2 & Hrun).
    apply ensureDir_readonly in H2 as ->. cbv zeta in Hrun.
    apply bind_ok_inv in Hrun as (present & s4 & [= Hpresent <-] & Hrun).
    fold (indexKey h st) in Hpresent, Hrun.
    destruct present.
    + apply bind_ok_inv in Hrun as (content & s4 & Hread & Hrun).
      apply readFile_inv in Hread as [-> Hcontent].
      destruct (parse h content) as [d|] eqn:Hparse; [|discriminate].
      injection Hrun as <-. right; right. by exists content, d.
    + apply saveData_inv in Hrun as [[_ ->]|[_ [? ?]]]; [|done].
      right; left. split; [|done].
      apply orb_false_iff in Hpresent as [Hfile _].
      apply bool_decide_eq_false in Hfile.
      destruct (disk st !! indexKey h st); [destruct Hfile; eauto | done].
  - split; [done|]. left.
    apply bind_inv in Hrun as [(cache & s4 & [= <- <-] & Hrun)|(? & [=] & _)].
    apply bind_inv in Hrun as [(snaps & s4 & [= <- <-] & Hrun)|(? & [=] & _)].
    apply bind_inv in Hrun as [(v1 & s4 & H1 & Hrun)|(? & H1 & _)];
      apply ensureDir_readonly in H1 as ->; [|done].
    apply bind_inv in Hrun as [(v2 & s4 & H2 & Hrun)|(? & H2 & _)];
      apply ensureDir_readonly in H2 as ->; [|done].
    cbv zeta in Hrun.
    apply bind_inv in Hrun as [(present & s4 & [= _ <-] & Hrun)|(? & [=] & _)].
    destruct present.
    + apply bind_inv in Hrun as [(content & s4 & Hread & Hrun)|(? & Hread & _)].
      * apply readFile_inv in Hread as [-> _].
        destruct (parse h content); by inversion Hrun.
      * unfold readFile in Hread. repeat case_match; by inversion Hread.
    + apply saveData_inv in Hrun as [[? _]|[-> _]]; done.
Qed.

(** [updateCacheDirectory] moves the manager to the new cache directory
    and makes it project based.  When the index document of the new
    directory is not on the disk before the call and is there after it,
    the call has written into it the data the manager held: the sessions
    recorded under the directory it came from go with it. *)
Theorem updateCacheDirectory_carries_the_sessions newCache st u st' :
  updateCacheDirectory h newCache st = (Ok u, st') →
  cacheDirectory st' = newCache ∧
  snapshotsDirectory st' = Path.join newCache "snapshots" ∧
  isProjectBased st' = true ∧
  (indexKey h st' ≠ indexKey h st →
   disk st !! indexKey h st' = None →
   is_Some (disk st' !! indexKey h st') →
   data st' = data st ∧ persisted h st').
Proof.
  intros Hrun. unfold updateCacheDirectory in Hrun.
  apply bind_ok_inv in Hrun as (d & s0 & [= <- <-] & Hrun).
  apply bind_ok_inv in Hrun as (u1 & s1 & Hfirst & Hrun).
  apply bind_ok_inv in Hrun as (u2 & s2 & [= _ <-] & Hrun).
  set (s2 := set_directories newCache (Path.join newCache "snapshots") s1) in *.
  assert (Hs1 : cacheDirectory s1 = cacheDirectory st ∧ data s1 = data st ∧
                ∀ k, k ≠ indexKey h st → disk s1 !! k = disk st !! k).
  { destruct (sessions (data st)).
    - by injection Hfirst as _ <-.
    - apply saveData_inv in Hfirst as [[_ ->]|[-> _]]; [|done]. simpl.
      split_and!; try done. intros k Hk. by rewrite lookup_insert_ne. }
  destruct Hs1 as (Hc1 & Hd1 & Hdisk1).
  apply initialize_inv in Hrun as [_ Hcases].
  assert (Hparts : cacheDirectory st' = newCache ∧
                   snapshotsDirectory st' = Path.join newCache "snapshots" ∧
                   isProjectBased st' = true).
  { destruct Hcases as [->|[[_ ->]|(content & d' & _ & _ & ->)]]; done. }
  destruct Hparts as (Hc & Hsn & Hpb). split; [done|]. split; [done|]. split; [done|].
  intros Hne Hnone Hsome.
  assert (Hidx : indexKey h st' = indexKey h s2).
  { unfold indexKey. by rewrite Hc. }
  rewrite Hidx in Hne, Hnone, Hsome.
  assert (Hnone2 : disk s2 !! indexKey h s2 = None).
  { simpl. rewrite Hdisk1; done. }
  destruct Hcases as [->|[[_ ->]|(content & d' & Hcontent & _ & ->)]].
  - rewrite Hnone2 in Hsome. by destruct Hsome.
  - simpl. split; [done|]. unfold persisted, indexKey. simpl.
    by rewrite lookup_insert_eq.
  - congruence.
Qed.

End Relocate.

Section Reload.
Context (h : Host).

(** ** Starting again on a cache directory *)


End Reload.

(** ** The statements above at work on the example stores *)

(** The guard at work: the snapshot of ["/etc/passwd"] is refused. *)
Lemma restoreSnapshot_refuses_system_paths_witness :
  ∃ resp, restoreSnapshot host 3000 "snap1" withSystemSnapshot
          = (Ok resp, withSystemSnapshot) ∧ success resp = false.
Proof.
  apply (restoreSnapshot_refuses_system_paths host 3000 "snap1" withSystemSnapshot
           O O snapPasswd "/etc/").
  - vm_compute; reflexivity.
  - apply list_elem_of_here.
  - vm_compute; reflexivity.
Defined.

Lemma success_means_persisted_witness : persisted host withSnapshot.
Proof.
  apply (success_means_persisted host (CreateSnapshot env1 "/proj/a.txt" "x" None None)
           fresh (response (createSnapshot host env1 "/proj/a.txt" "x" None None fresh).1)
           withSnapshot).
  - vm_compute; reflexivity.
  - vm_compute; reflexivity.
Defined.

Lemma getCurrentSession_after_createSession_witness :
  ∃ info,
    getCurrentSession (createSession host env2 None None withSnapshot).2
    = (Ok {| ok := true; msg := "Current session retrieved"; result := Some (Some info) |},
       (createSession host env2 None None withSnapshot).2) ∧
    si_id info = "sess2" ∧ si_name info = "Session 2" ∧ si_snapshotCount info = O.
Proof.
  destruct (getCurrentSession_after_createSession host env2 None None withSnapshot
              (response (createSession host env2 None None withSnapshot).1)
              (createSession host env2 None None withSnapshot).2)
    as (info & Hget & Hid & Hname & _ & _ & Hcount & _).
  - vm_compute; reflexivity.
  - vm_compute; reflexivity.
  - vm_compute; discriminate.
  - intros s Hs. apply list_elem_of_lookup in Hs as [i Hi].
    destruct i as [|i].
    + vm_compute in Hi. injection Hi as <-. vm_compute; discriminate.
    + destruct i; vm_compute in Hi; discriminate Hi.
  - exists info. split_and!; [exact Hget | exact Hid | exact Hname | exact Hcount].
Defined.

Lemma deleteSnapshot_removes_the_entry_witness :
  locate "snap1" (sessions (data (deleteSnapshot host 3000 "snap1" withSnapshot).2)) O = None ∧
  disk (deleteSnapshot host 3000 "snap1" withSnapshot).2
    !! "/proj/.CodeRecoder/snapshots/files/snap1/a.txt" = Some "A" ∧
  disk (deleteSnapshot host 3000 "snap1" withSnapshot).2 !! "/proj/a.txt" = Some "A".
Proof.
  destruct (deleteSnapshot_removes_the_entry host 3000 "snap1" withSnapshot
              (response (deleteSnapshot host 3000 "snap1" withSnapshot).1)
              (deleteSnapshot host 3000 "snap1" withSnapshot).2)
    as (si & j & target & session & _ & _ & _ & _ & _ & Hdisk & Hgone).
  - vm_compute; reflexivity.
  - vm_compute; reflexivity.
  - split_and!.
    + apply Hgone. apply (bool_decide_unpack _). vm_compute. exact I.
    + rewrite Hdisk; [vm_compute; reflexivity | vm_compute; discriminate].
    + rewrite Hdisk; [vm_compute; reflexivity | vm_compute; discriminate].
Defined.

Lemma createSnapshot_records_the_content_witness :
  (∃ session',
     sessions (data withTwoSnapshots) !! O = Some session' ∧
     snap_id <$> sess_snapshots session' = ["snap1"; "snap2"] ∧
     sess_currentSnapshotId session' = Some "snap2") ∧
  disk withTwoSnapshots !! "/proj/.CodeRecoder/snapshots/files/snap2/a.txt" = Some "A" ∧
  disk withTwoSnapshots !! "/proj/a.txt" = Some "A".
Proof.
  destruct (createSnapshot_records_the_content host env2 "/proj/a.txt" "y" None None
              withSnapshot
              (response (createSnapshot host env2 "/proj/a.txt" "y" None None withSnapshot).1)
              withTwoSnapshots "sess1")
    as (content & i & session & session' & snapshot & Hcontent & Hid & _ & _ & _ & _ & _
        & Hsession & _ & Hsession' & Hsnaps & Hcur & _ & _ & Hstored & Hframe).
  - vm_compute; reflexivity.
  - right. split; vm_compute; reflexivity.
  - vm_compute; reflexivity.
  - vm_compute; reflexivity.
  - assert (content = "A") as ->.
    { vm_compute in Hcontent. by injection Hcontent. }
    split_and!.
    + destruct i as [|i]; [|destruct i; vm_compute in Hsession; discriminate Hsession].
      exists session'. split; [exact Hsession'|]. split; [|exact Hcur].
      rewrite Hsnaps, fmap_app. simpl. rewrite Hid.
      vm_compute in Hsession. injection Hsession as <-. reflexivity.
    + apply Hstored; vm_compute; discriminate.
    + rewrite Hframe; [vm_compute; reflexivity | vm_compute; discriminate ..].
Defined.


Lemma updateCacheDirectory_carries_the_sessions_witness :
  cacheDirectory moved = "/other/.CodeRecoder" ∧
  data moved = data withSnapshot ∧
  disk moved !! "/other/.CodeRecoder/snapshots/snapshots.json"
  = Some (stringify host (data withSnapshot)).
Proof.
  destruct (updateCacheDirectory_carries_the_sessions host "/other/.CodeRecoder"
              withSnapshot tt moved)
    as (Hcache & _ & _ & Hcarried).
  - vm_compute; reflexivity.
  - destruct Hcarried as [Hdata Hdisk].
    + vm_compute; discriminate.
    + vm_compute; reflexivity.
    + vm_compute; eauto.
    + split_and!; [exact Hcache | exact Hdata |].
      unfold persisted in Hdisk. rewrite Hdata in Hdisk. exact Hdisk.
Defined.


End FileStoreFacts.

(* ===================================================================== *)
(** * The project snapshot store: what a copy leaves out and what it writes *)
(* ===================================================================== *)

Module ExcludeFacts.
Import Tree ProjectStore.

(** ** What the two copiers leave out *)

Lemma regexPrefix_star p s :
  regexPrefix (String "*" p) s
  = regexPrefix p s
    || match s with
       | EmptyString => false
       | String d s' => negb (is_line_terminator d) && regexPrefix (String "*" p) s'
       end.
Proof. by destruct s. Qed.

Lemma regexTest_unfold p s :
  regexTest p s
  = regexPrefix p s || match s with EmptyString => false | String _ s' => regexTest p s' end.
Proof. by destruct s. Qed.

Lemma glob_star p s :
  glob (String "*" p) s
  = glob p s || match s with EmptyString => false | String _ s' => glob (String "*" p) s' end.
Proof. by destruct s. Qed.

(** [/.x y z/] at the start of a string. *)
Lemma regexPrefix_dot3 x y z s :
  x ≠ "*"%char → x ≠ "."%char → y ≠ "*"%char → y ≠ "."%char → z ≠ "*"%char → z ≠ "."%char →
  regexPrefix (String "." (String x (String y (String z "")))) s = true
  ↔ ∃ c b, is_line_terminator c = false ∧ s = String c (String x (String y (String z b))).
Proof.
  intros Hx Hx' Hy Hy' Hz Hz'. simpl.
  apply Ascii.eqb_neq in Hx, Hx', Hy, Hy', Hz, Hz'. rewrite Hx, Hx', Hy, Hy', Hz, Hz'.
  split.
  - destruct s as [|c [|x' [|y' [|z' b]]]]; rewrite ?andb_false_r; try done.
    rewrite !andb_true_iff, negb_true_iff, !Ascii.eqb_eq.
    intros (Hc & -> & -> & -> & _). by exists c, b.
  - intros (c & b & Hc & ->). by rewrite Hc, !Ascii.eqb_refl.
Qed.

Lemma regexPrefix_star_dot3 x y z s :
  x ≠ "*"%char → x ≠ "."%char → y ≠ "*"%char → y ≠ "."%char → z ≠ "*"%char → z ≠ "."%char →
  regexPrefix (String "*" (String "." (String x (String y (String z ""))))) s = true →
  ∃ a c b, is_line_terminator c = false ∧ s = a +:+ String c (String x (String y (String z b))).
Proof.
  intros Hx Hx' Hy Hy' Hz Hz'. induction s as [|d s IH]; rewrite regexPrefix_star.
  - rewrite orb_false_r. intros H. apply regexPrefix_dot3 in H as (c & b & _ & ?); done.
  - rewrite orb_true_iff, andb_true_iff. intros [H|[_ H]].
    + apply regexPrefix_dot3 in H as (c & b & Hc & ->); [|done..]. by exists "", c, b.
    + destruct (IH H) as (a & c & b & Hc & ->). by exists (String d a), c, b.
Qed.

(** [new RegExp(".*.xyz").test(s)]: some character that is no line
    terminator is followed by [xyz]. *)
Lemma regexTest_star_dot3 x y z s :
  x ≠ "*"%char → x ≠ "."%char → y ≠ "*"%char → y ≠ "."%char → z ≠ "*"%char → z ≠ "."%char →
  regexTest (String "*" (String "." (String x (String y (String z ""))))) s = true
  ↔ ∃ a c b, is_line_terminator c = false ∧ s = a +:+ String c (String x (String y (String z b))).
Proof.
  intros Hx Hx' Hy Hy' Hz Hz'. split.
  - induction s as [|d s IH]; rewrite regexTest_unfold.
    + rewrite orb_false_r. by apply regexPrefix_star_dot3.
    + rewrite orb_true_iff. intros [H|H]; [by apply regexPrefix_star_dot3|].
      destruct (IH H) as (a & c & b & Hc & ->). by exists (String d a), c, b.
  - intros (a & c & b & Hc & ->). induction a as [|d a IH].
    + change (regexTest (String "*" (String "." (String x (String y (String z "")))))
                (String c (String x (String y (String z b)))) = true).
      rewrite regexTest_unfold. apply orb_true_iff. left.
      rewrite regexPrefix_star. apply orb_true_iff. left.
      apply regexPrefix_dot3; [done..|]. by exists c, b.
    + change (String d a +:+ ?t) with (String d (a +:+ t)).
      rewrite regexTest_unfold. apply orb_true_iff. by right.
Qed.

Lemma glob_char c p s :
  c ≠ "*"%char →
  glob (String c p) s
  = match s with EmptyString => false | String d s' => Ascii.eqb c d && glob p s' end.
Proof. intros Hc. apply Ascii.eqb_neq in Hc. simpl. by rewrite Hc. Qed.

Lemma glob_star_dot3 x y z s :
  x ≠ "*"%char → y ≠ "*"%char → z ≠ "*"%char →
  glob (String "*" (String "." (String x (String y (String z ""))))) s = true
  ↔ ∃ a, s = a +:+ String "." (String x (String y (String z ""))).
Proof.
  intros Hx Hy Hz.
  assert (Hlit : ∀ s, glob (String "." (String x (String y (String z "")))) s = true
                      ↔ s = String "." (String x (String y (String z "")))).
  { intros s'. rewrite glob_char by done. split.
    - destruct s' as [|c s']; [done|]. rewrite glob_char by done.
      destruct s' as [|x' s']; [by rewrite andb_false_r|]. rewrite glob_char by done.
      destruct s' as [|y' s']; [by rewrite !andb_false_r|]. rewrite glob_char by done.
      destruct s' as [|z' b]; [by rewrite !andb_false_r|].
      change (glob "" b) with (String.eqb b "").
      rewrite !andb_true_iff, !Ascii.eqb_eq, String.eqb_eq.
      by intros (<- & <- & <- & <- & ->).
    - intros ->. rewrite !glob_char by done. by rewrite !Ascii.eqb_refl. }
  split.
  - induction s as [|d s IH]; rewrite glob_star.
    + rewrite orb_false_r, Hlit. done.
    + rewrite orb_true_iff, Hlit. intros [->|H]; [by exists ""|].
      destruct (IH H) as (a & ->). by exists (String d a).
  - intros (a & ->). induction a as [|d a IH]; rewrite glob_star.
    + apply orb_true_iff. left. by apply Hlit.
    + apply orb_true_iff. right. exact IH.
Qed.

Lemma glob_literal p : ∀ name,
  Js.includes p "*" = false → glob p name = String.eqb name p.
Proof.
  induction p as [|c p IH]; intros name Hp.
  - by destruct name.
  - assert (c ≠ "*"%char ∧ Js.includes p "*" = false) as [Hc Hp'].
    { revert Hp. cbn [Js.includes Js.startsWith].
      destruct (Ascii.eqb_spec "*" c) as [<-|Hne]; [by destruct p|].
      intros Hp. split; [congruence|]. exact Hp. }
    rewrite glob_char by done. destruct name as [|d name]; [done|].
    simpl. rewrite IH by done. rewrite (Ascii.eqb_sym c d).
    by destruct (Ascii.eqb d c).
Qed.

(** Names left out by the mirror tool. *)
Lemma rsyncExcluded_spec name :
  rsyncExcluded excludePatterns name = true
  ↔ name ∈ [".git"; "node_modules"; ".CodeRecoder"; "__pycache__"; ".DS_Store";
            "dist"; "build"; ".vscode"; ".idea"]
    ∨ ∃ a, name = a +:+ ".pyc" ∨ name = a +:+ ".log".
Proof.
  unfold rsyncExcluded, excludePatterns.
  pose proof (λ p, glob_literal p name) as Hlit.
  cbn [existsb].
  rewrite (Hlit ".git"), (Hlit "node_modules"), (Hlit ".CodeRecoder"), (Hlit "__pycache__"),
    (Hlit ".DS_Store"), (Hlit "dist"), (Hlit "build"), (Hlit ".vscode"), (Hlit ".idea")
    by reflexivity.
  rewrite !orb_true_iff, !String.eqb_eq, !glob_star_dot3 by done.
  rewrite !elem_of_cons, elem_of_nil. split.
  - intros H. decompose [or] H; clear H;
      first [ discriminate | left; tauto
            | match goal with H : ∃ _, _ |- _ => destruct H as [a Ha] end;
              right; exists a; tauto ].
  - intros [H|(a & [H|H])]; [tauto| |].
    + assert (∃ a, name = a +:+ ".pyc") by eauto. tauto.
    + assert (∃ a, name = a +:+ ".log") by eauto. tauto.
Qed.

(** Names left out by the in-process copy. *)
Lemma shouldExclude_spec name :
  shouldExclude excludePatterns name = true
  ↔ name ∈ [".git"; "node_modules"; ".CodeRecoder"; "__pycache__"; ".DS_Store";
            "dist"; "build"; ".vscode"; ".idea"]
    ∨ ∃ a c b, is_line_terminator c = false
               ∧ (name = a +:+ String c ("pyc" +:+ b) ∨ name = a +:+ String c ("log" +:+ b)).
Proof.
  unfold shouldExclude, excludePatterns. cbn [existsb].
  repeat match goal with
         | |- context [Js.includes ?p "*"] =>
             let b := eval vm_compute in (Js.includes p "*") in
             change (Js.includes p "*") with b
         end.
  cbv iota.
  rewrite !orb_true_iff, !String.eqb_eq, !regexTest_star_dot3 by done.
  rewrite !elem_of_cons, elem_of_nil. split.
  - intros H. decompose [or] H; clear H;
      first [ discriminate | left; tauto
            | match goal with H : ∃ _, _ |- _ => destruct H as (a & c & b & Hc & Ha) end;
              right; exists a, c, b; tauto ].
  - intros [H|(a & c & b & Hc & [H|H])]; [tauto| |].
    + assert (∃ a c b, is_line_terminator c = false ∧ name = a +:+ String c ("pyc" +:+ b))
        by eauto. tauto.
    + assert (∃ a c b, is_line_terminator c = false ∧ name = a +:+ String c ("log" +:+ b))
        by eauto. tauto.
Qed.

Lemma rsyncExcluded_shouldExclude name :
  rsyncExcluded excludePatterns name = true → shouldExclude excludePatterns name = true.
Proof.
  rewrite rsyncExcluded_spec, shouldExclude_spec.
  intros [H|(a & [->| ->])]; [by left|right; exists a, "."%char, ""; split; [done|]..].
  - by left.
  - by right.
Qed.

(** What a full snapshot leaves out depends on the copier.  The mirror
    tool leaves out the nine names of the list and the names that end in
    [.pyc] or [.log].  The in-process copy, which turns the pattern [*.log]
    into the unanchored regular expression [.*.log], leaves out the nine
    names and every name in which [pyc] or [log] follows some character that
    is no line terminator, wherever in the name.  So what the mirror tool
    leaves out the in-process copy leaves out as well. *)
Theorem exclusions_of_a_full_snapshot name :
  (rsyncExcluded excludePatterns name = true
   ↔ name ∈ [".git"; "node_modules"; ".CodeRecoder"; "__pycache__"; ".DS_Store";
             "dist"; "build"; ".vscode"; ".idea"]
     ∨ ∃ a, name = a +:+ ".pyc" ∨ name = a +:+ ".log") ∧
  (shouldExclude excludePatterns name = true
   ↔ name ∈ [".git"; "node_modules"; ".CodeRecoder"; "__pycache__"; ".DS_Store";
             "dist"; "build"; ".vscode"; ".idea"]
     ∨ ∃ a c b, is_line_terminator c = false
                ∧ (name = a +:+ String c ("pyc" +:+ b) ∨ name = a +:+ String c ("log" +:+ b))) ∧
  (rsyncExcluded excludePatterns name = true → shouldExclude excludePatterns name = true).
Proof.
  split; [apply rsyncExcluded_spec|].
  split; [apply shouldExclude_spec|apply rsyncExcluded_shouldExclude].
Qed.

End ExcludeFacts.

Module TreeShapeFacts.
Import Tree TreeFacts.

(** ** Well-formed trees *)




Lemma find_entry_None name d : find_entry name d = None ↔ name ∉ d.*1.
Proof.
  induction d as [|[n x] d IH]; simpl.
  - split; [intros _; apply not_elem_of_nil|done].
  - rewrite not_elem_of_cons. destruct (String.eqb_spec n name) as [->|Hne].
    + split; [done|]. by intros [? _].
    + rewrite IH. split; [by intros ?; split|by intros [_ ?]].
Qed.







(** ** What a write leaves at its path *)

Lemma write_file_get force p : ∀ d d' c m,
  write_file force d p (File c m) = Some d' → get d' p = Some (File c m).
Proof.
  induction p as [|n p IH]; intros d d' c m Hw; [done|].
  destruct p as [|n' p].
  - assert (d' = set_entry n (File c m) d) as ->.
    { simpl in Hw. destruct (find_entry n d) as [[b t|[|? ?]]|]; try done;
        try (destruct force; [|done]); by injection Hw as <-. }
    simpl. by rewrite find_entry_set_entry, String.eqb_refl.
  - change (write_file force d (n :: n' :: p) (File c m))
      with (match find_entry n d with
            | Some (Dir d0) => (λ d'', set_entry n (Dir d'') d)
                                 <$> write_file force d0 (n' :: p) (File c m)
            | _ => None
            end) in Hw.
    destruct (find_entry n d) as [[b t|d0]|] eqn:Hfind; try done.
    destruct (write_file force d0 (n' :: p) (File c m)) as [d''|] eqn:Hsub; [|done].
    injection Hw as <-.
    change (get (set_entry n (Dir d'') d) (n :: n' :: p))
      with (match find_entry n (set_entry n (Dir d'') d) with
            | Some (Dir d1) => get d1 (n' :: p)
            | Some (File b m) => None
            | None => None
            end).
    rewrite find_entry_set_entry, String.eqb_refl. by eapply IH.
Qed.

(** The file a path leads to, from the entry its first component names. *)
Lemma get_cons d n p :
  get d (n :: p)
  = match find_entry n d with
    | Some (Dir d') => get d' p
    | Some (File b m) => match p with [] => Some (File b m) | _ => None end
    | None => None
    end.
Proof. done. Qed.

End TreeShapeFacts.

Module CopyFacts.
Import Tree TreeFacts TreeShapeFacts ProjectStore.

(** ** What copying a tree leaves alone *)

Section KeepsAt.
Context (pl : Place) (q : list string).

#[global] Instance keepsAt_refl : Reflexive (keepsAt pl q).
Proof. by intros s c m. Qed.

#[global] Instance keepsAt_trans : Transitive (keepsAt pl q).
Proof. intros s1 s2 s3 H12 H23 c m H. by apply H23, H12. Qed.




End KeepsAt.

(** ** What copying a tree writes *)

Lemma putFileWith_placeDir force pl p c m s s' :
  putFileWith force pl p (File c m) s = (Ok tt, s') →
  placeDir pl s' ≫= (λ d, get d p) = Some (File c m).
Proof.
  unfold putFileWith. destruct pl as [|id]; simpl.
  - destruct (write_file force (project s) p (File c m)) as [d'|] eqn:Hw; [|done].
    intros [= <-]. simpl. by eapply write_file_get.
  - destruct (negb (storeWritable s)); [done|].
    destruct (snapshotDirs s !! id) as [d0|]; [|done].
    destruct (write_file force d0 p (File c m)) as [d'|] eqn:Hw; [|done].
    intros [= <-]. simpl. rewrite lookup_insert_eq. simpl. by eapply write_file_get.
Qed.




End CopyFacts.

Module SnapshotFacts.
Import Tree TreeFacts TreeShapeFacts ProjectStore ProjectStoreSpec ListFacts.
Import ExcludeFacts CopyFacts.

(** ** What writing a snapshot touches *)

#[global] Instance onlySnapshot_refl id : Reflexive (onlySnapshot id).
Proof. by intros s. Qed.

#[global] Instance onlySnapshot_trans id : Transitive (onlySnapshot id).
Proof.
  intros s1 s2 s3 (Hc1 & Hd1 & Hp1 & Hi1 & Hw1 & Ho1) (Hc2 & Hd2 & Hp2 & Hi2 & Hw2 & Ho2).
  split_and!; try congruence. intros id' Hne. by rewrite Ho2, Ho1.
Qed.

#[global] Instance staysWellFormed_refl pl : Reflexive (staysWellFormed pl).
Proof. intros s H. exact H. Qed.

#[global] Instance staysWellFormed_trans pl : Transitive (staysWellFormed pl).
Proof. intros s1 s2 s3 H12 H23 H. by apply H23, H12. Qed.



Lemma putFileWith_onlySnapshot force id p f :
  preserves (onlySnapshot id) (putFileWith force (InSnapshot id) p f).
Proof.
  intros s r s' H. unfold putFileWith in H.
  repeat case_match; inversion H; subst; try done.
  split_and!; try done. simpl. intros id' Hne. by rewrite lookup_insert_ne.
Qed.




Section Write.
Context (h : Host).


End Write.

End SnapshotFacts.

Module CreateFacts.
Import Tree TreeFacts TreeShapeFacts ProjectStore ProjectStoreSpec ListFacts.
Import ExcludeFacts CopyFacts SnapshotFacts.

(** ** What retention does to the snapshot directories *)

Lemma rmSnapshotDirs_spec (l : list ProjectSnapshot) : ∀ s,
  ∃ s', for_each l (λ snapshot, try_catch (rmSnapshotDir (ps_id snapshot)) (λ _, ret tt)) s
        = (Ok tt, s') ∧
        sameData s s' ∧ project s' = project s ∧
        (∀ id, id ∉ ps_id <$> l → snapshotDirs s' !! id = snapshotDirs s !! id) ∧
        (storeWritable s = true → ∀ id, id ∈ ps_id <$> l → snapshotDirs s' !! id = None) ∧
        (∀ id, snapshotDirs s' !! id = snapshotDirs s !! id ∨ snapshotDirs s' !! id = None).
Proof.
  induction l as [|x l IH]; intros s.
  - exists s. split_and!; try done.
    + intros _ id Hid. by apply elem_of_nil in Hid.
    + by left.
  - assert (Hbody : try_catch (rmSnapshotDir (ps_id x)) (λ _, ret tt) s
                    = (Ok tt, if storeWritable s
                              then set_snapshotDirs (delete (ps_id x)) s else s)).
    { unfold try_catch, rmSnapshotDir. by destruct (storeWritable s). }
    rewrite for_each_cons. unfold bind at 1. cbv beta. rewrite Hbody. clear Hbody.
    destruct (storeWritable s) eqn:Hw.
    + set (s1 := set_snapshotDirs (delete (ps_id x)) s).
      destruct (IH s1) as (s' & -> & Hsame & Hproj & Hout & Hin & Hany).
      exists s'. split; [done|]. split; [by etrans|]. split; [done|].
      split_and!.
      * intros id Hid. rewrite fmap_cons, not_elem_of_cons in Hid. destruct Hid as [Hne Hid].
        rewrite (Hout _ Hid). subst s1. simpl. by rewrite lookup_delete_ne.
      * intros _ id Hid. destruct (decide (id ∈ ps_id <$> l)) as [Hl|Hl].
        -- by apply Hin.
        -- rewrite (Hout _ Hl). rewrite fmap_cons in Hid.
           apply elem_of_cons in Hid as [-> | ?]; [|done].
           subst s1. simpl. by rewrite lookup_delete_eq.
      * intros id. destruct (Hany id) as [-> | ->]; [|by right].
        subst s1. simpl. destruct (decide (id = ps_id x)) as [-> | Hne].
        -- right. by rewrite lookup_delete_eq.
        -- left. by rewrite lookup_delete_ne.
    + destruct (IH s) as (s' & -> & Hsame & Hproj & Hout & Hin & Hany).
      exists s'. split; [done|]. split_and!; try done.
      intros id Hid. rewrite fmap_cons, not_elem_of_cons in Hid. destruct Hid as [Hne Hid].
      by apply Hout.
Qed.

Lemma cleanupOldSnapshots_dirs s :
  ∃ s', cleanupOldSnapshots s = (Ok tt, s') ∧
        cacheDirectory s' = cacheDirectory s ∧
        project s' = project s ∧
        indexFile s' = indexFile s ∧
        storeWritable s' = storeWritable s ∧
        data s' = with_snapshots (retained (maxSnapshots (data s)) (snapshots (data s)))
                    (data s) ∧
        (∀ id, id ∉ ps_id <$> droppedBy (maxSnapshots (data s)) (snapshots (data s)) →
               snapshotDirs s' !! id = snapshotDirs s !! id) ∧
        (storeWritable s = true →
         ∀ id, id ∈ ps_id <$> droppedBy (maxSnapshots (data s)) (snapshots (data s)) →
               snapshotDirs s' !! id = None) ∧
        (∀ id, snapshotDirs s' !! id = snapshotDirs s !! id ∨ snapshotDirs s' !! id = None).
Proof.
  unfold cleanupOldSnapshots, retained, droppedBy. unfold bind at 1, gets at 1.
  destruct (Z.of_nat (length (snapshots (data s))) <=? maxSnapshots (data s)).
  - exists s. rewrite with_snapshots_same. split_and!; try done.
    + intros _ id Hid. by apply elem_of_nil in Hid.
    + by left.
  - unfold bind at 1.
    match goal with |- context [for_each ?l ?b s] =>
      destruct (rmSnapshotDirs_spec l s) as (s1 & -> & Hsame & Hproj & Hout & Hin & Hany) end.
    destruct Hsame as (Hc & Hd & Hi & Hw).
    eexists. split; [reflexivity|]. simpl. rewrite Hd. split_and!; done.
Qed.

Section Create.
Context (h : Host).

(** ** What a successful [createProjectSnapshot] has written *)

Lemma createProjectSnapshot_written e root prompt st resp st' :
  createProjectSnapshot h e root prompt st = (Ok resp, st') →
  success resp = true →
  ∃ s4 s5 snapshot final,
    project s4 = project st ∧
    snapshotDirs s4 = snapshotDirs st ∧
    ps_id snapshot = uuid e ∧
    ps_type snapshot = kindAt st ∧
    ps_timestamp snapshot = now e ∧
    ps_changedFiles snapshot
    = (if decide (kindAt st = full) then ["*"] else ps_modifiedFiles snapshot) ∧
    saveSnapshotFiles h e snapshot s4 = (Ok tt, s5) ∧
    (∃ n, final = with_actualFileCount n snapshot) ∧
    snapshots (data st') = appended st final ∧
    project st' = project s5 ∧
    indexFile st' = Some (data st') ∧
    (∀ id, id ∉ ps_id <$> dropped st final →
           snapshotDirs st' !! id = snapshotDirs s5 !! id) ∧
    (∀ id, id ∈ ps_id <$> dropped st final → snapshotDirs st' !! id = None).
Proof.
  unfold createProjectSnapshot. unfold try_catch.
  unfold bind at 1, gets at 1.
  destruct (String.eqb (cacheDirectory st) "") eqn:Hcache.
  { intros [= <- <-]. done. }
  unfold bind at 1, modify at 1.
  set (s1 := set_data _ st).
  unfold bind at 1.
  destruct (analyzeChangesWithSerena_returns h e root s1) as (detected & s2 & -> & H12).
  unfold bind at 1.
  assert (∃ modifiedFiles s3,
            (if nonempty detected then ret detected
             else do forced <- forceFileAnalysis h e root prompt;
                  if nonempty forced then ret forced else ret ["*"]) s2
            = (Ok modifiedFiles, s3) ∧ detectionOnly s2 s3)
    as (modifiedFiles & s3 & -> & H23).
  { destruct (nonempty detected); [by eexists _, _|].
    unfold bind. destruct (forceFileAnalysis_returns h e root prompt s2)
      as (forced & s3 & -> & ?).
    destruct (nonempty forced); by eexists _, _. }
  assert (H13 : detectionOnly s1 s3) by (by etrans).
  destruct H13 as (Hc3 & Hp3 & Hsd3 & Hw3 & _ & Hn3 & Hl3 & Hi3 & Hs3 & Hm3 & Ha3).
  unfold bind at 1, gets at 1.
  assert (Hkind : (if shouldDoFullSave (data s3) then full else incremental) = kindAt st).
  { unfold kindAt. erewrite shouldDoFullSave_ext; [reflexivity|by rewrite ?Hi3, ?Hn3, ?Hl3, ?Hs3..]. }
  rewrite Hkind.
  unfold bind at 1.
  set (s4 := if decide (kindAt st = full)
             then set_data (with_lastFullSaveNumber (currentSaveNumber (data s3))) s3
             else s3).
  assert (Hs4 : (if decide (kindAt st = full)
                 then modify (set_data (with_lastFullSaveNumber (currentSaveNumber (data s3))))
                 else ret tt) s3 = (Ok tt, s4)).
  { subst s4. by destruct (decide _). }
  rewrite Hs4.
  assert (H4 : project s4 = project st ∧ snapshotDirs s4 = snapshotDirs st ∧
               maxSnapshots (data s4) = maxSnapshots (data st) ∧
               autoCleanup (data s4) = autoCleanup (data st) ∧
               snapshots (data s4) = snapshots (data st)).
  { subst s4. destruct (decide _); simpl; rewrite ?Hp3, ?Hsd3, ?Hm3, ?Ha3, ?Hs3; done. }
  destruct H4 as (Hp4 & Hsd4 & Hm4 & Ha4 & Hsn4).
  clearbody s4. clear Hs4.
  set (snapshot := {| ps_id := uuid e |}).
  unfold bind at 1.
  destruct (saveSnapshotFiles h e snapshot s4) as [[[]|err] s5] eqn:Hsave;
    pose proof (saveSnapshotFiles_sameData h e snapshot _ _ _ Hsave) as (Hc5 & Hd5 & Hi5 & Hw5).
  2:{ intros [= <- <-]. done. }
  unfold bind at 1, getSnapshotFileList at 1, gets at 1.
  set (final := with_actualFileCount _ snapshot).
  unfold bind at 1, modify at 1.
  set (s6 := set_data _ s5).
  unfold bind at 1, gets at 1.
  assert (∃ s7, (if autoCleanup (data s6) then cleanupOldSnapshots else ret tt) s6 = (Ok tt, s7)
                ∧ project s7 = project s5
                ∧ storeWritable s7 = storeWritable s5
                ∧ snapshots (data s7) = appended st final
                ∧ (∀ id, id ∉ ps_id <$> dropped st final →
                         snapshotDirs s7 !! id = snapshotDirs s5 !! id)
                ∧ (storeWritable s5 = true →
                   ∀ id, id ∈ ps_id <$> dropped st final → snapshotDirs s7 !! id = None))
    as (s7 & Hclean & Hp7 & Hw7 & Hsn7 & Hout7 & Hin7).
  { unfold appended, dropped.
    assert (Ha6 : autoCleanup (data s6) = autoCleanup (data st))
      by (subst s6; simpl; by rewrite Hd5).
    assert (Hm6 : maxSnapshots (data s6) = maxSnapshots (data st))
      by (subst s6; simpl; by rewrite Hd5).
    assert (Hsn6 : snapshots (data s6) = snapshots (data st) ++ [final])
      by (subst s6; simpl; by rewrite Hd5, Hsn4).
    rewrite Ha6. destruct (autoCleanup (data st)).
    - destruct (cleanupOldSnapshots_dirs s6) as (s7 & -> & _ & Hp7 & _ & Hw7 & Hd7 & Hout & Hin & _).
      rewrite Hm6, Hsn6 in Hd7, Hout, Hin.
      exists s7. split; [done|]. rewrite Hd7. split_and!; done.
    - exists s6. split; [done|]. rewrite Hsn6. split_and!; try done.
      intros _ id Hid. by apply elem_of_nil in Hid. }
  unfold bind at 1. rewrite Hclean.
  unfold bind at 1, saveData at 1.
  destruct (storeWritable s7) eqn:Hwr; [|intros [= <- <-]; done].
  intros [= <- <-] _. simpl.
  exists s4, s5, snapshot, final. split_and!; try done.
  - by eexists.
  - apply Hin7. congruence.
Qed.

End Create.

End CreateFacts.

Module FullSnapshotFacts.
Import Tree TreeFacts TreeShapeFacts ProjectStore ProjectStoreSpec ListFacts.
Import ExcludeFacts CopyFacts SnapshotFacts CreateFacts.

(** ** Retention splits the list *)

Lemma retained_dropped cap l : retained cap l ++ droppedBy cap l ≡ₚ l.
Proof.
  unfold retained, droppedBy. destruct (_ <=? _); [by rewrite app_nil_r|].
  rewrite slice_split. apply sort_permutation.
Qed.

Lemma filter_length_pos {A} (P : A → Prop) `{!∀ x, Decision (P x)} (l : list A) x :
  x ∈ l → P x → (0 < length (filter P l))%nat.
Proof.
  intros Hx HP. assert (Hin : x ∈ filter P l) by (by apply list_elem_of_filter).
  destruct (filter P l); [by apply elem_of_nil in Hin|simpl; lia].
Qed.

(** A snapshot whose id no other snapshot has is kept or dropped, not
    both. *)
Lemma fresh_retained cap old final :
  (∀ s, s ∈ old → ps_id s ≠ ps_id final) →
  ps_id final ∈ ps_id <$> retained cap (old ++ [final]) →
  ps_id final ∉ ps_id <$> droppedBy cap (old ++ [final]).
Proof.
  intros Hfresh (y & Hy & Hyin)%list_elem_of_fmap (x & Hx & Hxin)%list_elem_of_fmap.
  pose proof (retained_dropped cap (old ++ [final])) as Hperm.
  set (P := λ s : ProjectSnapshot, ps_id s = ps_id final).
  assert (Hlen : length (filter P (retained cap (old ++ [final])
                                   ++ droppedBy cap (old ++ [final])))
                 = length (filter P (old ++ [final]))) by (by rewrite Hperm).
  rewrite !filter_app, !length_app in Hlen.
  pose proof (filter_length_pos P _ y Hyin (eq_sym Hy)).
  pose proof (filter_length_pos P _ x Hxin (eq_sym Hx)).
  assert (filter P old = []) as Hold.
  { clear -Hfresh. induction old as [|s old IH]; [done|].
    rewrite filter_cons_False by (apply Hfresh, list_elem_of_here).
    apply IH. intros s' Hs'. apply Hfresh. by apply list_elem_of_further. }
  rewrite Hold in Hlen. simpl in Hlen.
  assert (length (filter P [final]) ≤ 1)%nat by (etrans; [apply length_filter|done]).
  lia.
Qed.

(** The snapshots a call keeps are the ones it had, and the one it made. *)
Lemma appended_elem_of st final x :
  x ∈ appended st final → x ∈ snapshots (data st) ∨ x = final.
Proof.
  intros Hx.
  assert (Hin : x ∈ snapshots (data st) ++ [final]).
  { unfold appended in Hx. destruct (autoCleanup (data st)); [|done].
    eapply elem_of_submseteq; [exact Hx|apply retained_submseteq]. }
  apply elem_of_app in Hin as [?|Hin]; [by left|right].
  by apply list_elem_of_singleton in Hin.
Qed.



(** ** The mirror of a snapshot directory into the project *)



End FullSnapshotFacts.

Module TreeWriteFacts.
Import Tree TreeFacts TreeShapeFacts.

(** ** What [mkdir_p] and [write_file] make of a tree, node by node *)

Lemma get_nil_tree r : get [] r = match r with [] => Some (Dir []) | _ => None end.
Proof. by destruct r. Qed.

(** Above a node there are directories only. *)
Lemma get_prefix_dir r : ∀ d x t n,
  get d (r ++ x :: t) = Some n → is_dir (get d r) = true.
Proof.
  induction r as [|a r IH]; intros d x t n Hget; [done|].
  rewrite <- app_comm_cons, get_cons in Hget. rewrite get_cons.
  destruct (find_entry a d) as [[b m|d']|]; [|by eapply IH|done].
  by destruct (r ++ x :: t) eqn:E; [destruct r|].
Qed.

Lemma mkdir_p_get force q : ∀ d d',
  mkdir_p force d q = Some d' → is_dir (get d' q) = true.
Proof.
  induction q as [|a q IH]; intros d d' Hmk; [done|]. simpl in Hmk.
  assert (∃ d0 d'', mkdir_p force d0 q = Some d'' ∧ d' = set_entry a (Dir d'') d)
    as (d0 & d'' & Hsub & ->).
  { destruct (find_entry a d) as [[b m|d0]|].
    - destruct force; [|done].
      destruct (mkdir_p true [] q) as [d''|] eqn:Hsub; [|done].
      injection Hmk as <-. by exists [], d''.
    - destruct (mkdir_p force d0 q) as [d''|] eqn:Hsub; [|done].
      injection Hmk as <-. by exists d0, d''.
    - destruct (mkdir_p force [] q) as [d''|] eqn:Hsub; [|done].
      injection Hmk as <-. by exists [], d''. }
  rewrite get_cons, find_entry_set_entry, String.eqb_refl. by eapply IH.
Qed.

(** Without [force], [mkdir_p] fails only on a regular file in the way. *)
Lemma mkdir_p_None q : ∀ d,
  mkdir_p false d q = None → ∃ r, r `prefix_of` q ∧ is_file (get d r) = true.
Proof.
  induction q as [|a q IH]; intros d Hmk; [done|]. simpl in Hmk.
  destruct (find_entry a d) as [[b m|d0]|] eqn:Hfind.
  - exists [a]. split; [by exists q|]. by rewrite get_cons, Hfind.
  - destruct (mkdir_p false d0 q) eqn:Hsub; [done|].
    destruct (IH _ Hsub) as (r & Hpre & Hfile).
    exists (a :: r). split; [by apply prefix_cons|]. by rewrite get_cons, Hfind.
  - destruct (mkdir_p false [] q) eqn:Hsub; [done|].
    destruct (IH _ Hsub) as (r & _ & Hfile). rewrite get_nil_tree in Hfile.
    by destruct r.
Qed.

(** Without [force], [mkdir_p] adds no regular file... *)
Lemma mkdir_p_files q : ∀ d d' r c m,
  mkdir_p false d q = Some d' → get d' r = Some (File c m) → get d r = Some (File c m).
Proof.
  induction q as [|a q IH]; intros d d' r c m Hmk Hget; simpl in Hmk.
  { by injection Hmk as <-. }
  destruct r as [|b r]; [done|].
  destruct (find_entry a d) as [[b0 m0|d0]|] eqn:Hfind; [done| |].
  - destruct (mkdir_p false d0 q) as [d''|] eqn:Hsub; [|done]. injection Hmk as <-.
    rewrite get_cons, find_entry_set_entry in Hget. rewrite get_cons.
    destruct (String.eqb_spec a b) as [->|Hne]; [|done].
    rewrite Hfind. by eapply IH.
  - destruct (mkdir_p false [] q) as [d''|] eqn:Hsub; [|done]. injection Hmk as <-.
    rewrite get_cons, find_entry_set_entry in Hget. rewrite get_cons.
    destruct (String.eqb_spec a b) as [->|Hne]; [|done].
    apply (IH _ _ _ _ _ Hsub) in Hget. rewrite get_nil_tree in Hget. by destruct r.
Qed.

(** ... and directories on the way to its path only. *)
Lemma mkdir_p_dirs q : ∀ d d' r,
  mkdir_p false d q = Some d' → is_dir (get d' r) = true →
  is_dir (get d r) = true ∨ r `prefix_of` q.
Proof.
  induction q as [|a q IH]; intros d d' r Hmk Hget; simpl in Hmk.
  { injection Hmk as <-. by left. }
  destruct r as [|b r]; [by left|].
  destruct (find_entry a d) as [[b0 m0|d0]|] eqn:Hfind; [done| |].
  - destruct (mkdir_p false d0 q) as [d''|] eqn:Hsub; [|done]. injection Hmk as <-.
    rewrite get_cons, find_entry_set_entry in Hget. rewrite get_cons.
    destruct (String.eqb_spec a b) as [->|Hne]; [|by left].
    rewrite Hfind. destruct (IH _ _ _ Hsub Hget) as [?|?]; [by left|right].
    by apply prefix_cons.
  - destruct (mkdir_p false [] q) as [d''|] eqn:Hsub; [|done]. injection Hmk as <-.
    rewrite get_cons, find_entry_set_entry in Hget. rewrite get_cons.
    destruct (String.eqb_spec a b) as [->|Hne]; [|by left].
    destruct (IH _ _ _ Hsub Hget) as [Hd|?]; [|right; by apply prefix_cons].
    rewrite get_nil_tree in Hd. destruct r; [|done]. right. apply prefix_cons, prefix_nil.
Qed.

(** The two ways a path of two components or more is written. *)
Lemma write_file_cons force d a b q f :
  write_file force d (a :: b :: q) f
  = match find_entry a d with
    | Some (Dir d0) => (λ d'', set_entry a (Dir d'') d) <$> write_file force d0 (b :: q) f
    | _ => None
    end.
Proof. done. Qed.

Lemma write_file_single d a f d' :
  write_file false d [a] f = Some d' →
  d' = set_entry a f d ∧ is_dir (find_entry a d) = false.
Proof.
  simpl. destruct (find_entry a d) as [[b t|[|? ?]]|]; try done; by intros [= <-].
Qed.

(** Without [force], [write_file] adds one regular file... *)
Lemma write_file_files q : ∀ d d' c0 m0 r c m,
  write_file false d q (File c0 m0) = Some d' → get d' r = Some (File c m) →
  (r = q ∧ c = c0 ∧ m = m0) ∨ get d r = Some (File c m).
Proof.
  induction q as [|a q IH]; intros d d' c0 m0 r c m Hw Hget; [done|].
  destruct r as [|b r]; [done|]. destruct q as [|a' q].
  - apply write_file_single in Hw as [-> _].
    rewrite get_cons, find_entry_set_entry in Hget. rewrite get_cons.
    destruct (String.eqb_spec a b) as [->|Hne]; [|by right].
    destruct r; [|done]. injection Hget as <- <-. by left.
  - rewrite write_file_cons in Hw.
    destruct (find_entry a d) as [[b0 t0|d0]|] eqn:Hfind; try done.
    destruct (write_file false d0 (a' :: q) (File c0 m0)) as [d''|] eqn:Hsub; [|done].
    injection Hw as <-.
    rewrite get_cons, find_entry_set_entry in Hget. rewrite get_cons.
    destruct (String.eqb_spec a b) as [->|Hne]; [|by right].
    rewrite Hfind.
    destruct (IH _ _ _ _ _ _ _ Hsub Hget) as [(-> & -> & ->)|?]; [by left|by right].
Qed.

(** ... and no directory. *)
Lemma write_file_dirs q : ∀ d d' c0 m0 r,
  write_file false d q (File c0 m0) = Some d' → is_dir (get d' r) = true →
  is_dir (get d r) = true.
Proof.
  induction q as [|a q IH]; intros d d' c0 m0 r Hw Hget; [done|].
  destruct r as [|b r]; [done|]. destruct q as [|a' q].
  - apply write_file_single in Hw as [-> _].
    rewrite get_cons, find_entry_set_entry in Hget. rewrite get_cons.
    destruct (String.eqb_spec a b) as [->|Hne]; [|done]. by destruct r.
  - rewrite write_file_cons in Hw.
    destruct (find_entry a d) as [[b0 t0|d0]|] eqn:Hfind; try done.
    destruct (write_file false d0 (a' :: q) (File c0 m0)) as [d''|] eqn:Hsub; [|done].
    injection Hw as <-.
    rewrite get_cons, find_entry_set_entry in Hget. rewrite get_cons.
    destruct (String.eqb_spec a b) as [->|Hne]; [|done].
    rewrite Hfind. by eapply IH.
Qed.

(** Without [force], [write_file] fails only when the parent directory
    is missing or the path is a directory. *)
Lemma write_file_None q : ∀ d f,
  write_file false d q f = None →
  q = [] ∨ is_dir (get d (removelast q)) = false ∨ is_dir (get d q) = true.
Proof.
  induction q as [|a q IH]; intros d f Hw; [by left|]. right.
  destruct q as [|a' q].
  - right. simpl in Hw. rewrite get_cons.
    destruct (find_entry a d) as [[b t|[|? ?]]|]; done.
  - rewrite write_file_cons in Hw.
    change (removelast (a :: a' :: q)) with (a :: removelast (a' :: q)).
    rewrite !get_cons.
    destruct (find_entry a d) as [[b0 t0|d0]|] eqn:Hfind.
    + left. by destruct (removelast (a' :: q)).
    + destruct (write_file false d0 (a' :: q) f) eqn:Hsub; [done|].
      destruct (IH _ _ Hsub) as [?|[?|?]]; [done|by left|by right].
    + by left.
Qed.

End TreeWriteFacts.

Module IncrementalFacts.
Import Tree TreeFacts TreeShapeFacts TreeWriteFacts ProjectStore ProjectStoreSpec ListFacts.
Import ProjectStoreExamples.
Import CopyFacts SnapshotFacts CreateFacts FullSnapshotFacts.

(** ** What an incremental snapshot holds *)

Lemma prefix_removelast {A} (p q : list A) :
  p ≠ [] → p `prefix_of` removelast q → p `prefix_of` q ∧ q ≠ p.
Proof.
  intros Hp [t Ht]. destruct q as [|x q] using rev_ind.
  { simpl in Ht. by destruct p. }
  rewrite removelast_last in Ht. subst q. split.
  - exists (t ++ [x]). by rewrite app_assoc.
  - intros Heq. apply (f_equal length) in Heq. rewrite !length_app in Heq. simpl in Heq. lia.
Qed.

Lemma get_file_not_dir d p c m r :
  get d p = Some (File c m) → r `prefix_of` removelast p → is_file (get d r) = false.
Proof.
  intros Hget Hpre.
  assert (Hp : p ≠ []) by (intros ->; done).
  destruct p as [|x p] using rev_ind; [done|]. clear IHp.
  rewrite removelast_last in Hpre. destruct Hpre as [t ->].
  rewrite <- app_assoc in Hget.
  assert (is_dir (get d r) = true).
  { destruct t as [|y t]; simpl in Hget; by eapply get_prefix_dir. }
  by destruct (get d r) as [[]|].
Qed.

Section Copy.
Context (e : Env) (id : string) (tree : dir) (paths : list (list string)).

(** One step of [copyChangedFiles]. *)
Lemma copyIn_step file s d :
  storeWritable s = true →
  snapshotDirs s !! id = Some d →
  project s = tree →
  sparse tree (now e) paths d →
  (∀ p, Path.components file = Some p → p ∈ paths) →
  ∃ s' d',
    try_catch (copyIn e id file) (λ _, ret tt) s = (Ok tt, s') ∧
    onlySnapshot id s s' ∧
    snapshotDirs s' !! id = Some d' ∧
    sparse tree (now e) paths d' ∧
    (∀ r, is_file (get d r) = true → is_file (get d' r) = true) ∧
    (∀ p c m, Path.components file = Some p →
              get tree p = Some (File c m) →
              (∀ q, q ∈ paths → p `prefix_of` q → q = p) →
              get d' p = Some (File c (now e))).
Proof.
  intros Hw Hd Hproj [Hfiles Hdirs] Hpaths.
  unfold copyIn, try_catch.
  destruct (Path.components file) as [p|] eqn:Hcomp.
  2:{ exists s, d. split; [done|]. split; [done|]. split; [done|]. by split_and!. }
  specialize (Hpaths p eq_refl).
  unfold bind at 1, mkdir, mkdirWith. rewrite Hw, Hd. simpl negb. cbv iota. simpl default.
  destruct (mkdir_p false d (removelast p)) as [d1|] eqn:Hmk.
  2:{ exists s, d. split; [done|]. split; [done|]. split; [done|]. split_and!; try done.
      intros p' c m [= <-] Hget _.
      destruct (mkdir_p_None _ _ Hmk) as (r & Hpre & Hfile).
      destruct (get d r) as [[c' m'|]|] eqn:Hr; try done.
      destruct (Hfiles _ _ _ Hr) as (_ & m0 & Hm0).
      pose proof (get_file_not_dir _ _ _ _ _ Hget Hpre) as Hno. by rewrite Hm0 in Hno. }
  set (s1 := set_snapshotDirs (insert id d1) s).
  assert (Hsparse1 : sparse tree (now e) paths d1).
  { split.
    - intros r c m Hr. apply Hfiles. by eapply mkdir_p_files.
    - intros r Hr. destruct (mkdir_p_dirs _ _ _ _ Hmk Hr) as [?|?]; [by apply Hdirs|].
      right. by exists p. }
  assert (Hkeep1 : ∀ r, is_file (get d r) = true → is_file (get d1 r) = true).
  { intros r Hr. destruct (get d r) as [[c m|]|] eqn:Hget; try done.
    by rewrite (mkdir_p_frame _ _ _ _ _ _ _ Hmk Hget). }
  assert (Honly1 : onlySnapshot id s s1).
  { subst s1. split_and!; try done. simpl. intros id' Hne. by rewrite lookup_insert_ne. }
  unfold bind at 1, gets at 1. change (project s1) with (project s). rewrite Hproj.
  destruct (get tree p) as [[c m0|es]|] eqn:Hsrc.
  2,3: exists s1, d1; split; [done|]; split; [done|]; split;
       [subst s1; simpl; by rewrite lookup_insert_eq|];
       split_and!; [done|done|]; intros p' c' m' [= <-] Hget; congruence.
  unfold putFile, putFileWith.
  change (storeWritable s1) with (storeWritable s). rewrite Hw. simpl negb. cbv iota.
  assert (Hd1 : snapshotDirs s1 !! id = Some d1)
    by (subst s1; simpl; by rewrite lookup_insert_eq).
  rewrite Hd1.
  destruct (write_file false d1 p (File c (now e))) as [d2|] eqn:Hwrite.
  2:{ exists s1, d1. split; [done|]. split; [done|]. split; [done|]. split_and!; try done.
      intros p' c' m' [= <-] _ Hnoext.
      destruct (write_file_None _ _ _ Hwrite) as [->|[Hparent|Hdir]]; [done| |].
      - by rewrite (mkdir_p_get _ _ _ _ Hmk) in Hparent.
      - destruct Hsparse1 as [_ Hdirs1].
        destruct (Hdirs1 _ Hdir) as [->|(q & Hq & Hpre)]; [done|].
        assert (Hp : p ≠ []) by (intros ->; done).
        destruct (prefix_removelast _ _ Hp Hpre) as [Hpre' Hne].
        by specialize (Hnoext q Hq Hpre'). }
  set (s2 := set_snapshotDirs (insert id d2) s1).
  exists s2, d2. split; [done|].
  split.
  { etrans; [exact Honly1|]. subst s2. split_and!; try done.
    simpl. intros id' Hne. by rewrite lookup_insert_ne. }
  split; [subst s2; simpl; by rewrite lookup_insert_eq|].
  split.
  { split.
    - intros r c' m' Hr.
      destruct (write_file_files _ _ _ _ _ _ _ _ Hwrite Hr) as [(-> & -> & ->)|Hold].
      + split; [done|]. by exists m0.
      + by apply Hsparse1.
    - intros r Hr. apply Hsparse1. by eapply write_file_dirs. }
  split.
  { intros r Hr. destruct (decide (r = p)) as [->|Hne].
    - by rewrite (write_file_get _ _ _ _ _ _ Hwrite).
    - specialize (Hkeep1 r Hr). destruct (get d1 r) as [[c' m'|]|] eqn:Hget; try done.
      by rewrite (write_file_frame _ _ _ _ _ _ _ _ Hwrite Hget Hne). }
  intros p' c' m' [= <-] Hget _. rewrite Hsrc in Hget. injection Hget as <- <-.
  by eapply write_file_get.
Qed.

(** The loop of [copyChangedFiles]. *)
Lemma copyChangedFiles_sparse changed : ∀ s d,
  storeWritable s = true →
  snapshotDirs s !! id = Some d →
  project s = tree →
  sparse tree (now e) paths d →
  (∀ file p, file ∈ changed → Path.components file = Some p → p ∈ paths) →
  ∃ s' d',
    copyChangedFiles e id changed s = (Ok tt, s') ∧
    onlySnapshot id s s' ∧
    snapshotDirs s' !! id = Some d' ∧
    sparse tree (now e) paths d' ∧
    (∀ r, is_file (get d r) = true → is_file (get d' r) = true) ∧
    (∀ file p c m, file ∈ changed → Path.components file = Some p →
                   get tree p = Some (File c m) →
                   (∀ q, q ∈ paths → p `prefix_of` q → q = p) →
                   get d' p = Some (File c (now e))).
Proof.
  unfold copyChangedFiles.
  induction changed as [|file rest IH]; intros s d Hw Hd Hproj Hsparse Hpaths.
  { exists s, d. split; [done|]. split; [done|]. split; [done|]. split_and!; try done.
    intros file p c m Hin. by apply elem_of_nil in Hin. }
  rewrite for_each_cons. unfold bind at 1. cbv beta.
  destruct (copyIn_step file s d Hw Hd Hproj Hsparse)
    as (s1 & d1 & -> & Honly1 & Hd1 & Hsparse1 & Hkeep1 & Hcopied1).
  { intros p. apply Hpaths, list_elem_of_here. }
  destruct Honly1 as (Hc1 & Hdata1 & Hp1 & Hi1 & Hw1 & Ho1).
  destruct (IH s1 d1) as (s' & d' & -> & Honly' & Hd' & Hsparse' & Hkeep' & Hcopied');
    [congruence|done|congruence|done| |].
  { intros f p Hf. apply Hpaths. by apply list_elem_of_further. }
  exists s', d'. split; [done|].
  split; [etrans; [|exact Honly']; by split_and!|].
  split; [done|]. split; [done|].
  split; [intros r Hr; by apply Hkeep', Hkeep1|].
  intros f p c m [->|Hf]%elem_of_cons Hcomp Hget Hnoext.
  - pose proof (Hcopied1 p c m Hcomp Hget Hnoext) as Hnow.
    assert (Hfile : is_file (get d' p) = true) by (apply Hkeep'; by rewrite Hnow).
    destruct (get d' p) as [[c' m'|]|] eqn:Hfinal; try done.
    destruct Hsparse' as [Hfiles' _].
    destruct (Hfiles' _ _ _ Hfinal) as (-> & m0 & Hm0). congruence.
  - by eapply Hcopied'.
Qed.

End Copy.

Section Incremental.
Context (h : Host).

Lemma saveSnapshotFiles_incremental e snapshot s s' :
  saveSnapshotFiles h e snapshot s = (Ok tt, s') →
  ps_type snapshot = incremental →
  snapshotDirs s !! ps_id snapshot = None →
  onlySnapshot (ps_id snapshot) s s' ∧
  ∃ d, snapshotDirs s' !! ps_id snapshot = Some d ∧
       get d ["snapshot_metadata.json"]
       = Some (File (stringifySnapshot h snapshot) (now e)) ∧
       (∀ file p c m,
          file ∈ ps_changedFiles snapshot → Path.components file = Some p →
          get (project s) p = Some (File c m) →
          p ≠ ["snapshot_metadata.json"] →
          (∀ file' q, file' ∈ ps_changedFiles snapshot → Path.components file' = Some q →
                      p `prefix_of` q → q = p) →
          get d p = Some (File c (now e))) ∧
       (∀ p c m, get d p = Some (File c m) →
                 p = ["snapshot_metadata.json"]
                 ∨ (m = now e ∧ ∃ m0, get (project s) p = Some (File c m0))).
Proof.
  intros Hrun Hinc Hfresh. set (id := ps_id snapshot) in *.
  unfold saveSnapshotFiles in Hrun. fold id in Hrun.
  apply bind_ok_inv in Hrun as ([] & s1 & Hmk & Hrun).
  apply bind_ok_inv in Hrun as ([] & s2 & Hcopy & Hmeta).
  rewrite decide_False in Hcopy by (by rewrite Hinc).
  assert (storeWritable s = true ∧ s1 = set_snapshotDirs (insert id []) s) as [Hw ->].
  { unfold mkdir, mkdirWith in Hmk. destruct (storeWritable s); [|done].
    rewrite Hfresh in Hmk. simpl in Hmk. by injection Hmk as <-. }
  set (paths := omap Path.components (ps_changedFiles snapshot)).
  destruct (copyChangedFiles_sparse e id (project s) paths (ps_changedFiles snapshot)
              (set_snapshotDirs (insert id []) s) [])
    as (s2' & d2 & Hcopy' & Honly2 & Hd2 & Hsparse2 & _ & Hcopied); try done.
  { simpl. by rewrite lookup_insert_eq. }
  { split.
    - intros r c m Hr. rewrite get_nil_tree in Hr. by destruct r.
    - intros r Hr. rewrite get_nil_tree in Hr. destruct r; [by left|done]. }
  { intros file p Hfile Hcomp. apply list_elem_of_omap. by exists file. }
  rewrite Hcopy in Hcopy'. injection Hcopy' as <-.
  assert (Honly02 : onlySnapshot id s s2).
  { etrans; [|exact Honly2]. split_and!; try done.
    simpl. intros id' Hne. by rewrite lookup_insert_ne. }
  assert (H2' : onlySnapshot id s2 s') by (by eapply putFileWith_onlySnapshot).
  split; [by etrans|].
  pose proof (putFileWith_placeDir _ _ _ _ _ _ _ Hmeta) as Hm. simpl in Hm.
  destruct (snapshotDirs s' !! id) as [d|] eqn:Hd; [|done]. simpl in Hm.
  exists d. split; [done|]. split; [done|].
  assert (Hwrite : write_file false d2 ["snapshot_metadata.json"]
                     (File (stringifySnapshot h snapshot) (now e)) = Some d).
  { unfold putFile, putFileWith in Hmeta. destruct (negb (storeWritable s2)); [done|].
    rewrite Hd2 in Hmeta.
    destruct (write_file false d2 _ _) as [d3|]; [|done].
    injection Hmeta as <-. simpl in Hd. rewrite lookup_insert_eq in Hd. congruence. }
  split.
  - intros file p c m Hfile Hcomp Hget Hp Hnoext.
    eapply write_file_frame; [exact Hwrite| |done].
    apply (Hcopied file p c m Hfile Hcomp Hget).
    intros q (file' & Hfile' & Hcomp')%list_elem_of_omap. by eapply Hnoext.
  - intros p c m Hget.
    destruct (write_file_files _ _ _ _ _ _ _ _ Hwrite Hget) as [(-> & _)|Hold]; [by left|].
    right. destruct Hsparse2 as [Hfiles2 _]. by apply Hfiles2.
Qed.

(** An incremental snapshot holds the changed files.  When
    [createProjectSnapshot] succeeds with an incremental snapshot, written
    to a directory that did not exist, and the record it made is still in
    the store, then the directory of the snapshot holds, with its bytes and
    stamped with the time of the call, every changed file that is a regular
    file of the project, provided no other changed path lies below it.
    Besides its metadata file the directory holds nothing but such copies.
    The project is as it was. *)
Theorem incremental_snapshot_holds_the_changed_files e root prompt st resp st' :
  createProjectSnapshot h e root prompt st = (Ok resp, st') →
  success resp = true →
  kindAt st = incremental →
  snapshotDirs st !! uuid e = None →
  (∀ s, s ∈ snapshots (data st) → ps_id s ≠ uuid e) →
  uuid e ∈ ps_id <$> snapshots (data st') →
  project st' = project st ∧
  ∃ snapshot d,
    snapshot ∈ snapshots (data st') ∧
    ps_id snapshot = uuid e ∧
    ps_type snapshot = incremental ∧
    snapshotDirs st' !! uuid e = Some d ∧
    (∀ file p c m,
       file ∈ ps_changedFiles snapshot → Path.components file = Some p →
       get (project st) p = Some (File c m) →
       p ≠ ["snapshot_metadata.json"] →
       (∀ file' q, file' ∈ ps_changedFiles snapshot → Path.components file' = Some q →
                   p `prefix_of` q → q = p) →
       get d p = Some (File c (now e))) ∧
    (∀ p c m, get d p = Some (File c m) →
              p = ["snapshot_metadata.json"]
              ∨ (m = now e ∧ ∃ m0, get (project st) p = Some (File c m0))).
Proof.
  intros Hrun Hok Hkind Hfresh Hids Hkept.
  destruct (createProjectSnapshot_written h e root prompt st resp st' Hrun Hok)
    as (s4 & s5 & snapshot & final & Hp4 & Hsd4 & Hid & Hty & _ & _ & Hsave & [n Hfinal]
        & Hsn & Hp' & _ & Hout & _).
  rewrite Hkind in Hty.
  destruct (saveSnapshotFiles_incremental e snapshot s4 s5 Hsave Hty)
    as (Honly & d & Hd & _ & Hfiles & Honlyfiles).
  { by rewrite Hid, Hsd4. }
  rewrite Hid in Honly, Hd. rewrite Hp4 in Hfiles, Honlyfiles.
  assert (Hfid : ps_id final = uuid e) by (by rewrite Hfinal).
  split; [rewrite Hp'; destruct Honly as (_ & _ & -> & _); done|].
  exists final, d. split_and!.
  - rewrite Hsn in Hkept. apply list_elem_of_fmap in Hkept as (x & Hx & Hxin).
    rewrite Hsn. apply appended_elem_of in Hxin as Hcases.
    destruct Hcases as [Hold| ->]; [|done]. symmetry in Hx. by apply Hids in Hold.
  - done.
  - by rewrite Hfinal.
  - rewrite Hout; [done|]. rewrite Hsn in Hkept. unfold appended in Hkept. unfold dropped.
    destruct (autoCleanup (data st)); [|apply not_elem_of_nil].
    rewrite <- Hfid. apply fresh_retained; [by rewrite Hfid|by rewrite Hfid].
  - rewrite Hfinal. exact Hfiles.
  - exact Honlyfiles.
Qed.

End Incremental.

(** Scenario 1: the second snapshot, the incremental ["s2"], holds the
    edited file. *)
Lemma incremental_snapshot_holds_the_changed_files_witness :
  ∃ d, snapshotDirs afterEdit !! "s2" = Some d ∧
       get d ["a.txt"] = Some (File "world" (10 * day + 10)).
Proof.
  destruct (incremental_snapshot_holds_the_changed_files host (env (10 * day + 10) "s2")
              "/proj" "edit" edited
              (response (createProjectSnapshot host (env (10 * day + 10) "s2") "/proj" "edit"
                           edited).1)
              afterEdit)
    as (_ & snapshot & d & Hin & Hid & _ & Hd & Hfiles & _).
  - vm_compute; reflexivity.
  - vm_compute; reflexivity.
  - vm_compute; reflexivity.
  - vm_compute; reflexivity.
  - intros s Hs. apply list_elem_of_lookup in Hs as [i Hi].
    destruct i as [|i].
    + vm_compute in Hi. injection Hi as <-. vm_compute; discriminate.
    + destruct i; vm_compute in Hi; discriminate Hi.
  - apply (bool_decide_unpack _). vm_compute. exact I.
  - assert (snapshot = secondSnapshot) as ->.
    { apply list_elem_of_lookup in Hin as [i Hi].
      destruct i as [|[|i]]; vm_compute in Hi.
      - injection Hi as <-. discriminate Hid.
      - by injection Hi as <-.
      - discriminate Hi. }
    exists d. split; [exact Hd|].
    apply (Hfiles "a.txt" ["a.txt"] "world" (10 * day + 5)).
    + apply list_elem_of_here.
    + vm_compute; reflexivity.
    + vm_compute; reflexivity.
    + discriminate.
    + intros file' q ->%list_elem_of_singleton Hq _. vm_compute in Hq. by injection Hq as <-.
Defined.

End IncrementalFacts.

(* ===================================================================== *)
(** * The project snapshot store: further properties *)
(* ===================================================================== *)

Module ProjectStoreFacts.
Import Tree TreeFacts TreeShapeFacts ProjectStore ProjectStoreSpec ListFacts.
Import ExcludeFacts CopyFacts SnapshotFacts CreateFacts FullSnapshotFacts.
Import ProjectStoreExamples.

Section Facts.
Context (h : Host).





End Facts.

(** ** The statements above at work on the example stores *)




End ProjectStoreFacts.

Module RetentionFacts.
Import Tree ProjectStore ProjectStoreSpec ListFacts.
Import CreateFacts FullSnapshotFacts.

(** ** Retention in the project store *)

Lemma retained_newest cap l x y :
  x ∈ retained cap l → y ∈ l → ps_timestamp x < ps_timestamp y → y ∈ retained cap l.
Proof.
  unfold retained. destruct (_ <=? _); [done|].
  set (sorted := Js.sort _ l). rewrite slice_0_take.
  set (n := Z.to_nat _). intros Hx Hy Hlt.
  assert (Hsorted : StronglySorted (λ a b, ps_timestamp b ≤ ps_timestamp a)
                                   (take n sorted ++ drop n sorted)).
  { rewrite take_drop. apply sort_descending. }
  assert (Hy' : y ∈ take n sorted ++ drop n sorted).
  { rewrite take_drop. subst sorted. by rewrite sort_permutation. }
  apply elem_of_app in Hy' as [?|Hdrop]; [done|].
  pose proof (StronglySorted_app_1_elem_of _ _ _ _ _ Hsorted Hx Hdrop). simpl in *. lia.
Qed.

Lemma retained_length cap l :
  0 ≤ cap → Z.of_nat (length (retained cap l)) = Z.min cap (Z.of_nat (length l)).
Proof.
  intros Hcap. unfold retained.
  destruct (_ <=? _) eqn:E; [apply Z.leb_le in E; lia | apply Z.leb_gt in E].
  rewrite slice_0_take, length_take.
  rewrite (Permutation_length (sort_permutation _ _)).
  unfold Js.clamp_index. destruct (cap <? 0) eqn:E0; [apply Z.ltb_lt in E0; lia|]. lia.
Qed.

(** [cleanupOldSnapshots] of the project store always returns.  A store
    within its cap is left as it is; otherwise the newest [maxSnapshots]
    snapshots by time stamp are kept, whatever their kind, and the rest is
    dropped: nothing is added, and every snapshot newer than a kept one is
    kept.  The project and the index document are not touched.  Of the
    snapshot directories none is changed: each is as it was or gone; when
    the ids of the store are pairwise distinct the directories of the kept
    snapshots are as they were, and those of the dropped ones are gone if
    the store is writable. *)
Theorem retention_keeps_the_newest_snapshots s :
  ∃ s',
    cleanupOldSnapshots s = (Ok tt, s') ∧
    cacheDirectory s' = cacheDirectory s ∧
    project s' = project s ∧
    indexFile s' = indexFile s ∧
    snapshots (data s') ⊆+ snapshots (data s) ∧
    (Z.of_nat (length (snapshots (data s))) ≤ maxSnapshots (data s) → s' = s) ∧
    (0 ≤ maxSnapshots (data s) →
     Z.of_nat (length (snapshots (data s')))
     = Z.min (maxSnapshots (data s)) (Z.of_nat (length (snapshots (data s))))) ∧
    (∀ x y, x ∈ snapshots (data s') → y ∈ snapshots (data s) →
            ps_timestamp x < ps_timestamp y → y ∈ snapshots (data s')) ∧
    (∀ id, snapshotDirs s' !! id = snapshotDirs s !! id ∨ snapshotDirs s' !! id = None) ∧
    (NoDup (ps_id <$> snapshots (data s)) →
     (∀ x, x ∈ snapshots (data s') →
           snapshotDirs s' !! ps_id x = snapshotDirs s !! ps_id x) ∧
     (storeWritable s = true →
      ∀ y, y ∈ snapshots (data s) → y ∉ snapshots (data s') →
           snapshotDirs s' !! ps_id y = None)).
Proof.
  destruct (cleanupOldSnapshots_dirs s)
    as (s' & Hrun & Hc & Hp & Hi & Hw & Hd & Hout & Hin & Hany).
  exists s'. rewrite Hd. simpl.
  split; [done|]. split; [done|]. split; [done|]. split; [done|].
  split; [apply retained_submseteq|].
  split.
  { intros Hle. unfold cleanupOldSnapshots in Hrun. unfold bind at 1, gets at 1 in Hrun.
    apply Z.leb_le in Hle. rewrite Hle in Hrun. by injection Hrun as <-. }
  split; [apply retained_length|].
  split; [apply retained_newest|].
  split; [done|].
  intros Hnd.
  pose proof (retained_dropped (maxSnapshots (data s)) (snapshots (data s))) as Hperm.
  assert (Hnd' : NoDup (ps_id <$> retained (maxSnapshots (data s)) (snapshots (data s))
                        ++ droppedBy (maxSnapshots (data s)) (snapshots (data s))))
    by (by rewrite Hperm).
  rewrite fmap_app in Hnd'. apply NoDup_app in Hnd' as (_ & Hdisj & _).
  split.
  - intros x Hx. apply Hout. apply Hdisj. apply list_elem_of_fmap. by exists x.
  - intros Hwr y Hy Hny. apply Hin; [done|].
    apply list_elem_of_fmap. exists y. split; [done|].
    rewrite <- Hperm in Hy. apply elem_of_app in Hy as [?|?]; done.
Qed.

End RetentionFacts.

Module AnalysisFacts.
Import Tree ProjectStore ProjectStoreSpec ListFacts ProjectStoreExamples.

(** ** What change analysis keeps *)

#[global] Instance indexKept_refl : Reflexive indexKept.
Proof. by intros s. Qed.

#[global] Instance indexKept_trans : Transitive indexKept.
Proof.
  intros s1 s2 s3 [Hw1 Hi1] [Hw2 Hi2]. split; [congruence|].
  intros Hw. rewrite Hi2, Hi1; [done..|congruence].
Qed.

Section Keeps.
Context (h : Host) (R : State → State → Prop) `{!Reflexive R, !Transitive R}.
Hypothesis Hbaselines : ∀ f, preserves R (modify_baselines f).
Hypothesis Hscan : ∀ e, preserves R (touchScanTime e).
Hypothesis Hsave : preserves R saveData.

Lemma updateFileBaseline_keeps filePath root :
  preserves R (updateFileBaseline h filePath root).
Proof.
  unfold updateFileBaseline.
  apply (preserves_try_catch R); [|intros _; apply (preserves_ret R)].
  apply (preserves_bind R); [apply preserves_readonly, stat_readonly; apply _|].
  intros stats.
  apply (preserves_bind R); [apply preserves_readonly, readFile_readonly; apply _|].
  intros content. apply Hbaselines.
Qed.

Lemma getAllProjectFiles_keeps root :
  preserves R (getAllProjectFiles root).
Proof. apply (preserves_gets R). Qed.

Lemma updateAllFileBaselines_keeps root :
  preserves R (updateAllFileBaselines h root).
Proof.
  unfold updateAllFileBaselines.
  apply (preserves_bind R); [apply getAllProjectFiles_keeps|].
  intros allFiles. apply (preserves_bind R).
  - apply (preserves_for_each R). intros f. apply updateFileBaseline_keeps.
  - intros _. apply Hsave.
Qed.

Lemma getFilesByStatsComparison_keeps root :
  preserves R (getFilesByStatsComparison h root).
Proof.
  unfold getFilesByStatsComparison.
  apply (preserves_bind R); [apply getAllProjectFiles_keeps|].
  intros allFiles. apply (preserves_collect R). intros filePath.
  apply (preserves_bind R); [apply preserves_readonly, stat_readonly; apply _|].
  intros stats.
  apply (preserves_bind R); [apply (preserves_gets R)|].
  intros baselines. destruct (obj_get _ _) as [baseline|].
  - destruct (_ || _); [|apply (preserves_ret R)].
    apply (preserves_bind R); [apply updateFileBaseline_keeps|].
    intros _. apply (preserves_ret R).
  - apply (preserves_bind R); [apply updateFileBaseline_keeps|].
    intros _. apply (preserves_ret R).
Qed.

Lemma getFilesByHashComparison_keeps root :
  preserves R (getFilesByHashComparison h root).
Proof.
  unfold getFilesByHashComparison.
  apply (preserves_bind R); [apply (preserves_gets R)|].
  intros baselineFiles.
  apply (preserves_bind R); [|intros; apply (preserves_ret R)].
  apply (preserves_collect R). intros relativePath.
  apply (preserves_bind R); [apply (preserves_gets R)|].
  intros baselines.
  apply (preserves_bind R); [apply (preserves_gets R)|].
  intros present. destruct (obj_get _ _) as [baseline|];
    [|apply (preserves_throw R)].
  destruct present; [|apply (preserves_ret R)].
  apply (preserves_bind R); [apply preserves_readonly, readFile_readonly; apply _|].
  intros content. destruct (negb _); [|apply (preserves_ret R)].
  apply (preserves_bind R); [apply preserves_readonly, stat_readonly; apply _|].
  intros stats.
  apply (preserves_bind R); [apply Hbaselines|].
  intros _. apply (preserves_ret R).
Qed.

Lemma getRecentlyModifiedFiles_keeps e root range :
  preserves R (getRecentlyModifiedFiles h e root range).
Proof.
  unfold getRecentlyModifiedFiles.
  apply (preserves_bind R); [apply getAllProjectFiles_keeps|].
  intros allFiles. apply (preserves_collect R). intros filePath.
  apply (preserves_bind R); [apply preserves_readonly, stat_readonly; apply _|].
  intros stats. apply (preserves_ret R).
Qed.

Lemma getModifiedFiles_keeps e root :
  preserves R (getModifiedFiles h e root).
Proof.
  unfold getModifiedFiles.
  apply (preserves_bind R); [apply (preserves_ret R)|].
  intros gitFiles. destruct (nonempty gitFiles).
  { apply (preserves_bind R); [apply Hscan|].
    intros _. apply (preserves_ret R). }
  apply (preserves_bind R); [apply getFilesByHashComparison_keeps|].
  intros hashFiles. destruct (nonempty hashFiles).
  { apply (preserves_bind R); [apply Hscan|].
    intros _. apply (preserves_ret R). }
  apply (preserves_bind R); [apply getFilesByStatsComparison_keeps|].
  intros statsFiles. destruct (nonempty statsFiles).
  { apply (preserves_bind R); [apply Hscan|].
    intros _. apply (preserves_ret R). }
  apply (preserves_bind R); [apply getRecentlyModifiedFiles_keeps|].
  intros recentFiles.
  apply (preserves_bind R); [apply Hscan|].
  intros _. destruct (nonempty recentFiles); apply (preserves_ret R).
Qed.

Lemma analyzeChangesWithSerena_keeps e root :
  preserves R (analyzeChangesWithSerena h e root).
Proof.
  unfold analyzeChangesWithSerena, analyzeChangesWithGit.
  apply (preserves_try_catch R).
  - apply (preserves_bind R); [apply (preserves_gets R)|].
    intros baselineCount. apply (preserves_bind R).
    + destruct (_ =? _)%nat;
        [apply updateAllFileBaselines_keeps|apply (preserves_ret R)].
    + intros _. apply (preserves_bind R); [apply getModifiedFiles_keeps|].
      intros files. apply (preserves_ret R).
  - intros _. apply (preserves_try_catch R);
      [apply getModifiedFiles_keeps|intros _; apply (preserves_ret R)].
Qed.

Lemma forceFileAnalysis_keeps e root prompt :
  preserves R (forceFileAnalysis h e root prompt).
Proof.
  unfold forceFileAnalysis.
  apply (preserves_try_catch R); [|intros _; apply (preserves_ret R)].
  apply (preserves_bind R); [apply getRecentlyModifiedFiles_keeps|].
  intros recentFiles. apply (preserves_bind R).
  { unfold guessFilesFromPrompt.
    apply (preserves_bind R); [apply getAllProjectFiles_keeps|].
    intros allFiles. apply (preserves_ret R). }
  intros guessedFiles. apply (preserves_bind R).
  { destruct (nonempty _); [apply (preserves_ret R)|].
    unfold findNewFiles.
    apply (preserves_bind R); [apply getAllProjectFiles_keeps|].
    intros allFiles. apply (preserves_collect R). intros filePath.
    apply (preserves_bind R); [apply (preserves_gets R)|].
    intros baselines. destruct (obj_get _ _); [apply (preserves_ret R)|].
    apply (preserves_bind R); [apply updateFileBaseline_keeps|].
    intros _. apply (preserves_ret R). }
  intros modifiedFiles. apply (preserves_bind R);
    [|intros; apply (preserves_ret R)].
  destruct (nonempty _); [apply (preserves_ret R)|].
  apply (preserves_bind R); [|intros; apply (preserves_ret R)].
  unfold findMainProjectFiles.
  apply (preserves_bind R); [apply getAllProjectFiles_keeps|].
  intros allFiles. destruct (nonempty _); [apply (preserves_ret R)|].
  apply (preserves_try_catch R); [|intros _; apply (preserves_ret R)].
  apply (preserves_bind R); [|intros; apply (preserves_ret R)].
  apply (preserves_map_m R). intros file.
  apply (preserves_bind R); [apply preserves_readonly, stat_readonly; apply _|].
  intros stats. apply (preserves_ret R).
Qed.

End Keeps.

Section Analysis.
Context (h : Host).

Lemma modify_baselines_indexKept f : preserves indexKept (modify_baselines f).
Proof. intros s r s' [= _ <-]. by split. Qed.

Lemma touchScanTime_indexKept e : preserves indexKept (touchScanTime e).
Proof. intros s r s' [= _ <-]. by split. Qed.

Lemma saveData_indexKept : preserves indexKept saveData.
Proof.
  intros s r s' H. unfold saveData in H.
  destruct (storeWritable s) eqn:Hw; inversion H; subst; split; simpl; congruence.
Qed.

Lemma analyzeChangesWithSerena_indexKept e root :
  preserves indexKept (analyzeChangesWithSerena h e root).
Proof.
  apply (analyzeChangesWithSerena_keeps h indexKept modify_baselines_indexKept
           touchScanTime_indexKept saveData_indexKept).
Qed.

Lemma forceFileAnalysis_indexKept e root prompt :
  preserves indexKept (forceFileAnalysis h e root prompt).
Proof.
  apply (forceFileAnalysis_keeps h indexKept modify_baselines_indexKept).
Qed.

(** Change analysis never touches the project or the snapshots.  Both
    analyses of [createProjectSnapshot] always return, and between the state
    they start from and the state they leave nothing differs but the file
    baselines, [lastScanTime] and the index document; the index document
    is as it was when the store is not writable. *)
Theorem change_analysis_touches_only_the_baselines e root prompt st :
  (∃ files st', analyzeChangesWithSerena h e root st = (Ok files, st') ∧
                detectionOnly st st' ∧ indexKept st st') ∧
  (∃ files st', forceFileAnalysis h e root prompt st = (Ok files, st') ∧
                detectionOnly st st' ∧ indexKept st st').
Proof.
  split.
  - destruct (analyzeChangesWithSerena_returns h e root st) as (files & st' & Hrun & Hd).
    exists files, st'. split; [done|]. split; [done|].
    by eapply analyzeChangesWithSerena_indexKept.
  - destruct (forceFileAnalysis_returns h e root prompt st) as (files & st' & Hrun & Hd).
    exists files, st'. split; [done|]. split; [done|].
    by eapply forceFileAnalysis_indexKept.
Qed.


End Analysis.


End AnalysisFacts.

Module ListingFacts.
Import Tree ProjectStore ProjectStoreSpec ListFacts ProjectStoreExamples.

(** ** The dependencies a listing shows *)

Lemma filter_elem_of {A} (f : A → bool) l x : x ∈ List.filter f l ↔ x ∈ l ∧ f x = true.
Proof. rewrite !list_elem_of_In. apply filter_In. Qed.

Lemma filter_NoDup {A} (f : A → bool) l : NoDup l → NoDup (List.filter f l).
Proof.
  induction 1 as [|x l Hx Hnd IH]; simpl; [constructor|].
  destruct (f x); [|done]. constructor; [|done].
  rewrite filter_elem_of. by intros [? _].
Qed.

(** The head of a list sorted downwards is one of its largest elements. *)
Lemma head_sort_descending {A} (rank : A → Z) l x :
  head (Js.sort (λ a b, rank b - rank a) l) = Some x →
  x ∈ l ∧ ∀ y, y ∈ l → rank y ≤ rank x.
Proof.
  pose proof (sort_descending rank l) as Hsorted.
  pose proof (sort_permutation (λ a b, rank b - rank a) l) as Hperm.
  destruct (Js.sort _ l) as [|z rest]; [done|]. intros [= ->].
  apply StronglySorted_inv in Hsorted as [_ Hall]. rewrite Forall_forall in Hall.
  split.
  - rewrite <- Hperm. apply list_elem_of_here.
  - intros y Hy. rewrite <- Hperm in Hy.
    apply elem_of_cons in Hy as [->|Hy]; [lia|by apply Hall].
Qed.

Lemma head_sort_is_Some {A} (cmp : A → A → Z) l x : x ∈ l → is_Some (head (Js.sort cmp l)).
Proof.
  intros Hx. pose proof (sort_permutation cmp l) as Hperm.
  destruct (Js.sort cmp l) as [|z rest]; [|by eexists].
  apply Permutation_nil_l in Hperm. subst. by apply elem_of_nil in Hx.
Qed.

Lemma sorted_lt_NoDup (l : list Z) : StronglySorted Z.lt l → NoDup l.
Proof.
  induction 1 as [|x l Hs IH Hall]; constructor; [|done].
  rewrite Forall_forall in Hall. intros Hx. specialize (Hall _ Hx). lia.
Qed.

Lemma sorted_fmap_lt {A} (f : A → Z) l :
  StronglySorted Z.lt (f <$> l) → StronglySorted (λ a b, f a ≤ f b) l.
Proof.
  induction l as [|x l IH]; [constructor|].
  rewrite fmap_cons. intros [Hs Hall]%StronglySorted_inv. constructor; [by apply IH|].
  rewrite Forall_fmap in Hall. eapply Forall_impl; [exact Hall|]. simpl. intros; lia.
Qed.

(** The dependencies shown for an incremental snapshot: the nearest full
    snapshot below it, then the incremental snapshots in between. *)
Lemma getSnapshotDependencies_spec d S F :
  NoDup (ps_saveNumber <$> snapshots d) →
  ps_type S = incremental →
  F ∈ snapshots d → ps_type F = full → ps_saveNumber F < ps_saveNumber S →
  (∀ F', F' ∈ snapshots d → ps_type F' = full → ps_saveNumber F' < ps_saveNumber S →
         ps_saveNumber F' ≤ ps_saveNumber F) →
  ∃ incs,
    getSnapshotDependencies d S = ps_id F :: (ps_id <$> incs) ∧
    NoDup incs ∧
    StronglySorted (λ a b, ps_saveNumber a ≤ ps_saveNumber b) incs ∧
    ∀ s, s ∈ incs ↔ s ∈ snapshots d ∧ ps_type s = incremental ∧
                    ps_saveNumber F < ps_saveNumber s < ps_saveNumber S.
Proof.
  intros Hnd HS HF Hfull Hlt Hmax. unfold getSnapshotDependencies.
  rewrite bool_decide_eq_false_2 by (by rewrite HS).
  set (fulls := List.filter _ (snapshots d)).
  assert (HFin : F ∈ fulls).
  { apply filter_elem_of. split; [done|].
    rewrite bool_decide_eq_true_2 by done. simpl. by apply Z.ltb_lt. }
  destruct (head_sort_is_Some (λ a b, ps_saveNumber b - ps_saveNumber a) fulls F HFin)
    as [F' HF'].
  rewrite HF'.
  apply (head_sort_descending ps_saveNumber) in HF' as [HF'in HF'max].
  apply filter_elem_of in HF'in as [HF'in HF'p].
  apply andb_true_iff in HF'p as [HF'full HF'lt].
  apply bool_decide_eq_true in HF'full. apply Z.ltb_lt in HF'lt.
  assert (F' = F) as ->.
  { eapply same_number; [exact Hnd|done|done|].
    specialize (HF'max F HFin). specialize (Hmax F' HF'in HF'full HF'lt). lia. }
  cbv zeta. eexists. split; [reflexivity|].
  set (between := List.filter _ (snapshots d)).
  pose proof (sort_permutation (λ a b, ps_saveNumber a - ps_saveNumber b) between) as Hperm.
  split_and!.
  - rewrite Hperm. apply filter_NoDup. by eapply NoDup_fmap_1.
  - apply sort_ascending.
  - intros s. rewrite Hperm. unfold between. rewrite filter_elem_of.
    rewrite !andb_true_iff, bool_decide_eq_true, !Z.ltb_lt. tauto.
Qed.

(** What a listing shows is what a restore applies.  For an incremental
    snapshot [S] of a store whose save numbers are pairwise distinct: when
    the nearest full snapshot below [S] holds a file, the restore planner
    returns a plan, and the ids of the plan are the dependencies
    [listProjectSnapshots] shows for [S], in their order, followed by [S]
    itself. *)
Theorem dependencies_are_the_restore_plan st S F :
  NoDup (held st) →
  S ∈ snapshots (data st) → ps_type S = incremental →
  F ∈ snapshots (data st) → ps_type F = full →
  1 ≤ ps_saveNumber F < ps_saveNumber S →
  (∀ F', F' ∈ snapshots (data st) → ps_type F' = full →
         ps_saveNumber F' < ps_saveNumber S → ps_saveNumber F' ≤ ps_saveNumber F) →
  usable st F = true →
  ∃ chain,
    buildRestoreChain S st = (Ok chain, st) ∧
    ps_id <$> chain = getSnapshotDependencies (data st) S ++ [ps_id S].
Proof.
  intros Hnd HS Hinc HF Hfull Hrange Hmax Husable.
  destruct (getSnapshotDependencies_spec (data st) S F Hnd Hinc HF Hfull (proj2 Hrange) Hmax)
    as (incsD & -> & HndD & HsortedD & HinD).
  assert (HuF : usableFull st F = true).
  { unfold usableFull. rewrite Husable. by rewrite (proj2 (is_full_true F)). }
  unfold buildRestoreChain.
  assert (Hnotfull : is_full S = false) by (by apply is_full_false).
  rewrite Hnotfull.
  destruct (searchFull_countdown st (Z.to_nat (ps_saveNumber S - 1)) Hnd) as (r & Hrun & Hr).
  rewrite Z2Nat.id in Hrun, Hr by lia.
  unfold bind at 1. rewrite Hrun.
  destruct r as [B|]; [|destruct (Hr F HF HuF); lia].
  destruct Hr as (HB & HuB & HrB & HmaxB).
  assert (B = F) as ->.
  { eapply same_number; [exact Hnd|done|done|].
    specialize (HmaxB F HF HuF ltac:(lia)).
    apply andb_true_iff in HuB as [HfullB _]. apply is_full_true in HfullB.
    specialize (Hmax B HB HfullB ltac:(lia)). lia. }
  unfold bind at 1, ret at 1.
  rewrite countup_seqZ.
  assert (Hk : ps_saveNumber S - (ps_saveNumber F + 1) + 1
               = Z.of_nat (Z.to_nat (ps_saveNumber S - ps_saveNumber F))) by lia.
  rewrite Hk.
  destruct (extendChain_range st (Z.to_nat (ps_saveNumber S - ps_saveNumber F))
              (ps_saveNumber F + 1) [F] Hnd) as (incs & Hext & Hsorted & Hin & _).
  { intros F' HF' HuF' HrF'.
    apply andb_true_iff in HuF' as [HfullF' _]. apply is_full_true in HfullF'.
    destruct (decide (ps_saveNumber F' = ps_saveNumber S)) as [Heq|Hne].
    - assert (F' = S) by (eapply same_number; [exact Hnd|done..]). subst F'. congruence.
    - specialize (Hmax F' HF' HfullF' ltac:(lia)). lia. }
  exists ([F] ++ incs). split; [done|].
  assert (Hin' : ∀ s, s ∈ incs ↔ s ∈ incsD ++ [S]).
  { intros s. rewrite Hin, elem_of_app, HinD, list_elem_of_singleton. split.
    - intros (Hs & Hty & Hr).
      destruct (decide (ps_saveNumber s = ps_saveNumber S)) as [Heq|Hne].
      + right. by eapply same_number.
      + left. split_and!; [done|done|lia|lia].
    - intros [(Hs & Hty & Hr)| ->]; split_and!; try done; lia. }
  assert (incs = incsD ++ [S]) as ->.
  { apply (StronglySorted_unique_strong (λ a b, ps_saveNumber a ≤ ps_saveNumber b)).
    - intros x1 x2 Hx1 Hx2 H12 H21. apply Hin in Hx1 as (Hx1 & _).
      apply Hin', Hin in Hx2 as (Hx2 & _).
      eapply same_number; [exact Hnd|done|done|lia].
    - by apply sorted_fmap_lt.
    - apply StronglySorted_app_2; [|done|repeat constructor].
      intros x1 x2 Hx1 ->%list_elem_of_singleton. apply HinD in Hx1. lia.
    - apply NoDup_Permutation; [| |done].
      + apply sorted_lt_NoDup in Hsorted. by eapply NoDup_fmap_1.
      + apply NoDup_app. split_and!; [done| |apply NoDup_singleton].
        intros x Hx ->%list_elem_of_singleton. apply HinD in Hx. lia. }
  simpl. by rewrite fmap_app.
Qed.

(** ** The listing *)

Lemma kinds_add_up (l : list ProjectSnapshot) :
  (length (List.filter (λ s, bool_decide (ps_type s = full)) l)
   + length (List.filter (λ s, bool_decide (ps_type s = incremental)) l) = length l)%nat.
Proof.
  induction l as [|x l IH]; [done|]. simpl.
  destruct (ps_type x); simpl; lia.
Qed.

(** [listProjectSnapshots] only reads and always answers success.  It
    lists every snapshot of the store once, in the order of the save
    numbers, largest first; a full snapshot is shown without dependencies;
    and the summary counts add up: the full and the incremental snapshots
    together are all the snapshots of the store. *)
Theorem listProjectSnapshots_lists_the_store now toLocaleString st :
  ∃ listing,
    listProjectSnapshots now toLocaleString st
    = (Ok {| lr_success := true;
             lr_message := "找到 " +:+ pretty (length (snapshots (data st)))
                           +:+ " 个项目快照";
             lr_data := Some listing |}, st) ∧
    ls_snapshot <$> li_snapshots listing ≡ₚ snapshots (data st) ∧
    StronglySorted (λ a b, ps_saveNumber b ≤ ps_saveNumber a)
                   (ls_snapshot <$> li_snapshots listing) ∧
    Forall (λ x, ls_dependencies x = getSnapshotDependencies (data st) (ls_snapshot x) ∧
                 ls_timeSince x = getTimeSince now (ps_timestamp (ls_snapshot x)) ∧
                 (ps_type (ls_snapshot x) = full → ls_dependencies x = []))
           (li_snapshots listing) ∧
    sm_total (li_summary listing) = length (snapshots (data st)) ∧
    (sm_full (li_summary listing) + sm_incremental (li_summary listing)
     = sm_total (li_summary listing))%nat.
Proof.
  eexists. split; [reflexivity|]. simpl.
  rewrite <- list_fmap_compose.
  rewrite (list_fmap_ext _ id (Js.sort _ (snapshots (data st)))) by done.
  rewrite list_fmap_id.
  split; [apply sort_permutation|].
  split; [apply sort_descending|].
  split.
  - apply Forall_fmap, Forall_forall. intros x _. simpl.
    split; [done|]. split; [done|].
    intros Hfull. unfold getSnapshotDependencies. by rewrite bool_decide_eq_true_2.
  - split; [done|]. apply kinds_add_up.
Qed.

(** Scenario 1: the listing shows ["s1"] as the dependency of ["s2"], and
    the plan of the restore of ["s2"] is ["s1"], then ["s2"]. *)
Lemma dependencies_are_the_restore_plan_witness :
  getSnapshotDependencies (data afterEdit) secondSnapshot = ["s1"] ∧
  ∃ chain, buildRestoreChain secondSnapshot afterEdit = (Ok chain, afterEdit) ∧
           ps_id <$> chain = ["s1"; "s2"].
Proof.
  split; [vm_compute; reflexivity|].
  assert (Hsnaps : snapshots (data afterEdit) = [firstSnapshot; secondSnapshot])
    by (vm_compute; reflexivity).
  destruct (dependencies_are_the_restore_plan afterEdit secondSnapshot firstSnapshot)
    as (chain & Hrun & Hids).
  - unfold held. rewrite Hsnaps. apply (bool_decide_unpack _). vm_compute. exact I.
  - rewrite Hsnaps. apply list_elem_of_further, list_elem_of_here.
  - reflexivity.
  - rewrite Hsnaps. apply list_elem_of_here.
  - reflexivity.
  - simpl. lia.
  - rewrite Hsnaps. intros F' HF' Hfull Hlt.
    apply elem_of_cons in HF' as [-> | HF']; [simpl; lia|].
    apply list_elem_of_singleton in HF' as ->. discriminate Hfull.
  - vm_compute; reflexivity.
  - exists chain. split; [exact Hrun|]. rewrite Hids. vm_compute; reflexivity.
Defined.

End ListingFacts.

Module RestoreFacts.
Import Tree ProjectStore ProjectStoreSpec ListFacts ProjectStoreExamples.
Import ListingFacts.

(** ** A restore needs a full snapshot that holds a file *)

Lemma searchFull_none st :
  (∀ s, s ∈ snapshots (data st) → usableFull st s = false) →
  ∀ indices, searchFull indices st = (Ok None, st).
Proof.
  intros Hnone indices. induction indices as [|i rest IH]; [done|].
  change (searchFull (i :: rest)) with
    (do d <- gets data;
     match bySaveNumber i (snapshots d) with
     | Some snapshot =>
         if is_full snapshot then
           do files <- getSnapshotFileList (ps_id snapshot);
           if nonempty files then ret (Some snapshot) else searchFull rest
         else searchFull rest
     | None => searchFull rest
     end).
  unfold bind at 1, gets at 1.
  destruct (bySaveNumber i (snapshots (data st))) as [snapshot|] eqn:Hfind; [|done].
  destruct (is_full snapshot) eqn:Hfull; [|done].
  apply bySaveNumber_Some in Hfind as [Hin _].
  specialize (Hnone _ Hin). unfold usableFull in Hnone.
  rewrite Hfull, andb_true_l in Hnone. unfold usable in Hnone.
  unfold bind, getSnapshotFileList, gets. by rewrite Hnone.
Qed.

Lemma firstUsable_none st candidates :
  (∀ s, s ∈ candidates → usable st s = false) →
  firstUsable candidates st = (Ok None, st).
Proof.
  induction candidates as [|x rest IH]; intros Hnone; [done|].
  change (firstUsable (x :: rest)) with
    (do files <- getSnapshotFileList (ps_id x);
     if nonempty files then ret (Some x) else firstUsable rest).
  unfold bind, getSnapshotFileList, gets.
  pose proof (Hnone x (list_elem_of_here _ _)) as Hx. unfold usable in Hx. rewrite Hx.
  apply IH. intros s Hs. apply Hnone. by apply list_elem_of_further.
Qed.

(** Without a full snapshot that holds a file nothing can be restored.
    When no full snapshot of the store has a file in its directory, every
    call of [restoreProjectSnapshot], for whatever id, answers a failure and
    leaves the project and the store exactly as they were. *)
Theorem restore_needs_a_full_snapshot_that_holds_a_file e snapshotId st :
  (∀ s, s ∈ snapshots (data st) → usableFull st s = false) →
  ∃ resp, restoreProjectSnapshot e snapshotId st = (Ok resp, st) ∧ success resp = false.
Proof.
  intros Hnone. unfold restoreProjectSnapshot, try_catch.
  unfold bind at 1, gets at 1.
  destruct (Js.find _ (snapshots (data st))) as [snapshot|] eqn:Hfind;
    [|by eexists].
  apply find_Some in Hfind as [Hin _]. cbv zeta.
  destruct (is_full snapshot) eqn:Hfull.
  - pose proof (Hnone _ Hin) as Hs. unfold usableFull in Hs.
    rewrite Hfull, andb_true_l in Hs. unfold usable in Hs.
    unfold bind at 1, getSnapshotFileList at 1, gets at 1. rewrite Hs. by eexists.
  - assert (Hchain : ∃ err, buildRestoreChain snapshot st = (Throw err, st)).
    { unfold buildRestoreChain. rewrite Hfull.
      unfold bind at 1. rewrite (searchFull_none st Hnone).
      unfold bind at 1, bind at 1, gets at 1. unfold bind at 1.
      rewrite firstUsable_none; [by eexists|].
      intros s Hs. rewrite (sort_permutation _ _) in Hs.
      apply filter_elem_of in Hs as [Hs Hsfull].
      specialize (Hnone _ Hs). unfold usableFull in Hnone.
      by rewrite Hsfull, andb_true_l in Hnone. }
    destruct Hchain as [err Hchain].
    unfold bind at 1. rewrite Hchain. by eexists.
Qed.

(** A store whose only snapshot is of a project that held nothing but a
    log: the snapshot cannot be restored. *)
Lemma restore_needs_a_full_snapshot_that_holds_a_file_witness :
  ∃ resp,
    restoreProjectSnapshot (env (11 * day) "r") "1"
      (run host [Create (env (10 * day) "1") "/proj" "init"] logsOnly)
    = (Ok resp, run host [Create (env (10 * day) "1") "/proj" "init"] logsOnly) ∧
    success resp = false.
Proof.
  apply restore_needs_a_full_snapshot_that_holds_a_file.
  intros s Hs. apply list_elem_of_lookup in Hs as [i Hi].
  destruct i as [|i].
  - vm_compute in Hi. injection Hi as <-. vm_compute; reflexivity.
  - destruct i; vm_compute in Hi; discriminate Hi.
Defined.

End RestoreFacts.

Module GuessFacts.
Import Tree ProjectStore ProjectStoreSpec ListFacts ProjectStoreExamples.
Import ListingFacts.

(** ** Guessing files from the prompt *)

Lemma mem_elem_of x l : Js.mem x l = true ↔ x ∈ l.
Proof.
  unfold Js.mem. rewrite existsb_exists. split.
  - intros (y & Hy & ->%String.eqb_eq). by apply list_elem_of_In.
  - intros Hx. exists x. split; [by apply list_elem_of_In|apply String.eqb_refl].
Qed.

Lemma dedupe_spec l : ∀ seen,
  NoDup (dedupe l seen) ∧
  (∀ x, x ∈ dedupe l seen ↔ x ∈ l ∧ x ∉ seen) ∧
  (length (dedupe l seen) ≤ length l)%nat.
Proof.
  induction l as [|y l IH]; intros seen; simpl.
  - split; [constructor|]. split; [|done].
    intros x. split; [by intros ?%elem_of_nil|by intros [?%elem_of_nil _]].
  - destruct (Js.mem y seen) eqn:Hmem.
    + apply mem_elem_of in Hmem. destruct (IH seen) as (Hnd & Hin & Hlen).
      split; [done|]. split; [|lia].
      intros x. rewrite Hin, elem_of_cons. split; [tauto|].
      intros [[->|?] ?]; [done|tauto].
    + assert (Hy : y ∉ seen) by (rewrite <- mem_elem_of; congruence).
      destruct (IH (y :: seen)) as (Hnd & Hin & Hlen).
      split.
      { constructor; [|done]. rewrite Hin, not_elem_of_cons. tauto. }
      split; [|simpl; lia].
      intros x. rewrite !elem_of_cons, Hin, not_elem_of_cons. split.
      * intros [->|[? [? ?]]]; tauto.
      * intros [[->|?] ?]; [by left|].
        destruct (decide (x = y)) as [->|?]; [by left|right; tauto].
Qed.

Lemma slice_0_length {A} (l : list A) n :
  0 ≤ n → Z.of_nat (length (Js.slice l 0 n)) ≤ n.
Proof.
  intros Hn. rewrite slice_0_take, length_take. unfold Js.clamp_index.
  destruct (n <? 0) eqn:E; [apply Z.ltb_lt in E; lia|]. lia.
Qed.

Lemma slice_elem_of {A} (l : list A) start stop x : x ∈ Js.slice l start stop → x ∈ l.
Proof.
  intros Hx. eapply elem_of_submseteq; [exact Hx|]. apply sublist_submseteq, slice_sublist.
Qed.

(** [guessFilesFromPrompt] only reads and always returns.  It never
    guesses a file twice, and guesses files of the project only, at most
    thirty-five of them: a file is guessed because its base name, in lower
    case, holds one of the seven keywords and the prompt does too, or
    because it ends with one of the seven extensions and the prompt holds
    the extension without its dot. *)
Theorem guessFilesFromPrompt_guesses_project_files root prompt st :
  ∃ guessed,
    guessFilesFromPrompt root prompt st = (Ok guessed, st) ∧
    NoDup guessed ∧
    (length guessed ≤ 35)%nat ∧
    ∀ file, file ∈ guessed →
      file ∈ walkDir (Dir (project st)) root ∧
      ((∃ keyword, keyword ∈ keywords ∧
                   Js.includes (Js.toLowerCase prompt) keyword = true ∧
                   Js.includes (Js.toLowerCase (Path.basename file)) keyword = true)
       ∨ (∃ ext, ext ∈ extensions ∧
                 Js.includes (Js.toLowerCase prompt) (Js.slice_from 1 ext) = true ∧
                 Js.endsWith file ext = true)).
Proof.
  unfold guessFilesFromPrompt. cbv zeta. unfold bind, getAllProjectFiles, gets, ret.
  set (allFiles := walkDir (Dir (project st)) root).
  set (byKeyword := concat _). set (byExtension := concat _).
  eexists. split; [reflexivity|].
  destruct (dedupe_spec (byKeyword ++ byExtension) []) as (Hnd & Hin & Hlen).
  split; [done|]. split.
  { etrans; [exact Hlen|]. rewrite length_app.
    assert (Z.of_nat (length byKeyword) ≤ 3 * Z.of_nat (length keywords)).
    { subst byKeyword. etrans; [apply (concat_length_bound _ 3); [lia|]|].
      - apply Forall_fmap, Forall_forall. intros k _. simpl.
        destruct (Js.includes _ k); [by apply slice_0_length|simpl; lia].
      - by rewrite length_fmap. }
    assert (Z.of_nat (length byExtension) ≤ 2 * Z.of_nat (length extensions)).
    { subst byExtension. etrans; [apply (concat_length_bound _ 2); [lia|]|].
      - apply Forall_fmap, Forall_forall. intros k _. simpl.
        destruct (Js.includes _ _); [by apply slice_0_length|simpl; lia].
      - by rewrite length_fmap. }
    simpl in *. lia. }
  intros file Hfile. apply Hin in Hfile as [Hfile _].
  apply elem_of_app in Hfile as [Hk|He].
  - subst byKeyword. apply elem_of_concat in Hk as (l & Hfl & Hl).
    apply list_elem_of_fmap in Hl as (keyword & -> & Hkw).
    destruct (Js.includes (Js.toLowerCase prompt) keyword) eqn:Hp;
      [|by apply elem_of_nil in Hfl].
    apply slice_elem_of, filter_elem_of in Hfl as [Hall Hmatch].
    split; [done|]. left. by exists keyword.
  - subst byExtension. apply elem_of_concat in He as (l & Hfl & Hl).
    apply list_elem_of_fmap in Hl as (ext & -> & Hext).
    destruct (Js.includes (Js.toLowerCase prompt) (Js.slice_from 1 ext)) eqn:Hp;
      [|by apply elem_of_nil in Hfl].
    apply slice_elem_of, filter_elem_of in Hfl as [Hall Hmatch].
    split; [done|]. right. by exists ext.
Qed.

End GuessFacts.

Module IncrementalRestoreFacts.
Import Tree TreeFacts TreeShapeFacts TreeWriteFacts ProjectStore ProjectStoreSpec ListFacts.
Import ProjectStoreExamples.

(** ** What a restore makes of the files of an incremental snapshot *)

(** Without [force], a directory stays a directory. *)
Lemma mkdir_p_keeps_dirs q : ∀ d d' r,
  mkdir_p false d q = Some d' → is_dir (get d r) = true → is_dir (get d' r) = true.
Proof.
  induction q as [|a q IH]; intros d d' r Hmk Hget; simpl in Hmk.
  { by injection Hmk as <-. }
  destruct r as [|b r]; [done|].
  rewrite get_cons in Hget.
  destruct (find_entry a d) as [[b0 m0|d0]|] eqn:Hfind; [done| |].
  - destruct (mkdir_p false d0 q) as [d''|] eqn:Hsub; [|done]. injection Hmk as <-.
    rewrite get_cons, find_entry_set_entry.
    destruct (String.eqb_spec a b) as [->|Hne]; [|done].
    rewrite Hfind in Hget. by eapply IH.
  - destruct (mkdir_p false [] q) as [d''|] eqn:Hsub; [|done]. injection Hmk as <-.
    rewrite get_cons, find_entry_set_entry.
    destruct (String.eqb_spec a b) as [->|Hne]; [|done].
    by rewrite Hfind in Hget.
Qed.

Lemma write_file_keeps_dirs q : ∀ d d' c0 m0 r,
  write_file false d q (File c0 m0) = Some d' →
  is_dir (get d r) = true → is_dir (get d' r) = true.
Proof.
  induction q as [|a q IH]; intros d d' c0 m0 r Hw Hget; [done|].
  destruct r as [|b r]; [done|].
  rewrite get_cons in Hget.
  destruct q as [|a' q].
  - apply write_file_single in Hw as [-> Hnd].
    rewrite get_cons, find_entry_set_entry.
    destruct (String.eqb_spec a b) as [->|Hne]; [|done].
    destruct (find_entry b d) as [[b1 m1|d1]|]; [|done|done].
    by destruct r.
  - rewrite write_file_cons in Hw.
    destruct (find_entry a d) as [[b0 m1|d0]|] eqn:Hfind; [done| |done].
    destruct (write_file false d0 (a' :: q) (File c0 m0)) as [d''|] eqn:Hsub; [|done].
    injection Hw as <-.
    rewrite get_cons, find_entry_set_entry.
    destruct (String.eqb_spec a b) as [->|Hne]; [|done].
    rewrite Hfind in Hget. by eapply IH.
Qed.

(** The file at [p], or what is in its way, survives a [mkdir_p] and the
    writing of another file. *)
Lemma mkdir_p_settled q d d' p c t :
  mkdir_p false d q = Some d' →
  get d p = Some (File c t) ∨ blocked d p →
  get d' p = Some (File c t) ∨ blocked d' p.
Proof.
  intros Hmk [Hget|[(r & Hpre & Hne & Hfile)|Hdir]].
  - left. by eapply mkdir_p_frame.
  - right. left. exists r. split_and!; [done|done|].
    destruct (get d r) as [[c1 m1|?]|] eqn:Hr; [|done|done].
    by rewrite (mkdir_p_frame _ _ _ _ _ _ _ Hmk Hr).
  - right. right. by eapply mkdir_p_keeps_dirs.
Qed.

Lemma write_file_settled q d d' c0 m0 p c t :
  write_file false d q (File c0 m0) = Some d' →
  q ≠ p →
  get d p = Some (File c t) ∨ blocked d p →
  get d' p = Some (File c t) ∨ blocked d' p.
Proof.
  intros Hw Hqp [Hget|[(r & Hpre & Hne & Hfile)|Hdir]].
  - left. eapply write_file_frame; [exact Hw|done|done].
  - right. left. exists r. split_and!; [done|done|].
    destruct (decide (r = q)) as [->|Hrq].
    + by rewrite (write_file_get _ _ _ _ _ _ Hw).
    + destruct (get d r) as [[c1 m1|?]|] eqn:Hr; [|done|done].
      by rewrite (write_file_frame _ _ _ _ _ _ _ _ Hw Hr Hrq).
  - right. right. by eapply write_file_keeps_dirs.
Qed.

(** Why a file cannot be written below a directory that cannot be made... *)
Lemma mkdir_p_blocked d p :
  p ≠ [] → mkdir_p false d (removelast p) = None → blocked d p.
Proof.
  intros Hp Hmk. apply mkdir_p_None in Hmk as (r & Hpre & Hfile).
  left. exists r. split_and!; [|intros ->|done].
  - etrans; [exact Hpre|]. exists [List.last p ""]. by apply app_removelast_last.
  - destruct Hpre as [k Hk]. pose proof (app_removelast_last "" Hp) as Hsplit.
    rewrite Hk in Hsplit at 1. apply (f_equal length) in Hsplit.
    rewrite !length_app in Hsplit. simpl in Hsplit. lia.
Qed.

(** ... or in a directory that has been made. *)
Lemma write_file_blocked d d1 p f :
  p ≠ [] → mkdir_p false d (removelast p) = Some d1 →
  write_file false d1 p f = None → blocked d1 p.
Proof.
  intros Hp Hmk Hw. apply write_file_None in Hw as [->|[Hparent|Hdir]]; [done| |by right].
  by rewrite (mkdir_p_get _ _ _ _ Hmk) in Hparent.
Qed.

Section CopyBack.
Context (e : Env) (id : string) (d : dir) (p : list string) (c : string) (m : Z).
Hypothesis Hsource : get d p = Some (File c m).

(** One [copyBack] always returns; a file it is to write at [p] is written
    or blocked, and stays so through the copies of the other files. *)
Lemma copyBack_settles file s :
  snapshotDirs s !! id = Some d →
  ∃ s', copyBack e id file s = (Ok tt, s') ∧
        snapshotDirs s' = snapshotDirs s ∧
        (Path.components file = Some p
         ∨ get (project s) p = Some (File c (now e)) ∨ blocked (project s) p →
         get (project s') p = Some (File c (now e)) ∨ blocked (project s') p).
Proof.
  intros Hd.
  assert (Hp : p ≠ []) by (intros ->; done).
  unfold copyBack, try_catch, bind, gets. rewrite Hd. cbn [mbind option_bind].
  destruct (Path.components file) as [q|].
  2:{ eexists. split_and!; [done|done|]. by intros [?|?]. }
  destruct (get d q) as [source|] eqn:Hq.
  2:{ eexists. split_and!; [done|done|]. intros [[= ->]|?]; [congruence|done]. }
  unfold mkdir, mkdirWith.
  destruct (mkdir_p false (project s) (removelast q)) as [d1|] eqn:Hmk.
  2:{ eexists. split_and!; [done|done|].
      intros [[= ->]|?]; [right; by apply mkdir_p_blocked|done]. }
  destruct source as [c1 m1|es].
  2:{ eexists. split_and!; [done|done|].
      intros [[= ->]|Hs]; [congruence|]. simpl. by eapply mkdir_p_settled. }
  unfold putFile, putFileWith. cbn [project set_project].
  destruct (write_file false d1 q (File c1 (now e))) as [d2|] eqn:Hw.
  - eexists. split_and!; [done|done|]. simpl.
    destruct (decide (q = p)) as [->|Hqp].
    + intros _. left. rewrite Hsource in Hq. injection Hq as <- <-.
      by eapply write_file_get.
    + intros [[= ->]|Hs]; [done|].
      eapply write_file_settled; [exact Hw|done|]. by eapply mkdir_p_settled.
  - eexists. split_and!; [done|done|]. simpl.
    intros [[= ->]|Hs]; [right; by eapply write_file_blocked|].
    by eapply mkdir_p_settled.
Qed.

Lemma copyBacks_settle : ∀ (l : list string) s,
  snapshotDirs s !! id = Some d →
  ∃ s', for_each l (copyBack e id) s = (Ok tt, s') ∧
        snapshotDirs s' = snapshotDirs s ∧
        ((∃ file, file ∈ l ∧ Path.components file = Some p)
         ∨ get (project s) p = Some (File c (now e)) ∨ blocked (project s) p →
         get (project s') p = Some (File c (now e)) ∨ blocked (project s') p).
Proof.
  induction l as [|file l IH]; intros s Hd.
  - exists s. split_and!; [done|done|]. intros [(file & []%elem_of_nil & _)|?]; done.
  - destruct (copyBack_settles file s Hd) as (s1 & Hrun & Hdirs & Hstep).
    destruct (IH s1) as (s2 & Hrest & Hdirs2 & Hlater); [by rewrite Hdirs|].
    exists s2. rewrite for_each_cons. unfold bind at 1. rewrite Hrun.
    split_and!; [done|by rewrite Hdirs2|].
    intros [(file' & [->|Hin]%elem_of_cons & Hc)|Hs].
    + apply Hlater. right. apply Hstep. by left.
    + apply Hlater. left. by exists file'.
    + apply Hlater. right. apply Hstep. by right.
Qed.

End CopyBack.

Lemma for_each_snoc {S A} (l : list A) (x : A) (body : A → M S unit) s :
  for_each (l ++ [x]) body s
  = bind (for_each l body) (λ _, bind (body x) (λ _, ret tt)) s.
Proof.
  revert s. induction l as [|y l IH]; intros s; [done|].
  change ((y :: l) ++ [x]) with (y :: (l ++ [x])). rewrite !for_each_cons.
  unfold bind. destruct (body y s) as [[[]|err] s1]; [|reflexivity].
  rewrite IH. reflexivity.
Qed.

(** Applying a plan leaves the snapshot directories as they are. *)
Lemma restoreChain_snapshotDirs e : ∀ (l : list ProjectSnapshot) s r s',
  for_each l (restoreChainElement e) s = (r, s') → snapshotDirs s' = snapshotDirs s.
Proof.
  induction l as [|x l IH]; intros s r s' Hrun.
  - by injection Hrun as _ <-.
  - rewrite for_each_cons in Hrun.
    apply bind_inv in Hrun as [([] & s1 & Hx & Hrest)|(err & Hx & _)].
    + apply IH in Hrest. apply restoreChainElement_sameStore in Hx as (_ & _ & Hdirs & _).
      congruence.
    + by apply restoreChainElement_sameStore in Hx as (_ & _ & Hdirs & _).
Qed.

(** With a usable full snapshot below it, the plan for an incremental
    snapshot ends at the snapshot. *)
Lemma buildRestoreChain_ends_at_target st S F :
  NoDup (held st) →
  S ∈ snapshots (data st) → ps_type S = incremental →
  F ∈ snapshots (data st) → usableFull st F = true →
  1 ≤ ps_saveNumber F < ps_saveNumber S →
  ∃ earlier, buildRestoreChain S st = (Ok (earlier ++ [S]), st).
Proof.
  intros Hnd HS Hinc HF HuF HrF.
  unfold buildRestoreChain.
  assert (Hnotfull : is_full S = false) by (by apply is_full_false).
  rewrite Hnotfull.
  destruct (searchFull_countdown st (Z.to_nat (ps_saveNumber S - 1)) Hnd) as (r & Hrun & Hr).
  rewrite Z2Nat.id in Hrun, Hr by lia.
  unfold bind at 1. rewrite Hrun.
  destruct r as [B|]; [|destruct (Hr F HF HuF); lia].
  destruct Hr as (HB & HuB & HrB & Hmax).
  unfold bind at 1, ret at 1.
  rewrite countup_seqZ.
  assert (Hk : ps_saveNumber S - (ps_saveNumber B + 1) + 1
               = Z.of_nat (Z.to_nat (ps_saveNumber S - ps_saveNumber B))) by lia.
  rewrite Hk.
  destruct (extendChain_range st (Z.to_nat (ps_saveNumber S - ps_saveNumber B))
              (ps_saveNumber B + 1) [B] Hnd) as (incs & Hext & Hsorted & Hmem & _).
  { intros F' HF' HuF' HrF'.
    destruct (decide (ps_saveNumber F' = ps_saveNumber S)) as [Heq|Hne].
    - assert (F' = S) by (by eapply same_number). subst F'.
      unfold usableFull in HuF'. by rewrite Hnotfull in HuF'.
    - specialize (Hmax F' HF' HuF'). lia. }
  rewrite Hext.
  assert (Hlast : last ([B] ++ incs) = Some S).
  { apply last_of_sorted.
    - change ([B] ++ incs) with (B :: incs). rewrite fmap_cons. constructor; [done|].
      apply Forall_forall. intros n (s & -> & Hs)%list_elem_of_fmap.
      apply Hmem in Hs. lia.
    - apply list_elem_of_further, Hmem. split_and!; [done|done|lia|lia].
    - intros y [->|Hy]%elem_of_cons; [lia|]. apply Hmem in Hy. lia. }
  apply last_Some in Hlast as [earlier ->]. by exists earlier.
Qed.

(** A restore of an incremental snapshot writes the files of the snapshot
    last, and reports success whether it could write them or not.  Let the
    save numbers of the store be pairwise distinct, [S] the incremental
    snapshot of its id, and let a full snapshot below [S] hold a file.
    When [restoreProjectSnapshot] of [S] answers success, every changed
    file of [S] that the directory of [S] holds as a regular file is in the
    project with those bytes, stamped with the time of the call, unless the
    project has a regular file on the way to it or a directory in its
    place. *)
Theorem restore_of_an_incremental_snapshot_writes_its_files e st S F d resp st' :
  NoDup (held st) →
  S ∈ snapshots (data st) → ps_type S = incremental →
  (∀ s, s ∈ snapshots (data st) → ps_id s = ps_id S → s = S) →
  F ∈ snapshots (data st) → usableFull st F = true →
  1 ≤ ps_saveNumber F < ps_saveNumber S →
  snapshotDirs st !! ps_id S = Some d →
  restoreProjectSnapshot e (ps_id S) st = (Ok resp, st') →
  success resp = true →
  ∀ file p c m,
    file ∈ ps_changedFiles S → Path.components file = Some p →
    get d p = Some (File c m) →
    get (project st') p = Some (File c (now e)) ∨ blocked (project st') p.
Proof.
  intros Hnd HS Hinc Hid HF HuF HrF Hd Hrun Hok file p c m Hfile Hp Hget.
  assert (Hnotfull : is_full S = false) by (by apply is_full_false).
  unfold restoreProjectSnapshot in Hrun.
  apply try_catch_inv in Hrun as [(resp' & Hrun & [= <-])|(err & s1 & _ & [= <- _])];
    [|discriminate Hok].
  apply bind_ok_inv in Hrun as (dt & s0 & [= <- <-] & Hrun).
  assert (Hfind : Js.find (λ s, String.eqb (ps_id s) (ps_id S)) (snapshots (data st)) = Some S).
  { destruct (find_is_Some (λ s, String.eqb (ps_id s) (ps_id S)) _ S HS (String.eqb_refl _))
      as [x Hx].
    rewrite Hx. f_equal. apply find_Some in Hx as [Hin Heq].
    apply Hid; [done|]. by apply String.eqb_eq. }
  rewrite Hfind in Hrun. cbv zeta in Hrun. rewrite Hnotfull in Hrun.
  destruct (buildRestoreChain_ends_at_target st S F Hnd HS Hinc HF HuF HrF) as [earlier Hplan].
  apply bind_ok_inv in Hrun as (chain & s0 & Hchain & Hrun).
  rewrite Hplan in Hchain. injection Hchain as <- <-.
  apply bind_ok_inv in Hrun as ([] & s2 & Hloop & [= _ <-]).
  rewrite for_each_snoc in Hloop.
  apply bind_ok_inv in Hloop as ([] & s1 & Hearlier & Hlast).
  apply bind_ok_inv in Hlast as ([] & s3 & Hlast & [= <-]).
  pose proof (restoreChain_snapshotDirs e _ _ _ _ Hearlier) as Hdirs.
  unfold restoreChainElement in Hlast. rewrite Hnotfull in Hlast.
  destruct (copyBacks_settle e (ps_id S) d p c m Hget (ps_changedFiles S) s1)
    as (s' & Hcopies & _ & Hsettled); [by rewrite Hdirs|].
  rewrite Hcopies in Hlast. injection Hlast as <-.
  apply Hsettled. left. by exists file.
Qed.

(** Scenario 1: the file spoilt after the second snapshot is back after a
    restore of that snapshot. *)
Lemma restore_of_an_incremental_snapshot_writes_its_files_witness :
  get (project (restoreProjectSnapshot (env (10 * day + 30) "") "s2" spoilt).2) ["a.txt"]
  = Some (File "world" (10 * day + 30)).
Proof.
  destruct (restore_of_an_incremental_snapshot_writes_its_files
              (env (10 * day + 30) "") spoilt secondSnapshot firstSnapshot
              (default [] (snapshotDirs spoilt !! "s2"))
              (response (restoreProjectSnapshot (env (10 * day + 30) "") "s2" spoilt).1)
              (restoreProjectSnapshot (env (10 * day + 30) "") "s2" spoilt).2)
    with (file := "a.txt") (p := ["a.txt"]) (c := "world") (m := 10 * day + 10)
    as [Hwritten|[(r & Hpre & Hne & Hfile)|Hdir]].
  - apply (bool_decide_unpack _). vm_compute. exact I.
  - apply list_elem_of_further, list_elem_of_here.
  - reflexivity.
  - intros s Hs Hsid. apply list_elem_of_lookup in Hs as [i Hi].
    destruct i as [|[|i]]; vm_compute in Hi.
    + injection Hi as <-. discriminate Hsid.
    + by injection Hi as <-.
    + discriminate Hi.
  - apply list_elem_of_here.
  - vm_compute; reflexivity.
  - vm_compute. split; [discriminate|reflexivity].
  - vm_compute; reflexivity.
  - vm_compute; reflexivity.
  - vm_compute; reflexivity.
  - apply list_elem_of_here.
  - vm_compute; reflexivity.
  - vm_compute; reflexivity.
  - exact Hwritten.
  - exfalso. destruct r as [|x r]; [vm_compute in Hfile; discriminate Hfile|].
    destruct Hpre as [k Hk]. injection Hk as <- Hk.
    destruct r; [by apply Hne|discriminate Hk].
  - exfalso. vm_compute in Hdir. discriminate Hdir.
Defined.

End IncrementalRestoreFacts.
